(** * qqchannel-bot: the dice command layer ([src/server/service/qapi/dice.ts])

    A shallow embedding of the command parser [parseFullExp], the keyword
    scanner [detectInstruction], both generations of [decideResult], the
    guild-message handlers and the opposed-roll cache, with the properties
    the specification states about them; then the roll and the other handlers
    of the older generation, the message cache and the skill aliases of
    [src/interface/coc.ts], with properties read off the code.

    The source file holds two generations of [DiceManager]; definitions
    taken from the older one carry the suffix [_v1] where both exist. *)

From Stdlib Require Import ZArith NArith String Ascii Lia ZifyBool.
From stdpp Require Import base list gmap.

Local Open Scope Z_scope.

(** ** JavaScript strings

    A JS string is a sequence of UTF-16 code units.  [slice], [substring],
    [startsWith], [indexOf], [===] and regular expressions without the [u]
    flag all work on code units; a regular expression with the [u] flag reads
    code points (a surrogate pair is one character). *)

Abbreviation code_unit := N.
Abbreviation jsstring := (list code_unit).

Module Utf.

(** Rocq string literals are UTF-8 bytes; [decode8] reads them back into
    code points and [encode16] writes the code units a JS engine holds. *)
Fixpoint decode8 (bs : list N) : list N :=
  match bs with
  | [] => []
  | b0 :: t0 =>
    if (b0 <? 0x80)%N then b0 :: decode8 t0
    else if (b0 <? 0xE0)%N then
      match t0 with
      | b1 :: t1 => ((b0 - 0xC0) * 64 + (b1 - 0x80))%N :: decode8 t1
      | _ => []
      end
    else if (b0 <? 0xF0)%N then
      match t0 with
      | b1 :: b2 :: t2 =>
        ((b0 - 0xE0) * 4096 + (b1 - 0x80) * 64 + (b2 - 0x80))%N :: decode8 t2
      | _ => []
      end
    else
      match t0 with
      | b1 :: b2 :: b3 :: t3 =>
        ((b0 - 0xF0) * 262144 + (b1 - 0x80) * 4096
         + (b2 - 0x80) * 64 + (b3 - 0x80))%N :: decode8 t3
      | _ => []
      end
  end.

Definition encode16 (cps : list N) : jsstring :=
  flat_map (fun cp =>
    if (cp <? 0x10000)%N then [cp]
    else [(0xD800 + (cp - 0x10000) / 1024)%N;
          (0xDC00 + (cp - 0x10000) mod 1024)%N]) cps.

Definition bytes (s : string) : list N :=
  List.map N_of_ascii (list_ascii_of_string s).

End Utf.

(** [js "..."] is the JS string a source literal denotes. *)
Definition js (s : string) : jsstring := Utf.encode16 (Utf.decode8 (Utf.bytes s)).

(** ECMAScript [WhiteSpace] and [LineTerminator]: the class [\s] of regular
    expressions, and what [String.prototype.trim] strips. *)
Definition isWhiteSpace (c : N) : bool :=
  ((9 <=? c) && (c <=? 13) || (c =? 0x20) || (c =? 0xA0) || (c =? 0x1680)
   || (0x2000 <=? c) && (c <=? 0x200A) || (c =? 0x2028) || (c =? 0x2029)
   || (c =? 0x202F) || (c =? 0x205F) || (c =? 0x3000) || (c =? 0xFEFF))%N.

(** [\d] *)
Definition isDigit (c : N) : bool := ((0x30 <=? c) && (c <=? 0x39))%N.

Definition isHighSurrogate (c : N) : bool := ((0xD800 <=? c) && (c <=? 0xDBFF))%N.
Definition isLowSurrogate (c : N) : bool := ((0xDC00 <=? c) && (c <=? 0xDFFF))%N.
Definition surrogatePair (hi lo : N) : N :=
  (0x10000 + (hi - 0xD800) * 1024 + (lo - 0xDC00))%N.

(** Longest prefix of [s] satisfying [p], and the rest. *)
Fixpoint span (p : N -> bool) (s : jsstring) : jsstring * jsstring :=
  match s with
  | [] => ([], [])
  | c :: s' =>
    if p c then let '(a, b) := span p s' in (c :: a, b) else ([], s)
  end.

Definition trimStart (s : jsstring) : jsstring := snd (span isWhiteSpace s).
Definition trimEnd (s : jsstring) : jsstring :=
  rev (snd (span isWhiteSpace (rev s))).
(** [s.trim()] *)
Definition trim (s : jsstring) : jsstring := trimEnd (trimStart s).

(** [s.startsWith(p)] *)
Fixpoint startsWith (s p : jsstring) : bool :=
  match p, s with
  | [], _ => true
  | _ :: _, [] => false
  | a :: p', b :: s' => (a =? b)%N && startsWith s' p'
  end.

(** [s.slice(i)] and [s.slice(0, i)] for an index [0 <= i]. *)
Definition sliceFrom (s : jsstring) (i : Z) : jsstring := skipn (Z.to_nat i) s.
Definition sliceTo (s : jsstring) (i : Z) : jsstring := firstn (Z.to_nat i) s.

(** ** JavaScript numbers in the parser

    [parseFullExp] reads digit strings with [parseInt], adds one and prints
    the result in a template literal.  Doubles hold every integer up to
    [2^53 - 1] exactly, and print it in plain decimal.  Beyond that the engine
    rounds (and [parseInt] may approximate); what it prints there is the
    parameter [inexact] of the parser, and [Rounded] remembers the digit
    string and the addend the value came from. *)

Definition MAX_SAFE_INTEGER : Z := 2 ^ 53 - 1.

Inductive number :=
  | Exact (z : Z)
  | NaN
  | Rounded (ds : jsstring) (k : Z).

Definition digitValue (c : N) : Z := Z.of_N c - 0x30.

(** The mathematical integer a run of decimal digits denotes. *)
Definition digitsValue (ds : jsstring) : Z :=
  fold_left (fun acc c => acc * 10 + digitValue c) ds 0.

(** [parseInt(s, 10)] on a string without sign: leading white space is
    skipped, the leading digits are read, no digit at all gives [NaN]. *)
Definition parseInt10 (s : jsstring) : number :=
  let ds := fst (span isDigit (trimStart s)) in
  match ds with
  | [] => NaN
  | _ => if digitsValue ds <=? MAX_SAFE_INTEGER then Exact (digitsValue ds)
         else Rounded ds 0
  end.

Fixpoint uintString (u : Decimal.uint) : jsstring :=
  match u with
  | Decimal.Nil => []
  | Decimal.D0 u => 0x30%N :: uintString u
  | Decimal.D1 u => 0x31%N :: uintString u
  | Decimal.D2 u => 0x32%N :: uintString u
  | Decimal.D3 u => 0x33%N :: uintString u
  | Decimal.D4 u => 0x34%N :: uintString u
  | Decimal.D5 u => 0x35%N :: uintString u
  | Decimal.D6 u => 0x36%N :: uintString u
  | Decimal.D7 u => 0x37%N :: uintString u
  | Decimal.D8 u => 0x38%N :: uintString u
  | Decimal.D9 u => 0x39%N :: uintString u
  end.

(** Decimal rendering of an integer, as [Number.prototype.toString] gives it
    for safe integers. *)
Definition decimal (z : Z) : jsstring :=
  match z with
  | Z0 => [0x30%N]
  | Zpos p => uintString (Pos.to_uint p)
  | Zneg p => 0x2D%N :: uintString (Pos.to_uint p)
  end.

(** [n + k] for an integer [k]. *)
Definition numberAdd (n : number) (k : Z) : number :=
  match n with
  | Exact z =>
    if z + k <=? MAX_SAFE_INTEGER then Exact (z + k) else Rounded (decimal z) k
  | NaN => NaN
  | Rounded ds j => Rounded ds (j + k)
  end.

(** ** Regular expressions with groups

    The two anchored patterns of [parseFullExp], read by a backtracking
    matcher in the order ECMAScript tries the choices: a quantifier takes as
    much as it can first and gives back one step at a time. *)

Inductive regex :=
  | RChar (p : N -> bool)          (* a character or a class *)
  | REmpty
  | RSeq (a b : regex)
  | RAlt (a b : regex)             (* a|b, a first *)
  | RStar (a : regex)              (* a*, greedy *)
  | RGroup (i : nat) (a : regex)   (* the i-th capture group *)
  | REnd.                          (* $ *)

(** [a?] and [a+] *)
Definition ROpt (a : regex) : regex := RAlt a REmpty.
Definition RPlus (a : regex) : regex := RSeq a (RStar a).

(** The groups that took part in a match, each with its substring; a group
    that is not listed is [undefined]. *)
Definition captures := list (nat * jsstring).

Definition capture (i : nat) (c : captures) : option jsstring :=
  option_map snd (List.find (fun e => Nat.eqb (fst e) i) c).

Definition setCapture (i : nat) (v : jsstring) (c : captures) : captures :=
  (i, v) :: List.filter (fun e => negb (Nat.eqb (fst e) i)) c.

Definition clearCaptures (gs : list nat) (c : captures) : captures :=
  List.filter (fun e => negb (existsb (Nat.eqb (fst e)) gs)) c.

Fixpoint groupsOf (r : regex) : list nat :=
  match r with
  | RChar _ | REmpty | REnd => []
  | RSeq a b | RAlt a b => groupsOf a ++ groupsOf b
  | RStar a => groupsOf a
  | RGroup i a => i :: groupsOf a
  end.

(** The result of a match attempt; [OutOfFuel] is the matcher giving up on a
    bound that was too small. *)
Inductive outcome :=
  | Matched (c : captures)
  | Failed
  | OutOfFuel.

(** [exec r fuel s c k]: match [r] at the head of [s] with the groups [c] so
    far, then continue with [k] on the rest; the first choice whose
    continuation succeeds wins.  An iteration of [a*] starts with the groups
    of [a] cleared and must consume input. *)
Fixpoint exec (r : regex) (fuel : nat) (s : jsstring) (c : captures)
  (k : jsstring -> captures -> outcome) : outcome :=
  match r with
  | RChar p =>
    match s with
    | x :: s' => if p x then k s' c else Failed
    | [] => Failed
    end
  | REmpty => k s c
  | RSeq a b => exec a fuel s c (fun s' c' => exec b fuel s' c' k)
  | RAlt a b =>
    match exec a fuel s c k with
    | Failed => exec b fuel s c k
    | result => result
    end
  | RStar a =>
    (fix star (fuel : nat) (s : jsstring) (c : captures) : outcome :=
       match fuel with
       | O => OutOfFuel
       | S fuel' =>
         match exec a fuel' s (clearCaptures (groupsOf a) c)
                 (fun s' c' =>
                    if (length s' <? length s)%nat then star fuel' s' c'
                    else Failed) with
         | Failed => k s c
         | result => result
         end
       end) fuel s c
  | RGroup i a =>
    exec a fuel s c
      (fun s' c' => k s' (setCapture i (firstn (length s - length s') s) c'))
  | REnd =>
    match s with
    | [] => k s c
    | _ :: _ => Failed
    end
  end.

(** [s.match(r)] for a pattern [r] that begins with [^]: the match starts at
    index 0 or nowhere. *)
Definition regexMatch (r : regex) (s : jsstring) : outcome :=
  exec r (S (length s)) s [] (fun _ c => Matched c).

Definition isChar (c : N) : N -> bool := fun x => (x =? c)%N.

(** [/^r([bp])\s*(\d+)?$/] *)
Definition rbrpRegex : regex :=
  RSeq (RChar (isChar 0x72))                                         (* r *)
    (RSeq (RGroup 1 (RChar (fun x => isChar 0x62 x || isChar 0x70 x))) (* [bp] *)
       (RSeq (RStar (RChar isWhiteSpace))
          (RSeq (ROpt (RGroup 2 (RPlus (RChar isDigit)))) REnd))).

(** [/^w{1,2}\s*(\d+)\s*a?\s*(\d+)*$/] *)
Definition wwRegex : regex :=
  RSeq (RSeq (RChar (isChar 0x77)) (ROpt (RChar (isChar 0x77))))     (* w{1,2} *)
    (RSeq (RStar (RChar isWhiteSpace))
       (RSeq (RGroup 1 (RPlus (RChar isDigit)))
          (RSeq (RStar (RChar isWhiteSpace))
             (RSeq (ROpt (RChar (isChar 0x61)))                      (* a? *)
                (RSeq (RStar (RChar isWhiteSpace))
                   (RSeq (RStar (RGroup 2 (RPlus (RChar isDigit)))) REnd)))))).

(** ** The deterministic reading of the two patterns

    [match_rbrp] and [match_ww] read the patterns from left to right without
    giving anything back; they are proved equal to [regexMatch] on every
    input and stand for it in the proofs. *)

(** What [a*] does for a class [p]: take the whole run, then give back one
    code unit at a time until the continuation succeeds. *)
Fixpoint greedy (p : N -> bool) (k : jsstring -> captures -> outcome)
  (s : jsstring) (c : captures) : outcome :=
  match s with
  | [] => k [] c
  | x :: s' =>
    if p x then
      match greedy p k s' c with
      | Failed => k s c
      | result => result
      end
    else k s c
  end.

(** The groups [1] and [2] of a match as [captures]. *)
Definition capturesOf (g : jsstring * option jsstring) : captures :=
  match g with
  | (g1, Some g2) => [(2%nat, g2); (1%nat, g1)]
  | (g1, None) => [(1%nat, g1)]
  end.

Definition outcomeOf (o : option (jsstring * option jsstring)) : outcome :=
  match o with
  | Some g => Matched (capturesOf g)
  | None => Failed
  end.

(** The reading of [rbrpRegex]: the groups [1] and [2] of a match.  Each
    quantifier is greedy, the classes [\s] and [\d] are disjoint and [$] is
    the end of the input, so the greedy reading is the only one that can
    succeed. *)
Definition match_rbrp (exp : jsstring) : option (jsstring * option jsstring) :=
  match exp with
  | r :: t :: rest =>
    (* r, then b or p *)
    if ((r =? 0x72) && ((t =? 0x62) || (t =? 0x70)))%N then
      let rest1 := snd (span isWhiteSpace rest) in
      let '(ds, rest2) := span isDigit rest1 in
      match rest2 with
      | [] => Some ([t], match ds with [] => None | _ => Some ds end)
      | _ => None
      end
    else None
  | _ => None
  end.

(** An optional single code unit [c?], taken when present. *)
Definition skipOne (c : N) (s : jsstring) : jsstring :=
  match s with
  | d :: s' => if (d =? c)%N then s' else s
  | [] => s
  end.

(** The reading of [wwRegex]: the groups [1] and [2] of a match.  The first
    group takes the whole first run of digits; a shorter choice leaves a digit
    where only the end of the input lets the match succeed, and then the
    greedy choice succeeds too.  The second group is the last iteration of
    [(\d+)*], which is the whole second run, or [undefined]. *)
Definition match_ww (exp : jsstring) : option (jsstring * option jsstring) :=
  match exp with
  | w :: rest =>
    (* w, a second w when there is one *)
    if (w =? 0x77)%N then
      let rest1 := snd (span isWhiteSpace (skipOne 0x77 rest)) in
      let '(d1, rest2) := span isDigit rest1 in
      match d1 with
      | [] => None
      | _ =>
        let rest3 := snd (span isWhiteSpace rest2) in
        (* a, when there is one *)
        let rest4 := snd (span isWhiteSpace (skipOne 0x61 rest3)) in
        let '(d2, rest5) := span isDigit rest4 in
        match rest5 with
        | [] => Some (d1, match d2 with [] => None | _ => Some d2 end)
        | _ => None
        end
      end
    else None
  | [] => None
  end.

(** ** The command parser *)

(** [String(x)] for a capture group [x] that is a string or [undefined], as
    [parseInt] reads its argument. *)
Definition toStringOpt (x : option jsstring) : jsstring :=
  match x with
  | Some s => s
  | None => js "undefined"
  end.

(** [x || d] for a capture group [x] that is a string or [undefined]: the
    empty string is falsy as well. *)
Definition orDefault (x : option jsstring) (d : jsstring) : jsstring :=
  match x with
  | Some (c :: s) => c :: s
  | _ => d
  end.

Section Parser.

(** The Unicode property [\p{Unified_Ideograph}] of the engine, on code
    points.  Its table grows with the Unicode version; no version puts an
    ASCII character in it. *)
Variable Unified_Ideograph : N -> bool.

(** What the engine prints for [parseInt(ds, 10) + k] beyond the safe
    integers. *)
Variable inexact : jsstring -> Z -> jsstring.

(** The class [[\p{Unified_Ideograph}\s]]. *)
Definition isSplitChar (cp : N) : bool := Unified_Ideograph cp || isWhiteSpace cp.

(** [s.search(/[\p{Unified_Ideograph}\s]/u)], counted from [pos]: the index
    of the first code point in the class, or [-1].  With the [u] flag a
    high surrogate followed by a low surrogate is one code point, and the
    scan steps over both. *)
Fixpoint searchFrom (s : jsstring) (pos : Z) : Z :=
  match s with
  | [] => -1
  | c :: s' =>
    match s' with
    | d :: s'' =>
      if isHighSurrogate c && isLowSurrogate d then
        if isSplitChar (surrogatePair c d) then pos
        else searchFrom s'' (pos + 2)
      else if isSplitChar c then pos else searchFrom s' (pos + 1)
    | [] => if isSplitChar c then pos else searchFrom s' (pos + 1)
    end
  end.

Definition search (s : jsstring) : Z := searchFrom s 0.

(** [`${n}`] *)
Definition numberToString (n : number) : jsstring :=
  match n with
  | Exact z => decimal z
  | NaN => js "NaN"
  | Rounded ds k => inexact ds k
  end.

(** [parseFullExp(fullExp)]: the pair [[expression, descriptor]]. *)
Definition parseFullExp (fullExp : jsstring) : jsstring * jsstring :=
  if bool_decide (fullExp = js "sc") || bool_decide (fullExp = js "SC") then
    (js "d%", js "sc")
  else
    let index := search fullExp in
    let '(exp, desc) :=
      if index <? 0 then (fullExp, [])
      else (sliceTo fullExp index, sliceFrom fullExp index) in
    if bool_decide (exp = js "d") || bool_decide (exp = js "r")
       || bool_decide (exp = js "rd") then (js "d%", desc)
    else if bool_decide (exp = js "ra") then (js "d%", desc)
    else
      match regexMatch rbrpRegex exp with
      | Matched rbrpMatch =>
        let type :=
          if bool_decide (capture 1 rbrpMatch = Some (js "b")) then js "l"
          else js "h" in
        let count := parseInt10 (orDefault (capture 2 rbrpMatch) (js "1")) in
        (numberToString (numberAdd count 1) ++ js "d%k" ++ type ++ js "1", desc)
      | _ =>
        match regexMatch wwRegex exp with
        | Matched wwMatch =>
          let diceCount := parseInt10 (toStringOpt (capture 1 wwMatch)) in
          let explodeCount :=
            parseInt10 (orDefault (capture 2 wwMatch) (js "10")) in
          (numberToString diceCount ++ js "d10!>=" ++ numberToString explodeCount
           ++ js ">=8", desc)
        | _ =>
          if startsWith exp (js "r") then (trim (sliceFrom exp 1), desc)
          else (exp, desc)
        end
      end.

End Parser.

(** A concrete engine for the worked examples: the [Unified_Ideograph] ranges
    of Unicode 15.1. *)
Definition ideograph15 (c : N) : bool :=
  ((0x3400 <=? c) && (c <=? 0x4DBF) || (0x4E00 <=? c) && (c <=? 0x9FFF)
   || (0xFA0E <=? c) && (c <=? 0xFA0F) || (c =? 0xFA11)
   || (0xFA13 <=? c) && (c <=? 0xFA14) || (c =? 0xFA1F) || (c =? 0xFA21)
   || (0xFA23 <=? c) && (c <=? 0xFA24) || (0xFA27 <=? c) && (c <=? 0xFA29)
   || (0x20000 <=? c) && (c <=? 0x2A6DF) || (0x2A700 <=? c) && (c <=? 0x2B739)
   || (0x2B740 <=? c) && (c <=? 0x2B81D) || (0x2B820 <=? c) && (c <=? 0x2CEA1)
   || (0x2CEB0 <=? c) && (c <=? 0x2EBE0) || (0x2EBF0 <=? c) && (c <=? 0x2EE5D)
   || (0x30000 <=? c) && (c <=? 0x3134A) || (0x31350 <=? c) && (c <=? 0x323AF))%N.

(** The engine of the worked examples never leaves the safe integers. *)
Definition noInexact (ds : jsstring) (k : Z) : jsstring := js "Infinity".

Definition parse : jsstring -> jsstring * jsstring :=
  parseFullExp ideograph15 noInexact.



(** ** Regular expressions over literal alternatives

    [instRegex], the difficulty pattern and the entity pattern of
    [unescapeHTML] are alternations of non-empty literals.  At one position
    the alternatives are tried in the order written. *)

Fixpoint firstAlt (alts : list jsstring) (s : jsstring) : option jsstring :=
  match alts with
  | [] => None
  | a :: alts' => if startsWith s a then Some a else firstAlt alts' s
  end.

(** [s.match(/a|b|.../)] without the [g] flag: element [0] of the result,
    the leftmost match, or [None] for [null]. *)
Fixpoint execAlts (alts : list jsstring) (s : jsstring) : option jsstring :=
  match firstAlt alts s with
  | Some m => Some m
  | None =>
    match s with
    | [] => None
    | _ :: s' => execAlts alts s'
    end
  end.

(** [s.match(/a|b|.../g)]: every match from left to right, each search
    resuming where the previous match ended; [skip] counts the code units
    still covered by that match.  The empty list stands for [null]. *)
Fixpoint matchAllFrom (alts : list jsstring) (skip : nat) (s : jsstring)
  : list jsstring :=
  match s with
  | [] => []
  | _ :: s' =>
    match skip with
    | S k => matchAllFrom alts k s'
    | O =>
      match firstAlt alts s with
      | Some m => m :: matchAllFrom alts (length m - 1) s'
      | None => matchAllFrom alts 0 s'
      end
    end
  end.

Definition matchAll (alts : list jsstring) (s : jsstring) : list jsstring :=
  matchAllFrom alts 0 s.

(** [s.replace(/a|b|.../g, f)] *)
Fixpoint replaceAllFrom (alts : list jsstring) (f : jsstring -> jsstring)
  (skip : nat) (s : jsstring) : jsstring :=
  match s with
  | [] => []
  | c :: s' =>
    match skip with
    | S k => replaceAllFrom alts f k s'
    | O =>
      match firstAlt alts s with
      | Some m => f m ++ replaceAllFrom alts f (length m - 1) s'
      | None => c :: replaceAllFrom alts f 0 s'
      end
    end
  end.

Definition replaceAll (alts : list jsstring) (f : jsstring -> jsstring)
  (s : jsstring) : jsstring := replaceAllFrom alts f 0 s.

(** [s.replace(p, '')] for a non-empty string pattern [p]: the first
    occurrence is removed. *)
Fixpoint removeFirst (p s : jsstring) : jsstring :=
  if startsWith s p then skipn (length p) s
  else match s with
       | [] => []
       | c :: s' => c :: removeFirst p s'
       end.

(** [s.indexOf(p) >= 0] *)
Fixpoint includes (s p : jsstring) : bool :=
  startsWith s p ||
  match s with
  | [] => false
  | _ :: s' => includes s' p
  end.

(** ** [detectInstruction] *)

Definition instRegex : list jsstring :=
  List.map js
    ["力量"; "体质"; "体型"; "敏捷"; "外貌"; "智力"; "灵感"; "意志"; "教育";
     "理智"; "幸运"; "会计"; "人类学"; "估价"; "考古学"; "魅惑"; "攀爬";
     "计算机"; "信用"; "克苏鲁神话"; "乔装"; "闪避"; "驾驶"; "电气维修";
     "电子学"; "话术"; "格斗"; "射击"; "急救"; "历史"; "恐吓"; "跳跃"; "母语";
     "法律"; "图书馆"; "聆听"; "锁匠"; "机械维修"; "医学"; "博物学"; "领航";
     "神秘学"; "重型机械"; "说服"; "精神分析"; "心理学"; "骑术"; "妙手";
     "侦查"; "侦察"; "潜行"; "游泳"; "投掷"; "追踪"; "sc"; "SC"]%string.

(** [/(困难|极难|极限)/] *)
Definition difficultyRegex : list jsstring :=
  List.map js ["困难"; "极难"; "极限"]%string.

Definition detectInstruction (text : jsstring) : option jsstring :=
  match matchAll instRegex text with
  | [] => None
  | skill :: _ =>
    let difficulty :=
      match execAlts difficultyRegex text with
      | Some d => d
      | None => []
      end in
    Some (difficulty ++ skill)
  end.

(** [unescapeHTML] *)
Definition unescapeHTML (str : jsstring) : jsstring :=
  replaceAll (List.map js ["&lt;"; "&gt;"; "&amp;"]%string)
    (fun matches =>
       if bool_decide (matches = js "&lt;") then js "<"
       else if bool_decide (matches = js "&gt;") then js ">"
       else if bool_decide (matches = js "&amp;") then js "&"
       else [])
    str.

(** ** The success decider

    Ratings and rolls are integers; a rating prints in decimal. *)

(** Modelled from the spec: the enum [SuccessLevel] of [../dice/utils], which
    is not among the sources; the four members the decider returns. *)
Inductive SuccessLevel := WORST | FAIL | REGULAR_SUCCESS | BEST.

(** Modelled from the spec: the type [ICocCardEntry] of [../card/coc] (the
    specification's SkillEntry), which is not among the sources; the two
    fields the decider reads. *)
Record ICocCardEntry := { baseValue : Z; value : Z }.

(** Modelled from the spec: the type [IDeciderResult] of [../dice/utils] (the
    specification's DecisionResult), which is not among the sources. *)
Record IDeciderResult :=
  { success : bool; level : SuccessLevel; desc : jsstring }.

(** [DiceManager.decideResult] of the newer generation. *)
Definition decideResult (cardEntry : ICocCardEntry) (roll : Z) : IDeciderResult :=
  if roll =? 1 then
    {| success := true; level := BEST; desc := js "大成功" |}
  else if (baseValue cardEntry <? 50) && (roll >? 95)
          || (baseValue cardEntry >=? 50) && (roll =? 100) then
    {| success := false; level := WORST; desc := js "大失败" |}
  else if roll <=? value cardEntry then
    {| success := true; level := REGULAR_SUCCESS;
       desc := js "≤ " ++ decimal (value cardEntry) ++ js " 成功" |}
  else
    {| success := false; level := FAIL;
       desc := js "> " ++ decimal (value cardEntry) ++ js " 失败" |}.

(** Modelled from the spec: the type [ICard] of [interface/common], which is
    not among the sources.  The character card as the older decider reads it:
    [basic.name], [basic.san], [basic.luck], and the objects [props] and
    [skills] as maps from their own keys to ratings. *)
Record ICard :=
  { basic_name : jsstring;
    basic_san : Z;
    basic_luck : Z;
    props : gmap jsstring Z;
    skills : gmap jsstring Z }.

(** [roll <= x] and [`${x}`] for a property read [x], [None] being
    [undefined]. *)
Definition leNumber (roll : Z) (x : option Z) : bool :=
  match x with
  | Some v => roll <=? v
  | None => false
  end.

Definition showNumber (x : option Z) : jsstring :=
  match x with
  | Some v => decimal v
  | None => js "undefined"
  end.

(** [roll <= x ? `≤ ${x} 成功` : `> ${x} 失败`] *)
Definition compareDesc (roll : Z) (x : option Z) : jsstring :=
  if leNumber roll x then js "≤ " ++ showNumber x ++ js " 成功"
  else js "> " ++ showNumber x ++ js " 失败".

(** What [card.props[skill]] and [card.skills[skill]] can read: the rating
    under an own key, or a member the object inherits from
    [Object.prototype], kept as the text a template literal gives it. *)
Inductive PropertyValue :=
  | NumberValue (rating : Z)
  | MemberValue (text : jsstring).

(** The members of [Object.prototype] by name, each with its text in a
    template literal as Node prints it: [constructor] is the function
    [Object], [__proto__] is [Object.prototype] itself, the others are
    built-in functions of their own name. *)
Definition objectPrototype (key : jsstring) : option jsstring :=
  if bool_decide (key = js "constructor") then
    Some (js "function Object() { [native code] }")
  else if bool_decide (key = js "__proto__") then Some (js "[object Object]")
  else if existsb (fun name => bool_decide (key = name))
            (List.map js
               [ "__defineGetter__"; "__defineSetter__"; "hasOwnProperty";
                 "__lookupGetter__"; "__lookupSetter__"; "isPrototypeOf";
                 "propertyIsEnumerable"; "toString"; "valueOf";
                 "toLocaleString" ]%string) then
    Some (js "function " ++ key ++ js "() { [native code] }")
  else None.

(** [o[key]] on a plain object with the own ratings [o]: the own property,
    else the inherited member, else [undefined]. *)
Definition propertyRead (o : gmap jsstring Z) (key : jsstring)
  : option PropertyValue :=
  match o !! key with
  | Some rating => Some (NumberValue rating)
  | None => option_map MemberValue (objectPrototype key)
  end.

(** [a || b] on property reads: [undefined] and [0] are falsy, a function
    or an object is truthy. *)
Definition orValue (a b : option PropertyValue) : option PropertyValue :=
  match a with
  | Some (NumberValue v) => if v =? 0 then b else a
  | Some (MemberValue _) => a
  | None => b
  end.

Record DecideResult_v1 :=
  { resultDesc : jsstring; skill : jsstring; cardName : jsstring }.

(** [DiceManager.decideResult] of the older generation; [card] is what
    [this.wss.cards.getCard(channel, sender)] returned. *)
Definition decideResult_v1 (card : option ICard) (desc : jsstring) (roll : Z)
  : option DecideResult_v1 :=
  let skill := trim desc in
  match skill with
  | [] => None
  | _ =>
    match card with
    | None => None
    | Some card =>
      if bool_decide (skill = js "理智") || bool_decide (skill = js "sc")
         || bool_decide (skill = js "SC") then
        Some {| resultDesc := compareDesc roll (Some (basic_san card));
                skill := skill; cardName := basic_name card |}
      else if bool_decide (skill = js "幸运") then
        Some {| resultDesc := compareDesc roll (Some (basic_luck card));
                skill := skill; cardName := basic_name card |}
      else if bool_decide (skill = js "灵感") then
        Some {| resultDesc := compareDesc roll (props card !! js "智力");
                skill := skill; cardName := basic_name card |}
      else
        let isHard := includes skill (js "困难") in
        let isEx := includes skill (js "极难") || includes skill (js "极限") in
        let skill := replaceAll difficultyRegex (fun _ => []) skill in
        let skill := if bool_decide (skill = js "侦查") then js "侦察" else skill in
        match orValue (propertyRead (props card) skill)
                (propertyRead (skills card) skill) with
        | None => None
        | Some (NumberValue target) =>
          if target =? 0 then None
          else
            let resultDesc :=
              if roll =? 1 then js "大成功"
              else if roll >? 95 then js "大失败"
              else
                let target :=
                  if isEx then target / 5
                  else if isHard then target / 2 else target in
                compareDesc roll (Some target) in
            Some {| resultDesc := resultDesc; skill := skill;
                    cardName := basic_name card |}
        | Some (MemberValue text) =>
          (* a function or an object: as a number it is NaN, below which no
             roll is, and so is its half or its fifth, printed as NaN *)
          let resultDesc :=
            if roll =? 1 then js "大成功"
            else if roll >? 95 then js "大失败"
            else if isEx || isHard then js "> NaN 失败"
            else js "> " ++ text ++ js " 失败" in
          Some {| resultDesc := resultDesc; skill := skill;
                  cardName := basic_name card |}
        end
    end
  end.

(** ** Messages and the guild-message handler of the older generation *)

(** The fields of an inbound message the handlers read.  [content] and
    [member_nick] may be missing; [message_reference] is
    [msg.message_reference?.message_id]. *)
Record IMessage :=
  { msg_id : jsstring;
    content : option jsstring;
    author_id : jsstring;
    author_username : option jsstring;
    member_nick : option jsstring;
    channel_id : jsstring;
    guild_id : jsstring;
    message_reference : option jsstring }.

(** [`<@!${botUserId}>`]; a missing [botInfo] prints as [undefined]. *)
Definition mention (botUserId : option jsstring) : jsstring :=
  js "<@!" ++ match botUserId with Some i => i | None => js "undefined" end
  ++ js ">".

(** Does the trimmed text start with the command marker [.] or [。]? *)
Definition startsWithMarker (s : jsstring) : bool :=
  startsWith s (js ".") || startsWith s (js "。").

(** [handleGuildMessage] of the older generation, up to its call of
    [tryRollDice]: [Some fullExp] is the expression handed to [tryRollDice],
    [None] a return before that call. *)
Definition handleGuildMessage_v1 (botUserId : option jsstring) (msg : IMessage)
  : option jsstring :=
  match content msg with
  | None => None
  | Some c =>
    let content := trim c in
    match content with
    | [] => None
    | _ =>
      let fullExp :=
        if startsWith content (mention botUserId ++ js " ") then
          trim (removeFirst (mention botUserId ++ js " ") content)
        else if startsWithMarker content then trim (sliceFrom content 1)
        else [] in
      match fullExp with
      | [] => None
      | _ => Some (unescapeHTML fullExp)
      end
    end
  end.

(** ** The opposed-roll cache and the handlers of the newer generation *)

(** Modelled from the spec: the class [StandardDiceRoll] of
    [../dice/standard] (the specification's RollRecord), which is not among
    the sources; the fields the handlers read. *)
Record StandardDiceRoll :=
  { hidden : bool;
    eligibleForOpposedRoll : bool;
    description : jsstring;
    output : jsstring }.

(** Modelled from the spec: what [createDiceRoll] of [../dice/utils] returns,
    a [StandardDiceRoll] or a roll of another class, of which only [output]
    is read. *)
Inductive Roller :=
  | Standard (r : StandardDiceRoll)
  | Other (out : jsstring).

Definition rollerOutput (r : Roller) : jsstring :=
  match r with
  | Standard r => output r
  | Other out => out
  end.

(** [new LRUCache({ max })] of the library lru-cache, entries from the most
    to the least recently used: [get] moves a hit to the front, [set] puts
    the entry in front and drops the least recently used one beyond [max]. *)
Definition LRUCache (V : Type) := list (jsstring * V).

Definition lru_remove {V} (k : jsstring) (c : LRUCache V) : LRUCache V :=
  List.filter (fun e => negb (bool_decide (fst e = k))) c.

Definition lru_peek {V} (k : jsstring) (c : LRUCache V) : option V :=
  option_map snd (List.find (fun e => bool_decide (fst e = k)) c).

Definition lru_get {V} (k : jsstring) (c : LRUCache V) : option V * LRUCache V :=
  match lru_peek k c with
  | Some v => (Some v, (k, v) :: lru_remove k c)
  | None => (None, c)
  end.

Definition lru_set {V} (max : nat) (k : jsstring) (v : V) (c : LRUCache V)
  : LRUCache V :=
  firstn max ((k, v) :: lru_remove k c).

Definition opposedRollCacheMax : nat := 50.

(** An entry of [msgCache]; [instruction] has three states. *)
Inductive Instruction :=
  | Unparsed                    (* undefined *)
  | NoInstruction               (* null *)
  | Parsed (s : jsstring).

Record IMessageCache := { text : option jsstring; instruction : Instruction }.

(** A message handed to [channel.sendMessage] or [user.sendMessage]. *)
Inductive Sent :=
  | ToChannel (content msg_id : jsstring)
  | ToUser (content msg_id : jsstring).

(** What one run of a handler did, up to its first [await] on a posted
    message: the cache afterwards, the keys looked up in the opposed-roll
    cache, the expression handed to [tryRollDice] if it was called, the
    messages sent, and the roll whose posted reply is awaited. *)
Record Run :=
  { cacheAfter : LRUCache StandardDiceRoll;
    lookups : list jsstring;
    rolled : option jsstring;
    sent : list Sent;
    awaiting : option Roller }.

Section Handlers.

(** The collaborators outside the file: the card store, [createDiceRoll]
    ([None] when it throws), [roller.applyToCard()] ([None] when it
    throws), the channel and user directories. *)
Variable Card : Type.
Variable getCard : jsstring -> jsstring -> option Card.

Record DiceRollContext :=
  { ctx_channelId : option jsstring;
    ctx_username : jsstring;
    ctx_card : option Card;
    ctx_decide : Z -> ICocCardEntry -> IDeciderResult;
    ctx_opposedRoll : option StandardDiceRoll }.

Variable createDiceRoll : jsstring -> DiceRollContext -> option Roller.
Variable applyToCard : Roller -> option bool.
Variable findChannel : jsstring -> jsstring -> bool.
Variable findUser : jsstring -> jsstring -> option jsstring.

(** A string option is truthy when present and non-empty. *)
Definition truthy (x : option jsstring) : option jsstring :=
  match x with
  | Some (c :: s) => Some (c :: s)
  | _ => None
  end.

(** [tryRollDice]: the roll or [null], the cache afterwards and the keys
    looked up. *)
Definition tryRollDice (cache : LRUCache StandardDiceRoll) (fullExp : jsstring)
  (userId : jsstring) (channelId username replyMsgId : option jsstring)
  : option Roller * LRUCache StandardDiceRoll * list jsstring :=
  let cocCard :=
    match truthy channelId with
    | Some ch => getCard ch userId
    | None => None
    end in
  let '(opposedRoll, cache, looked) :=
    match truthy replyMsgId with
    | Some k => let '(v, c) := lru_get k cache in (v, c, [k])
    | None => (None, cache, [])
    end in
  match createDiceRoll fullExp
          {| ctx_channelId := channelId;
             ctx_username := orDefault username userId;
             ctx_card := cocCard;
             ctx_decide := fun value target => decideResult target value;
             ctx_opposedRoll := opposedRoll |} with
  | None => (None, cache, looked)
  | Some roller =>
    match cocCard with
    | Some _ =>
      match applyToCard roller with
      | Some _ => (Some roller, cache, looked)
      | None => (None, cache, looked)
      end
    | None => (Some roller, cache, looked)
    end
  end.

(** The command body [handleGuildMessage] extracts from the trimmed
    content: mention stripped, marker stripped, entities unescaped. *)
Definition commandBody (botUserId : option jsstring) (content : jsstring)
  : jsstring :=
  let fullExp := content in
  let fullExp :=
    if startsWith fullExp (mention botUserId) then
      trim (removeFirst (mention botUserId) fullExp)
    else fullExp in
  let fullExp :=
    if startsWithMarker fullExp then trim (sliceFrom fullExp 1) else fullExp in
  unescapeHTML fullExp.

Definition idle (cache : LRUCache StandardDiceRoll) : Run :=
  {| cacheAfter := cache; lookups := []; rolled := None; sent := [];
     awaiting := None |}.

(** [handleGuildMessage], up to [await channel.sendMessage]. *)
Definition handleGuildMessage (botUserId : option jsstring)
  (cache : LRUCache StandardDiceRoll) (msg : IMessage) : Run :=
  match content msg with
  | None => idle cache
  | Some c =>
    match trim c with
    | [] => idle cache
    | content =>
      let fullExp := commandBody botUserId content in
      let username :=
        orDefault (member_nick msg)
          (orDefault (author_username msg) (author_id msg)) in
      let replyMsgId := message_reference msg in
      let '(roll, cache, looked) :=
        tryRollDice cache fullExp (author_id msg) (Some (channel_id msg))
          (Some username) replyMsgId in
      let run sent awaiting :=
        {| cacheAfter := cache; lookups := looked; rolled := Some fullExp;
           sent := sent; awaiting := awaiting |} in
      match roll with
      | None => run [] None
      | Some roll =>
        if findChannel (channel_id msg) (guild_id msg) then
          match roll with
          | Standard r =>
            if hidden r then
              let channelMsg :=
                username ++ js " 在帷幕后面偷偷地 🎲 " ++ description r
                ++ js "，猜猜结果是什么" in
              match findUser (author_id msg) (guild_id msg) with
              | Some _ =>
                run [ToChannel channelMsg (msg_id msg);
                     ToUser (output r) (msg_id msg)] None
              | None => run [ToChannel channelMsg (msg_id msg)] None
              end
            else run [ToChannel (output r) (msg_id msg)] (Some roll)
          | Other out => run [ToChannel out (msg_id msg)] (Some roll)
          end
        else run [] None
      end
    end
  end.

(** The rest of [handleGuildMessage] and of [handleGuildReactions] once
    the awaited post returned [replyMsg] ([None] for a falsy result). *)
Definition afterPost (cache : LRUCache StandardDiceRoll) (roll : Roller)
  (replyMsg : option jsstring) : LRUCache StandardDiceRoll :=
  match replyMsg, roll with
  | Some id, Standard r =>
    if eligibleForOpposedRoll r then lru_set opposedRollCacheMax id r cache
    else cache
  | _, _ => cache
  end.

(** [handleGuildReactions] from the result [cacheMsg] of
    [msgCache.fetch] to [await channel.sendMessage]; the entry is returned
    with the instruction the handler stored in it. *)
Definition handleGuildReactions (cache : LRUCache StandardDiceRoll)
  (eventId channelId guildId userId : jsstring)
  (cacheMsg : option IMessageCache) : option IMessageCache * Run :=
  match cacheMsg with
  | None => (None, idle cache)
  | Some entry =>
    match instruction entry with
    | NoInstruction => (Some entry, idle cache)
    | _ =>
      let entry :=
        match instruction entry with
        | Unparsed =>
          {| text := text entry;
             instruction :=
               match detectInstruction (orDefault (text entry) []) with
               | Some i => Parsed i
               | None => NoInstruction
               end |}
        | _ => entry
        end in
      match instruction entry with
      | Parsed (c :: i) =>
        let fullExp := js "d% " ++ c :: i in
        let '(roll, cache, looked) :=
          tryRollDice cache fullExp userId (Some channelId)
            (findUser userId guildId) None in
        let run sent awaiting :=
          {| cacheAfter := cache; lookups := looked; rolled := Some fullExp;
             sent := sent; awaiting := awaiting |} in
        (Some entry,
         match roll with
         | None => run [] None
         | Some roll =>
           if findChannel channelId guildId then
             run [ToChannel (rollerOutput roll) eventId] (Some roll)
           else run [] None
         end)
      | _ => (Some entry, idle cache)
      end
    end
  end.

(** [handleDirectMessage]: the roll is made without channel and without
    replied-to message; [selfNick] is the bot's name. *)
Definition handleDirectMessage (selfNick : jsstring)
  (cache : LRUCache StandardDiceRoll) (msg : IMessage)
  (srcGuildId : jsstring) : Run :=
  let userId := author_id msg in
  let fallback cache looked rolled :=
    {| cacheAfter := cache; lookups := looked; rolled := rolled;
       sent := match findUser userId srcGuildId with
               | Some _ => [ToUser (selfNick ++ js "在的说") (msg_id msg)]
               | None => []
               end;
       awaiting := None |} in
  match content msg with
  | None => fallback cache [] None
  | Some c =>
    let content := trim c in
    let fullExp :=
      if startsWithMarker content then trim (sliceFrom content 1) else [] in
    match fullExp with
    | [] => fallback cache [] None
    | _ =>
      let fullExp := unescapeHTML fullExp in
      match findUser userId srcGuildId with
      | None => fallback cache [] None
      | Some persona =>
        let '(roll, cache, looked) :=
          tryRollDice cache fullExp userId None (Some persona) None in
        match roll with
        | Some roll =>
          {| cacheAfter := cache; lookups := looked; rolled := Some fullExp;
             sent := [ToUser (rollerOutput roll) (msg_id msg)];
             awaiting := None |}
        | None => fallback cache looked (Some fullExp)
        end
      end
    end
  end.

(** The atomic steps of the handlers on the opposed-roll cache.  A posted
    reply may come back for any roll: the steps that follow an [await] are
    not tied to the run that started them. *)
Inductive Event :=
  | GuildMessageCreate (botUserId : option jsstring) (msg : IMessage)
  | ReactionAdd (eventId channelId guildId userId : jsstring)
      (cacheMsg : option IMessageCache)
  | DirectMessageCreate (selfNick : jsstring) (msg : IMessage)
      (srcGuildId : jsstring)
  | Posted (roll : Roller) (replyMsg : option jsstring).

Definition step (cache : LRUCache StandardDiceRoll) (ev : Event) : Run :=
  match ev with
  | GuildMessageCreate botUserId msg => handleGuildMessage botUserId cache msg
  | ReactionAdd eventId channelId guildId userId cacheMsg =>
    snd (handleGuildReactions cache eventId channelId guildId userId cacheMsg)
  | DirectMessageCreate selfNick msg srcGuildId =>
    handleDirectMessage selfNick cache msg srcGuildId
  | Posted roll replyMsg => idle (afterPost cache roll replyMsg)
  end.

(** The replied-to message id an event carries. *)
Definition repliedTo (ev : Event) : option jsstring :=
  match ev with
  | GuildMessageCreate _ msg => truthy (message_reference msg)
  | _ => None
  end.

Fixpoint run (cache : LRUCache StandardDiceRoll) (evs : list Event)
  : LRUCache StandardDiceRoll :=
  match evs with
  | [] => cache
  | ev :: evs => run (cacheAfter (step cache ev)) evs
  end.

End Handlers.

(** Every record in the cache is flagged [eligibleForOpposedRoll]. *)
Definition allEligible (cache : LRUCache StandardDiceRoll) : Prop :=
  Forall (fun e => eligibleForOpposedRoll (snd e) = true) cache.

(** ** The specification's view of the parser *)

(** The code points of a string, as a regular expression with the [u] flag
    reads them: a high surrogate followed by a low one is one code point, any
    other code unit stands for itself. *)
Fixpoint codePoints (s : jsstring) : list N :=
  match s with
  | [] => []
  | c :: s' =>
    match s' with
    | d :: s'' =>
      if isHighSurrogate c && isLowSurrogate d then
        surrogatePair c d :: codePoints s''
      else c :: codePoints s'
    | [] => [c]
    end
  end.

Section ParserSpec.

Variable Unified_Ideograph : N -> bool.

(** The string begins with a CJK ideograph or a white-space character. *)
Definition beginsWithSplit (s : jsstring) : bool :=
  match codePoints s with
  | cp :: _ => isSplitChar Unified_Ideograph cp
  | [] => false
  end.

(** No CJK ideograph and no white space anywhere in the string. *)
Definition noSplitChar (s : jsstring) : Prop :=
  Forall (fun cp => isSplitChar Unified_Ideograph cp = false) (codePoints s).

(** [fullExp] splits into [tok] and [rest] at its first CJK ideograph or
    white-space character; without one, [rest] is empty. *)
Definition splitsAt (fullExp tok rest : jsstring) : Prop :=
  fullExp = tok ++ rest /\
  codePoints fullExp = codePoints tok ++ codePoints rest /\
  noSplitChar tok /\
  (rest = [] \/ beginsWithSplit rest = true).

(** The token and the descriptor [parseFullExp] destructures. *)
Definition token (fullExp : jsstring) : jsstring :=
  if search Unified_Ideograph fullExp <? 0 then fullExp
  else sliceTo fullExp (search Unified_Ideograph fullExp).

Definition remainder (fullExp : jsstring) : jsstring :=
  if search Unified_Ideograph fullExp <? 0 then []
  else sliceFrom fullExp (search Unified_Ideograph fullExp).

End ParserSpec.

Definition allDigits (ds : jsstring) : Prop := Forall (fun c => isDigit c = true) ds.

(** Rule 5 of the grammar: [r], then [b] ([0x62]) or [p] ([0x70]), then an
    optional count. *)
Definition isBonusPenaltyToken (tok : jsstring) : Prop :=
  exists t ds,
    tok = js "r" ++ [t] ++ ds /\ (t = 0x62%N \/ t = 0x70%N) /\ allDigits ds.

(** Rule 6 of the grammar: one or two [w], a count, an optional [a], an
    optional threshold. *)
Definition isPoolToken (tok : jsstring) : Prop :=
  exists w d1 a d2,
    tok = w ++ d1 ++ a ++ d2 /\ (w = js "w" \/ w = js "ww") /\
    d1 <> [] /\ allDigits d1 /\ (a = [] \/ a = js "a") /\ allDigits d2.

(** None of the shorthand rules 1 and 3 to 7 applies to the input and its
    token. *)
Definition noShorthand (fullExp tok : jsstring) : Prop :=
  fullExp <> js "sc" /\ fullExp <> js "SC" /\
  tok <> js "d" /\ tok <> js "r" /\ tok <> js "rd" /\ tok <> js "ra" /\
  ~ isBonusPenaltyToken tok /\ ~ isPoolToken tok /\
  startsWith tok (js "r") = false.

(** The value of an optional run of digits, [dflt] when it is absent. *)
Definition countOr (dflt : Z) (ds : jsstring) : Z :=
  match ds with
  | [] => dflt
  | _ => digitsValue ds
  end.

(** The bonus/penalty expression as the specification words it: [n + 1]
    percentile dice, keep the highest for [b], the lowest for [p]. *)
Definition bonusPenaltyExpression_spec (t : N) (n : Z) : jsstring :=
  decimal (n + 1) ++ js "d%k" ++ (if (t =? 0x62)%N then js "h" else js "l")
  ++ js "1".


(** A token of ASCII characters other than white space. *)
Definition asciiToken (tok : jsstring) : Prop :=
  Forall (fun c => (c < 0x80)%N /\ isWhiteSpace c = false) tok.

(** ** The specification's view of the scanner and the decider *)

(** [kw] occurs in [text] at index [i]. *)
Definition occursAt (kw text : jsstring) (i : nat) : Prop :=
  exists pre post, text = pre ++ kw ++ post /\ length pre = i.

Definition contains (kw text : jsstring) : Prop := exists i, occursAt kw text i.

(** [m] is one of [alts] and no occurrence of any of them starts before
    the one of [m]. *)
Definition firstOccurrence (alts : list jsstring) (text m : jsstring) : Prop :=
  In m alts /\
  exists i, occursAt m text i /\
    forall m' j, In m' alts -> occursAt m' text j -> (i <= j)%nat.

(** No alternative is empty, and none is a proper prefix of another. *)
Definition prefixFree (alts : list jsstring) : bool :=
  forallb (fun a =>
    negb (bool_decide (a = [])) &&
    forallb (fun b => implb (startsWith b a) (bool_decide (a = b))) alts) alts.

(** The names the older decider treats apart from the skill table. *)
Definition isSpecialCheck (skill : jsstring) : bool :=
  bool_decide (skill = js "理智") || bool_decide (skill = js "sc")
  || bool_decide (skill = js "SC") || bool_decide (skill = js "幸运")
  || bool_decide (skill = js "灵感").

(** The rule of the specification for an ordinary check: the critical bands
    first, then the comparison with the rating. *)
Definition levelRule (baseValue value roll : Z) (l : SuccessLevel) : Prop :=
  match l with
  | BEST => roll = 1
  | WORST =>
    roll <> 1 /\ (baseValue < 50 /\ roll > 95 \/ baseValue >= 50 /\ roll = 100)
  | REGULAR_SUCCESS =>
    roll <> 1 /\ ~ (baseValue < 50 /\ roll > 95 \/ baseValue >= 50 /\ roll = 100)
    /\ roll <= value
  | FAIL =>
    roll <> 1 /\ ~ (baseValue < 50 /\ roll > 95 \/ baseValue >= 50 /\ roll = 100)
    /\ roll > value
  end.

(** A card for the worked examples: 侦察 60, 图书馆 40, 智力 70. *)
Definition exampleCard : ICard :=
  {| basic_name := js "调查员";
     basic_san := 99;
     basic_luck := 50;
     props := {[ js "智力" := 70 ]};
     skills := {[ js "侦察" := 60; js "图书馆" := 40 ]} |}.

(** A guild message with the given text and replied-to message id. *)
Definition exampleMessage (text : string) (reply : option jsstring) : IMessage :=
  {| msg_id := js "m1";
     content := Some (js text);
     author_id := js "u1";
     author_username := Some (js "user");
     member_nick := None;
     channel_id := js "c1";
     guild_id := js "g1";
     message_reference := reply |}.

(** Collaborators for a worked run: no card, a channel and a user that
    exist, and a [createDiceRoll] that accepts the one expression [d% 侦察]. *)
Definition exampleRoll : StandardDiceRoll :=
  {| hidden := false;
     eligibleForOpposedRoll := true;
     description := js "侦察";
     output := js "user 🎲 侦察 d%: 42 ≤ 60 成功" |}.

Definition exampleCreateDiceRoll (fullExp : jsstring) (ctx : DiceRollContext unit)
  : option Roller :=
  if bool_decide (fullExp = js "d% 侦察") then Some (Standard exampleRoll)
  else None.

Definition exampleStep : LRUCache StandardDiceRoll -> Event -> Run :=
  step unit (fun _ _ => None) exampleCreateDiceRoll (fun _ => Some false)
    (fun _ _ => true) (fun _ _ => Some (js "user")).

Definition exampleRun
  : LRUCache StandardDiceRoll -> list Event -> LRUCache StandardDiceRoll :=
  run unit (fun _ _ => None) exampleCreateDiceRoll (fun _ => Some false)
    (fun _ _ => true) (fun _ _ => Some (js "user")).

Definition exampleGuildMessage (text : string) (reply : option jsstring) : Event :=
  GuildMessageCreate (Some (js "bot")) (exampleMessage text reply).

(** ** The success test of the older generation, and difficulty qualifiers *)

(** [s.endsWith(p)] *)
Definition endsWith (s p : jsstring) : bool := startsWith (rev s) (rev p).

(** [result?.resultDesc?.endsWith('成功')], the test [tryRollDice] of the
    older generation makes on what [decideResult] returned. *)
Definition endsWithSuccess (result : option DecideResult_v1) : bool :=
  match result with
  | Some r => endsWith (resultDesc r) (js "成功")
  | None => false
  end.

(** The three difficulty qualifiers the older decider looks for in a skill
    name, the text of each, and the number the rating is divided by. *)
Inductive qualifier := Hard | Extreme | Limit.

Definition qualifierText (q : option qualifier) : jsstring :=
  match q with
  | None => []
  | Some Hard => js "困难"
  | Some Extreme => js "极难"
  | Some Limit => js "极限"
  end.

Definition difficultyDivisor (q : option qualifier) : Z :=
  match q with
  | None => 1
  | Some Hard => 2
  | Some _ => 5
  end.

(** A plain name for the older decider: not empty, without white space and
    without a qualifier inside. *)
Definition plainKeyword (kw : jsstring) : bool :=
  negb (bool_decide (kw = []))
  && forallb (fun c => negb (isWhiteSpace c)) kw
  && forallb (fun q => negb (includes kw q)) difficultyRegex.

(** ** The roll and the other handlers of the older generation *)

(** [a || b] on strings that may be missing: the empty string is falsy. *)
Definition orOption (a b : option jsstring) : option jsstring :=
  match a with
  | Some (c :: s) => Some (c :: s)
  | _ => b
  end.

(** What a handler of the older generation sends: a message posted to a
    channel, a direct message, the [card/test] message [wss.sendToChannel]
    passes to the clients of a channel, with the card name and the skill of
    a successful check, and the record of a posted message that
    [logs.pushToClients] passes to the clients of a channel (its [msgType]
    is always [text]). *)
Inductive Sent_v1 :=
  | PostMessage (channelId content msg_id : jsstring)
  | PostDirectMessage (guildId content msg_id : jsstring)
  | SendToChannel (channelId cardName propOrSkill : jsstring)
  | PushToClients (channelId msgId userId username content timestamp : jsstring).

Section Handlers_v1.

Variable Unified_Ideograph : N -> bool.
Variable inexact : jsstring -> Z -> jsstring.

(** The collaborators outside the file: the card store, the member directory
    ([Some (nick, username)] for a member that is found) and the dice
    library: [DiceRoll exp] is [None] when [new DiceRoll(exp)] throws, and the
    [total] and the [output] of the roll otherwise.  The other collaborators
    are taken not to throw.  [postMessage channelId content msg_id] is the
    outcome of the post: [res.data.id] and [res.data.timestamp] of the
    response, or [None] when the request is rejected. *)
Variable getCard_v1 : jsstring -> jsstring -> option ICard.
Variable findGuildUser :
  jsstring -> jsstring -> option (option jsstring * option jsstring).
Variable postMessage :
  jsstring -> jsstring -> jsstring -> option (jsstring * jsstring).
Variable DiceRoll : jsstring -> option (Z * jsstring).

(** The nickname [tryRollDice] settles on before it rolls: the one passed,
    or, without one and with a guild, [user.nick || user.username] of the
    member. *)
Definition resolveNickname (userId : jsstring) (nickname guildId : option jsstring)
  : option jsstring :=
  match truthy nickname, truthy guildId with
  | None, Some guildId =>
    match findGuildUser guildId userId with
    | Some (nick, username) => orOption nick username
    | None => nickname
    end
  | _, _ => nickname
  end.

(** [tryRollDice] of the older generation: the reply or [null], and the
    messages sent to the clients. *)
Definition tryRollDice_v1 (fullExp userId : jsstring)
  (nickname channelId guildId : option jsstring)
  : option jsstring * list Sent_v1 :=
  let nickname := resolveNickname userId nickname guildId in
  let '(exp, desc) := parseFullExp Unified_Ideograph inexact fullExp in
  match DiceRoll exp with
  | None => (None, [])
  | Some (total, output) =>
    let result :=
      match truthy channelId with
      | Some channelId => decideResult_v1 (getCard_v1 channelId userId) desc total
      | None => None
      end in
    let notified :=
      match result, channelId with
      | Some r, Some channelId =>
        if endsWithSuccess result then
          [SendToChannel channelId (cardName r) (skill r)]
        else []
      | _, _ => []
      end in
    (Some (orDefault nickname userId ++ js " 🎲 " ++ desc ++ js " " ++ output
           ++ js " " ++ match result with
                        | Some r => resultDesc r
                        | None => []
                        end),
     notified)
  end.

(** [sendDiceMessage]: the post, and once it resolves the record of it for
    the clients of the channel, under [botInfo?.id || ''] and
    [botInfo?.username || '']; a rejected post is only written to the
    console.  [botInfo] is taken not to change while the post is under way. *)
Definition sendDiceMessage (botUserId botUsername : option jsstring)
  (channelId content msg_id : jsstring) : list Sent_v1 :=
  PostMessage channelId content msg_id ::
  match postMessage channelId content msg_id with
  | Some (id, timestamp) =>
    [PushToClients channelId id (orDefault botUserId [])
       (orDefault botUsername []) content timestamp]
  | None => []
  end.

(** [handleGuildMessage] of the older generation, with what its call of
    [tryRollDice] and [sendDiceMessage] send; [botUserId] and [botUsername]
    are [this.api.botInfo?.id] and [this.api.botInfo?.username]. *)
Definition handleGuildMessage_v1_sends (botUserId botUsername : option jsstring)
  (msg : IMessage) : list Sent_v1 :=
  match handleGuildMessage_v1 botUserId msg with
  | None => []
  | Some fullExp =>
    let '(reply, notified) :=
      tryRollDice_v1 fullExp (author_id msg)
        (orOption (member_nick msg) (author_username msg))
        (Some (channel_id msg)) None in
    notified ++
    match truthy reply with
    | Some reply =>
      sendDiceMessage botUserId botUsername (channel_id msg) reply (msg_id msg)
    | None => []
    end
  end.

(** [handleDirectMessage] of the older generation; [selfNick] is
    [this.api.botInfo?.username || '']. *)
Definition handleDirectMessage_v1 (selfNick : jsstring) (msg : IMessage)
  : list Sent_v1 :=
  let fallback :=
    [PostDirectMessage (guild_id msg) (selfNick ++ js "在的说") (msg_id msg)] in
  match content msg with
  | None => fallback
  | Some c =>
    let content := trim c in
    match content with
    | [] => fallback
    | _ =>
      let fullExp :=
        if startsWithMarker content then trim (sliceFrom content 1) else [] in
      match fullExp with
      | [] => fallback
      | _ =>
        let fullExp := unescapeHTML fullExp in
        let '(reply, notified) :=
          tryRollDice_v1 fullExp (author_id msg) (author_username msg)
            None None in
        notified ++
        match truthy reply with
        | Some reply => [PostDirectMessage (guild_id msg) reply (msg_id msg)]
        | None => []
        end
      end
    end
  end.

(** [handleGuildReactions] of the older generation, from the result
    [cacheMsg] of [msgCache.fetch] on; the entry is returned with the
    instruction the handler stored in it. *)
Definition handleGuildReactions_v1 (botUserId botUsername : option jsstring)
  (eventId channelId guildId userId : jsstring)
  (cacheMsg : option IMessageCache) : option IMessageCache * list Sent_v1 :=
  match cacheMsg with
  | None => (None, [])
  | Some entry =>
    match instruction entry with
    | NoInstruction => (Some entry, [])
    | _ =>
      let entry :=
        match instruction entry with
        | Unparsed =>
          {| text := text entry;
             instruction :=
               match detectInstruction (orDefault (text entry) []) with
               | Some i => Parsed i
               | None => NoInstruction
               end |}
        | _ => entry
        end in
      match instruction entry with
      | Parsed (c :: i) =>
        let '(reply, notified) :=
          tryRollDice_v1 (js "d% " ++ c :: i) userId None (Some channelId)
            (Some guildId) in
        (Some entry,
         notified ++
         match truthy reply with
         | Some reply =>
           sendDiceMessage botUserId botUsername channelId reply eventId
         | None => []
         end)
      | _ => (Some entry, [])
      end
    end
  end.

End Handlers_v1.

(** ** The message cache *)

(** [s.split(sep)] for a separator of one code unit. *)
Fixpoint split (sep : N) (s : jsstring) : list jsstring :=
  match s with
  | [] => [[]]
  | c :: s' =>
    if (c =? sep)%N then [] :: split sep s'
    else
      match split sep s' with
      | p :: ps => (c :: p) :: ps
      | [] => [[c]]
      end
  end.

(** The key [handleGuildReactions] fetches: [`${channelId}-${msgId}`]. *)
Definition cacheKey (channelId msgId : jsstring) : jsstring :=
  channelId ++ js "-" ++ msgId.

(** [fetchMethod] of [msgCache].  [message channelId msgId] is the [content]
    of the message the API returns ([None] in it: no content), or [None] for
    a request that fails; the second element of the split key is [undefined]
    when the key holds no [-]. *)
Definition fetchMethod
  (message : jsstring -> option jsstring -> option (option jsstring))
  (key : jsstring) : option IMessageCache :=
  let parts := split 0x2D key in
  let channelId := nth 0 parts [] in
  let msgId := nth_error parts 1 in
  match message channelId msgId with
  | None => None
  | Some content =>
    let text := option_map trim content in
    Some {| text := text;
            instruction :=
              match truthy text with
              | Some _ => Unparsed
              | None => NoInstruction
              end |}
  end.

(** The opposed-roll cache within its bound, no key held twice. *)
Definition wellFormed {V} (c : LRUCache V) : Prop :=
  (length c <= opposedRollCacheMax)%nat /\ NoDup (List.map fst c).

(** ** The skill aliases ([src/interface/coc.ts]) *)

Definition skillAlias : list (list jsstring) :=
  List.map (List.map js)
    [ ["力量"; "str"; "STR"];
      ["敏捷"; "dex"; "DEX"];
      ["意志"; "pow"; "POW"];
      ["体质"; "con"; "CON"];
      ["外貌"; "app"; "APP"];
      ["教育"; "edu"; "EDU"];
      ["体型"; "siz"; "SIZ"; "size"; "SIZE"; "体格"];
      ["智力"; "灵感"; "int"; "INT"];
      ["生命"; "hp"; "HP"];
      ["理智"; "san"; "sc"; "SC"; "SAN"];
      ["魔法"; "mp"; "MP"];
      ["幸运"; "luck"; "luk"; "LUK"];
      ["年龄"; "age"; "AGE"];
      ["侦查"; "侦察"];
      ["信用"; "信誉"; "信用评级"];
      ["克苏鲁"; "克苏鲁神话"];
      ["计算机"; "计算机使用"; "电脑"];
      ["图书馆"; "图书馆使用"] ]%string.

(** [Object.assign(target, source)] on the own properties of two objects:
    the properties of [source] are written over those of [target]. *)
Definition objectAssign {V} (target source : gmap jsstring V) : gmap jsstring V :=
  source ∪ target.

(** The object a line of the table becomes:
    [line.reduce((obj, str) => Object.assign(obj, { [str]: line }), {})]. *)
Definition lineObject (line : list jsstring) : gmap jsstring (list jsstring) :=
  fold_left (fun obj str => objectAssign obj {[ str := line ]}) line ∅.

(** [skillAliasMap], as the map of its own properties: the objects of the
    lines, merged from the first line to the last. *)
Definition skillAliasMap : gmap jsstring (list jsstring) :=
  fold_left objectAssign (List.map lineObject skillAlias) ∅.

(** No name is listed in two lines of a table. *)
Definition linesDisjoint (t : list (list jsstring)) : bool :=
  forallb (fun l =>
    forallb (fun l' =>
      forallb (fun a =>
        implb (existsb (fun b => bool_decide (a = b)) l') (bool_decide (l = l')))
        l) t) t.

(** ** Collaborators for worked runs of the older generation *)

(** A dice library that accepts the percentile die only, and rolls 42. *)
Definition exampleDiceRoll (exp : jsstring) : option (Z * jsstring) :=
  if bool_decide (exp = js "d%") then Some (42, js "d%: [42] = 42") else None.


(** A roll made behind the screen. *)
Definition exampleHiddenRoll : StandardDiceRoll :=
  {| hidden := true;
     eligibleForOpposedRoll := false;
     description := js "侦察";
     output := js "user 🎲 侦察 d%: 42 ≤ 60 成功" |}.

(* ==== proofs ==== *)
(** ** Reading literals and classes *)

Ltac js_eval :=
  repeat match goal with
  | |- context [js ?s] =>
    let v := eval vm_compute in (js s) in change (js s) with v
  | H : context [js ?s] |- _ =>
    let v := eval vm_compute in (js s) in change (js s) with v in H
  end.

Lemma digit_not_space c : isDigit c = true -> isWhiteSpace c = false.
Proof. unfold isDigit, isWhiteSpace. intros H. lia. Qed.

Lemma digit_ascii c : isDigit c = true -> (c < 0x80)%N.
Proof. unfold isDigit. lia. Qed.

Lemma span_all p ds rest :
  Forall (fun c => p c = true) ds ->
  match rest with [] => True | c :: _ => p c = false end ->
  span p (ds ++ rest) = (ds, rest).
Proof.
  induction 1 as [|c ds Hc _ IH]; intros Hrest; simpl.
  - destruct rest as [|c rest]; [reflexivity|]. simpl. now rewrite Hrest.
  - rewrite Hc, (IH Hrest). reflexivity.
Qed.

Lemma span_all_nil p ds :
  Forall (fun c => p c = true) ds -> span p ds = (ds, []).
Proof. intros H. rewrite <- (app_nil_r ds) at 1. now apply span_all. Qed.

Lemma span_none p c s : p c = false -> span p (c :: s) = ([], c :: s).
Proof. intros H. simpl. now rewrite H. Qed.

Lemma span_app_eq p s : fst (span p s) ++ snd (span p s) = s.
Proof.
  induction s as [|c s IH]; simpl; [reflexivity|].
  destruct (p c); [|reflexivity].
  destruct (span p s) as [a b]. simpl in *. now rewrite IH.
Qed.

Lemma span_fst_Forall p s : Forall (fun c => p c = true) (fst (span p s)).
Proof.
  induction s as [|c s IH]; simpl; [constructor|].
  destruct (p c) eqn:E; [|constructor].
  destruct (span p s) as [a b]. simpl in *. now constructor.
Qed.

Lemma span_snd_head p s :
  match snd (span p s) with [] => True | c :: _ => p c = false end.
Proof.
  induction s as [|c s IH]; simpl; [exact I|].
  destruct (p c) eqn:E; [|exact E].
  destruct (span p s) as [a b]. exact IH.
Qed.


(** ** Code points and the split point *)

Lemma list_ind2 {A} (P : list A -> Prop) :
  P [] -> (forall c, P [c]) ->
  (forall c d s, P s -> P (d :: s) -> P (c :: d :: s)) ->
  forall s, P s.
Proof.
  intros Hnil Hone Hstep s.
  assert (H : P s /\ forall c, P (c :: s)); [|exact (proj1 H)].
  induction s as [|d s [IH1 IH2]]; split; auto.
Qed.

Lemma surrogate_not_space c :
  isHighSurrogate c || isLowSurrogate c = true -> isWhiteSpace c = false.
Proof. unfold isHighSurrogate, isLowSurrogate, isWhiteSpace. lia. Qed.

Lemma pair_not_high c d :
  isHighSurrogate c = true -> surrogatePair c d <> c.
Proof. unfold isHighSurrogate, surrogatePair. lia. Qed.

Ltac unfold_split_in H := unfold beginsWithSplit, isSplitChar in H.
Ltac unfold_split := unfold beginsWithSplit, isSplitChar.

Section SplitFacts.

Variable Unified_Ideograph : N -> bool.

Local Abbreviation isSplitChar := (isSplitChar Unified_Ideograph).
Local Abbreviation searchFrom := (searchFrom Unified_Ideograph).
Local Abbreviation search := (search Unified_Ideograph).
Local Abbreviation noSplitChar := (noSplitChar Unified_Ideograph).
Local Abbreviation beginsWithSplit := (beginsWithSplit Unified_Ideograph).
Local Abbreviation splitsAt := (splitsAt Unified_Ideograph).
Local Abbreviation token := (token Unified_Ideograph).
Local Abbreviation remainder := (remainder Unified_Ideograph).

Lemma codePoints_cons2 c d s :
  codePoints (c :: d :: s) =
  if isHighSurrogate c && isLowSurrogate d
  then surrogatePair c d :: codePoints s
  else c :: codePoints (d :: s).
Proof. reflexivity. Qed.

Lemma searchFrom_cons2 c d s pos :
  searchFrom (c :: d :: s) pos =
  if isHighSurrogate c && isLowSurrogate d
  then if isSplitChar (surrogatePair c d) then pos else searchFrom s (pos + 2)
  else if isSplitChar c then pos else searchFrom (d :: s) (pos + 1).
Proof. reflexivity. Qed.

Lemma searchFrom_begins s pos :
  beginsWithSplit s = true -> searchFrom s pos = pos.
Proof.
  unfold beginsWithSplit. destruct s as [|c [|d s]]; cbn [codePoints searchFrom].
  - discriminate.
  - now intros ->.
  - destruct (isHighSurrogate c && isLowSurrogate d); now intros ->.
Qed.

(** The scan finds the split point of any decomposition [splitsAt]. *)
Lemma searchFrom_split tok : forall rest pos,
  codePoints (tok ++ rest) = codePoints tok ++ codePoints rest ->
  noSplitChar tok ->
  rest = [] \/ beginsWithSplit rest = true ->
  searchFrom (tok ++ rest) pos =
  match rest with [] => -1 | _ => pos + Z.of_nat (length tok) end.
Proof.
  induction tok as [|c|c d tok IH0 IH1] using list_ind2; intros rest pos Hcp Hno Hrest.
  - cbn [app length]. destruct Hrest as [->|Hb]; [reflexivity|].
    rewrite (searchFrom_begins _ _ Hb). destruct rest; [discriminate|]. cbn. lia.
  - unfold noSplitChar in Hno. cbn [codePoints] in Hno.
    apply Forall_cons in Hno as [Hc _].
    destruct rest as [|d rest].
    + cbn. now rewrite Hc.
    + cbn [app] in *. rewrite codePoints_cons2 in Hcp. rewrite searchFrom_cons2.
      destruct (isHighSurrogate c && isLowSurrogate d) eqn:E.
      * exfalso. cbn in Hcp. injection Hcp as Hp _.
        apply (pair_not_high c d); [lia|exact Hp].
      * rewrite Hc. destruct Hrest as [?|Hb]; [discriminate|].
        rewrite (searchFrom_begins _ _ Hb). cbn. lia.
  - unfold noSplitChar in Hno. cbn [app] in *.
    rewrite !codePoints_cons2 in Hcp. rewrite codePoints_cons2 in Hno.
    rewrite searchFrom_cons2.
    destruct (isHighSurrogate c && isLowSurrogate d).
    + apply Forall_cons in Hno as [Hc Hno]. rewrite Hc.
      injection Hcp as Hcp. rewrite (IH0 rest (pos + 2) Hcp Hno Hrest).
      destruct rest; [reflexivity|]. cbn [length]. lia.
    + apply Forall_cons in Hno as [Hc Hno]. rewrite Hc.
      injection Hcp as Hcp.
      rewrite (IH1 rest (pos + 1) Hcp Hno Hrest).
      destruct rest; [reflexivity|]. cbn [length]. lia.
Qed.

(** Every string has a split. *)
Lemma splitsAt_total s : exists tok rest, splitsAt s tok rest.
Proof.
  induction s as [|c|c d s IH0 IH1] using list_ind2.
  - exists [], []. repeat split; [constructor|now left].
  - destruct (isSplitChar c) eqn:Hc.
    + exists [], [c]. repeat split; [constructor|right].
      unfold beginsWithSplit. cbn. exact Hc.
    + exists [c], []. repeat split; [|now left].
      unfold noSplitChar. cbn. now repeat constructor.
  - destruct (isHighSurrogate c && isLowSurrogate d) eqn:E.
    + destruct (isSplitChar (surrogatePair c d)) eqn:Hp.
      * exists [], (c :: d :: s). repeat split; [constructor|right].
        unfold beginsWithSplit. cbn [codePoints]. now rewrite E.
      * destruct IH0 as (tok & rest & -> & Hcp & Hno & Hrest).
        exists (c :: d :: tok), rest. repeat split; [| |exact Hrest].
        -- cbn [app]. rewrite !codePoints_cons2.
           rewrite E, Hcp. reflexivity.
        -- unfold noSplitChar.
           rewrite codePoints_cons2.
           rewrite E. now constructor.
    + destruct (isSplitChar c) eqn:Hc.
      * exists [], (c :: d :: s). repeat split; [constructor|right].
        unfold beginsWithSplit. cbn [codePoints]. now rewrite E.
      * destruct IH1 as (tok & rest & Heq & Hcp & Hno & Hrest).
        exists (c :: tok), rest.
        assert (Hc1 : codePoints (c :: tok) = c :: codePoints tok).
        { destruct tok as [|d' tok]; [reflexivity|].
          injection Heq as <- _. cbn [codePoints]. now rewrite E. }
        repeat split; [| | |exact Hrest].
        -- cbn [app]. now rewrite Heq.
        -- rewrite Hc1. cbn [app]. rewrite <- Hcp.
           rewrite codePoints_cons2. now rewrite E.
        -- unfold noSplitChar. rewrite Hc1. now constructor.
Qed.

(** The destructuring [parseFullExp] does is the split. *)
Lemma split_search s tok rest :
  splitsAt s tok rest ->
  (if search s <? 0 then (s, [])
   else (sliceTo s (search s), sliceFrom s (search s))) = (tok, rest).
Proof.
  intros (-> & Hcp & Hno & Hrest). unfold search.
  rewrite (searchFrom_split tok rest 0 Hcp Hno Hrest).
  destruct rest as [|r rest].
  - now rewrite app_nil_r.
  - replace (0 + Z.of_nat (length tok) <? 0) with false by lia.
    unfold sliceTo, sliceFrom. rewrite Z.add_0_l, Nat2Z.id.
    rewrite take_app_length, drop_app_length. reflexivity.
Qed.

Lemma splitsAt_token s tok rest :
  splitsAt s tok rest -> tok = token s /\ rest = remainder s.
Proof.
  intros H. pose proof (split_search s tok rest H) as E.
  unfold token, remainder. destruct (search s <? 0); now inversion E.
Qed.

Lemma splitsAt_unique s tok rest tok' rest' :
  splitsAt s tok rest -> splitsAt s tok' rest' -> tok = tok' /\ rest = rest'.
Proof.
  intros H H'. apply splitsAt_token in H as [-> ->].
  now apply splitsAt_token in H' as [-> ->].
Qed.

Lemma noSplitChar_splitsAt s : noSplitChar s -> splitsAt s s [].
Proof.
  intros H. repeat split; [now rewrite app_nil_r| |exact H|now left].
  cbn. now rewrite !app_nil_r.
Qed.

(** A token holds no white-space code unit. *)
Lemma noSplitChar_no_space tok :
  noSplitChar tok -> Forall (fun c => isWhiteSpace c = false) tok.
Proof.
  unfold noSplitChar.
  induction tok as [|c|c d tok IH0 IH1] using list_ind2; intros H.
  - constructor.
  - cbn in H. apply Forall_cons in H as [Hc _]. unfold_split_in Hc.
    repeat constructor. lia.
  - rewrite codePoints_cons2 in H.
    destruct (isHighSurrogate c && isLowSurrogate d) eqn:E;
      apply Forall_cons in H as [Hc H].
    + constructor; [apply surrogate_not_space; lia|].
      constructor; [apply surrogate_not_space; lia|]. auto.
    + constructor; [|auto]. unfold_split_in Hc. lia.
Qed.

End SplitFacts.

(** ** The two shorthand patterns *)

Lemma allDigits_no_space ds :
  allDigits ds -> Forall (fun c => isWhiteSpace c = false) ds.
Proof. apply List.Forall_impl. intros c. apply digit_not_space. Qed.

Lemma span_space_id s :
  Forall (fun c => isWhiteSpace c = false) s -> span isWhiteSpace s = ([], s).
Proof. intros [|c s' Hc _]; [reflexivity|now apply span_none]. Qed.

Lemma match_rbrp_digits t ds :
  (t = 0x62 \/ t = 0x70)%N -> allDigits ds ->
  match_rbrp (js "r" ++ [t] ++ ds) =
  Some ([t], match ds with [] => None | _ => Some ds end).
Proof.
  intros Ht Hds. js_eval. cbn [app match_rbrp].
  replace ((0x72 =? 0x72) && ((t =? 0x62) || (t =? 0x70)))%N with true by lia.
  rewrite (span_space_id ds (allDigits_no_space ds Hds)). cbn [snd].
  now rewrite (span_all_nil isDigit ds Hds).
Qed.

Lemma match_rbrp_r exp g :
  match_rbrp exp = Some g -> startsWith exp (js "r") = true.
Proof.
  js_eval. destruct exp as [|r [|t rest]]; try discriminate. cbn [match_rbrp].
  destruct (((r =? 0x72) && ((t =? 0x62) || (t =? 0x70)))%N) eqn:E;
    [|discriminate].
  intros _. cbn [startsWith]. lia.
Qed.

Lemma skipOne_other c s :
  match s with [] => True | d :: _ => d <> c end -> skipOne c s = s.
Proof.
  destruct s as [|d s]; [reflexivity|]. intros H. cbn.
  destruct (N.eqb_spec d c); [contradiction|reflexivity].
Qed.


Lemma match_ww_sound tok g :
  Forall (fun c => isWhiteSpace c = false) tok ->
  match_ww tok = Some g -> isPoolToken tok.
Proof.
  intros Hs. destruct tok as [|w rest]; [discriminate|].
  apply Forall_cons in Hs as [_ Hs]. unfold match_ww.
  destruct (N.eqb_spec w 0x77) as [->|]; [|discriminate].
  set (two := match rest with c :: _ => (c =? 0x77)%N | [] => false end).
  assert (Hr : rest = (if two then [0x77%N] else []) ++ skipOne 0x77 rest).
  { subst two. destruct rest as [|c rest]; [reflexivity|]. cbn.
    destruct (N.eqb_spec c 0x77) as [->|]; reflexivity. }
  assert (Hs1 : Forall (fun c => isWhiteSpace c = false) (skipOne 0x77 rest)).
  { rewrite Hr in Hs. now apply Forall_app in Hs as [_ Hs]. }
  rewrite (span_space_id _ Hs1). cbn [snd].
  pose proof (span_app_eq isDigit (skipOne 0x77 rest)) as Hd1.
  pose proof (span_fst_Forall isDigit (skipOne 0x77 rest)) as Hf1.
  destruct (span isDigit (skipOne 0x77 rest)) as [d1 rest2]. cbn [fst snd] in *.
  destruct d1 as [|c1 d1]; [discriminate|].
  assert (Hs2 : Forall (fun c => isWhiteSpace c = false) rest2).
  { rewrite <- Hd1 in Hs1. now apply Forall_app in Hs1 as [_ Hs1]. }
  rewrite (span_space_id _ Hs2). cbn [snd].
  set (hasA := match rest2 with c :: _ => (c =? 0x61)%N | [] => false end).
  assert (Ha : rest2 = (if hasA then [0x61%N] else []) ++ skipOne 0x61 rest2).
  { subst hasA. destruct rest2 as [|c r]; [reflexivity|]. cbn.
    destruct (N.eqb_spec c 0x61) as [->|]; reflexivity. }
  assert (Hs3 : Forall (fun c => isWhiteSpace c = false) (skipOne 0x61 rest2)).
  { rewrite Ha in Hs2. now apply Forall_app in Hs2 as [_ Hs2]. }
  rewrite (span_space_id _ Hs3). cbn [snd].
  pose proof (span_app_eq isDigit (skipOne 0x61 rest2)) as Hd2.
  pose proof (span_fst_Forall isDigit (skipOne 0x61 rest2)) as Hf2.
  destruct (span isDigit (skipOne 0x61 rest2)) as [d2 rest5]. cbn [fst snd] in *.
  destruct rest5; [|discriminate]. intros _.
  rewrite app_nil_r in Hd2.
  exists (if two then js "ww" else js "w"), (c1 :: d1),
    (if hasA then js "a" else []), d2.
  repeat split.
  - rewrite Hr, <- Hd1, Ha, <- Hd2. js_eval. now destruct two, hasA.
  - destruct two; auto.
  - discriminate.
  - exact Hf1.
  - destruct hasA; auto.
  - exact Hf2.
Qed.

(** ** [parseInt] on the captured digits *)

Lemma digitsValue_from ds : forall acc,
  allDigits ds -> 0 <= acc ->
  0 <= fold_left (fun a c => a * 10 + digitValue c) ds acc.
Proof.
  induction ds as [|c ds IH]; intros acc Hds Hacc; [exact Hacc|].
  apply Forall_cons in Hds as [Hc Hds]. cbn [fold_left]. apply IH; [exact Hds|].
  unfold isDigit in Hc. unfold digitValue. lia.
Qed.

Lemma digitsValue_nonneg ds : allDigits ds -> 0 <= digitsValue ds.
Proof. intros H. now apply digitsValue_from. Qed.

Lemma parseInt10_digits ds :
  ds <> [] -> allDigits ds -> digitsValue ds <= MAX_SAFE_INTEGER ->
  parseInt10 ds = Exact (digitsValue ds).
Proof.
  intros Hne Hds Hmax. unfold parseInt10, trimStart.
  rewrite (span_space_id ds (allDigits_no_space ds Hds)). cbn [snd].
  rewrite (span_all_nil isDigit ds Hds). cbn [fst].
  destruct ds; [contradiction|].
  now rewrite (proj2 (Z.leb_le _ _) Hmax).
Qed.

Lemma parseInt10_default (dflt : jsstring) (g : jsstring) :
  dflt <> [] -> allDigits dflt -> allDigits g ->
  countOr (digitsValue dflt) g <= MAX_SAFE_INTEGER ->
  parseInt10 (orDefault (match g with [] => None | _ => Some g end) dflt) =
  Exact (countOr (digitsValue dflt) g).
Proof.
  intros Hne Hd Hg Hmax. destruct g as [|c g]; cbn [orDefault countOr] in *.
  - now apply parseInt10_digits.
  - now apply parseInt10_digits.
Qed.

(** ** Tokens of ASCII characters *)

Lemma codePoints_ascii tok : forall rest,
  Forall (fun c => (c < 0x80)%N) tok ->
  codePoints (tok ++ rest) = tok ++ codePoints rest.
Proof.
  induction tok as [|c tok IH]; intros rest H; [reflexivity|].
  apply Forall_cons in H as [Hc H]. cbn [app]. rewrite <- (IH rest H).
  destruct (tok ++ rest) as [|d s] eqn:E; [reflexivity|].
  rewrite codePoints_cons2.
  replace (isHighSurrogate c) with false by (unfold isHighSurrogate; lia).
  reflexivity.
Qed.

Lemma allDigits_ascii ds : allDigits ds -> asciiToken ds.
Proof.
  apply List.Forall_impl. intros c Hc. split;
    [now apply digit_ascii|now apply digit_not_space].
Qed.

Section AsciiTokens.

Variable Unified_Ideograph : N -> bool.

(** No version of Unicode lists an ASCII character as an ideograph. *)
Hypothesis ideograph_not_ascii :
  forall c, (c < 0x80)%N -> Unified_Ideograph c = false.

Lemma splitsAt_ascii tok rest :
  asciiToken tok ->
  rest = [] \/ beginsWithSplit Unified_Ideograph rest = true ->
  splitsAt Unified_Ideograph (tok ++ rest) tok rest.
Proof using ideograph_not_ascii.
  intros Htok Hrest.
  assert (Ha : Forall (fun c => (c < 0x80)%N) tok)
    by (revert Htok; apply List.Forall_impl; tauto).
  split; [reflexivity|]. split; [|split; [|exact Hrest]].
  - rewrite codePoints_ascii by exact Ha.
    rewrite <- (app_nil_r tok) at 2. rewrite codePoints_ascii by exact Ha.
    cbn [codePoints]. now rewrite app_nil_r.
  - unfold noSplitChar. rewrite <- (app_nil_r tok).
    rewrite codePoints_ascii by exact Ha. cbn [codePoints]. rewrite app_nil_r.
    revert Htok. apply List.Forall_impl. intros c [Hc Hs].
    unfold isSplitChar. now rewrite (ideograph_not_ascii c Hc), Hs.
Qed.

End AsciiTokens.

(** ** The regular expressions and their deterministic reading *)

Lemma clearCaptures_nil c : clearCaptures [] c = c.
Proof.
  unfold clearCaptures. induction c as [|e c IH]; cbn in *; [reflexivity|].
  now rewrite IH.
Qed.

(** The equations of [exec]. *)
Lemma exec_char p fuel s c k :
  exec (RChar p) fuel s c k =
  match s with x :: s' => if p x then k s' c else Failed | [] => Failed end.
Proof. reflexivity. Qed.

Lemma exec_empty fuel s c k : exec REmpty fuel s c k = k s c.
Proof. reflexivity. Qed.

Lemma exec_seq a b fuel s c k :
  exec (RSeq a b) fuel s c k = exec a fuel s c (fun s' c' => exec b fuel s' c' k).
Proof. reflexivity. Qed.

Lemma exec_alt a b fuel s c k :
  exec (RAlt a b) fuel s c k =
  match exec a fuel s c k with Failed => exec b fuel s c k | result => result end.
Proof. reflexivity. Qed.

Lemma exec_opt a fuel s c k :
  exec (ROpt a) fuel s c k =
  match exec a fuel s c k with Failed => k s c | result => result end.
Proof. reflexivity. Qed.

Lemma exec_star a fuel s c k :
  exec (RStar a) (S fuel) s c k =
  match exec a fuel s (clearCaptures (groupsOf a) c)
          (fun s' c' =>
             if (length s' <? length s)%nat then exec (RStar a) fuel s' c' k
             else Failed) with
  | Failed => k s c
  | result => result
  end.
Proof. reflexivity. Qed.

Lemma exec_group i a fuel s c k :
  exec (RGroup i a) fuel s c k =
  exec a fuel s c
    (fun s' c' => k s' (setCapture i (firstn (length s - length s') s) c')).
Proof. reflexivity. Qed.

Lemma exec_end fuel s c k :
  exec REnd fuel s c k = match s with [] => k s c | _ :: _ => Failed end.
Proof. reflexivity. Qed.

Lemma exec_star_class p fuel : forall s c k,
  (length s < fuel)%nat ->
  exec (RStar (RChar p)) fuel s c k = greedy p k s c.
Proof.
  induction fuel as [|f IH]; intros s c k Hf; [lia|].
  rewrite exec_star, exec_char. cbn [groupsOf]. rewrite clearCaptures_nil.
  destruct s as [|x s]; [reflexivity|]. cbn [greedy].
  destruct (p x); [|reflexivity].
  replace (length s <? length (x :: s))%nat with true by (cbn [length]; lia).
  cbn [length] in Hf. rewrite (IH s c k) by lia. reflexivity.
Qed.

Lemma span_snd_cons p x s :
  p x = true -> snd (span p (x :: s)) = snd (span p s).
Proof. intros H. cbn. rewrite H. now destruct (span p s). Qed.

Lemma span_fst_cons p x s :
  p x = true -> fst (span p (x :: s)) = x :: fst (span p s).
Proof. intros H. cbn. rewrite H. now destruct (span p s). Qed.

(** When the failure of the continuation after the whole run means its
    failure at every earlier stop, giving back is of no use. *)
Lemma greedy_deepest p k s c :
  (k (snd (span p s)) c = Failed ->
   forall pre u, s = pre ++ u -> Forall (fun x => p x = true) pre ->
                 k u c = Failed) ->
  greedy p k s c = k (snd (span p s)) c.
Proof.
  induction s as [|x s IH]; intros H; [reflexivity|]. cbn [greedy].
  destruct (p x) eqn:Hx; [|now rewrite span_none].
  rewrite (span_snd_cons p x s Hx) in *. rewrite IH.
  - destruct (k (snd (span p s)) c) eqn:E; try reflexivity.
    exact (H eq_refl [] (x :: s) eq_refl (List.Forall_nil _)).
  - intros E pre u -> Hpre. apply (H E (x :: pre) u eq_refl). now constructor.
Qed.

Lemma greedy_span_fail p k s c :
  (forall x s' c', p x = true -> k (x :: s') c' = Failed) ->
  greedy p k s c = k (snd (span p s)) c.
Proof.
  intros H. induction s as [|x s IH]; [reflexivity|]. cbn [greedy].
  destruct (p x) eqn:Hx; [|now rewrite span_none].
  rewrite (span_snd_cons p x s Hx), IH.
  destruct (k (snd (span p s)) c) eqn:E; try reflexivity. now apply H.
Qed.

Lemma span_snd_app p pre u :
  Forall (fun x => p x = true) pre -> snd (span p (pre ++ u)) = snd (span p u).
Proof.
  induction 1 as [|x pre Hx _ IH]; [reflexivity|].
  cbn [app]. now rewrite (span_snd_cons p x _ Hx).
Qed.

Lemma span_snd_idem p s : snd (span p (snd (span p s))) = snd (span p s).
Proof.
  pose proof (span_snd_head p s) as H. destruct (snd (span p s)) as [|x b];
    [reflexivity|]. now rewrite span_none.
Qed.

Lemma app_length_le {A} (pre u : list A) : (length u <= length (pre ++ u))%nat.
Proof. rewrite length_app. lia. Qed.

Lemma span_snd_length p s : (length (snd (span p s)) <= length s)%nat.
Proof.
  rewrite <- (span_app_eq p s) at 2. apply app_length_le.
Qed.

Lemma firstn_span p s :
  firstn (length s - length (snd (span p s))) s = fst (span p s).
Proof.
  pose proof (span_app_eq p s) as E. destruct (span p s) as [a b].
  cbn [fst snd] in *. subst s. rewrite length_app.
  replace (length a + length b - length b)%nat with (length a) by lia.
  apply take_app_length.
Qed.

Lemma skipOne_length c s : (length (skipOne c s) <= length s)%nat.
Proof. destruct s as [|d s]; cbn; [lia|]. destruct (d =? c)%N; cbn; lia. Qed.

(** [(\d+)*$]: the rest is one run of the class up to the end, and the
    group, cleared on entry, holds the run. *)
Lemma exec_star_group_end i p k fuel :
  (forall c, k [] c = Matched c) ->
  (forall x s c, k (x :: s) c = Failed) ->
  forall u c, (length u < fuel)%nat ->
  exec (RStar (RGroup i (RPlus (RChar p)))) fuel u c k =
  match snd (span p u) with
  | [] => Matched (match u with
                   | [] => c
                   | _ => setCapture i u (clearCaptures [i] c)
                   end)
  | _ :: _ => Failed
  end.
Proof.
  intros Hnil Hcons. induction fuel as [|f IH]; intros u c Hlen; [lia|].
  rewrite exec_star. change (groupsOf (RGroup i (RPlus (RChar p)))) with [i].
  rewrite exec_group. unfold RPlus at 1. rewrite exec_seq, exec_char.
  destruct u as [|y r]; [now rewrite Hnil|].
  destruct (p y) eqn:Hy; [|rewrite (span_none p y r Hy); apply Hcons].
  cbn [length] in Hlen.
  rewrite exec_star_class by lia. rewrite (span_snd_cons p y r Hy).
  pose proof (span_snd_length p r) as Hb.
  pose proof (span_snd_idem p r) as Hidem.
  assert (Hsuffix : forall u' c',
             (length u' <= length r)%nat ->
             snd (span p u') = snd (span p r) ->
             (if (length u' <? length (y :: r))%nat
              then exec (RStar (RGroup i (RPlus (RChar p)))) f u' c' k
              else Failed) =
             match snd (span p r) with
             | [] => Matched (match u' with
                              | [] => c'
                              | _ => setCapture i u' (clearCaptures [i] c')
                              end)
             | _ :: _ => Failed
             end).
  { intros u' c' Hu' Hs.
    replace (length u' <? length (y :: r))%nat with true by (cbn [length]; lia).
    rewrite IH by lia. now rewrite Hs. }
  rewrite greedy_deepest.
  - rewrite (Hsuffix _ _ Hb Hidem).
    destruct (snd (span p r)) as [|z b]; [|apply Hcons].
    now rewrite Nat.sub_0_r, firstn_all.
  - rewrite (Hsuffix _ _ Hb Hidem). intros E pre u' -> Hpre.
    rewrite Hsuffix; [|apply app_length_le|symmetry; now apply span_snd_app].
    rewrite (span_snd_app p pre u' Hpre) in E.
    rewrite (span_snd_app p pre u' Hpre).
    destruct (snd (span p u')); [discriminate|reflexivity].
Qed.

Local Abbreviation final := (fun (_ : jsstring) (c : captures) => Matched c).
Local Abbreviation digits := (RPlus (RChar isDigit)).
Local Abbreviation spaces := (RStar (RChar isWhiteSpace)).

(** The pieces of [rbrpRegex] and [wwRegex], from the end. *)
Local Abbreviation rbrpCount := (RSeq (ROpt (RGroup 2 digits)) REnd).
Local Abbreviation rbrpTail := (RSeq spaces rbrpCount).
Local Abbreviation wwTail3 := (RSeq (RStar (RGroup 2 digits)) REnd).
Local Abbreviation wwTail2 := (RSeq spaces wwTail3).
Local Abbreviation wwTail1 := (RSeq (ROpt (RChar (isChar 0x61))) wwTail2).
Local Abbreviation wwTail0 := (RSeq spaces wwTail1).
Local Abbreviation wwCount := (RSeq (RGroup 1 digits) wwTail0).
Local Abbreviation wwBody := (RSeq spaces wwCount).

(** [(\d+)$] after its first digit. *)
Lemma exec_digits_end fuel i y r c :
  (length r < fuel)%nat -> isDigit y = true ->
  exec digits fuel (y :: r) c
    (fun s' c' =>
       exec REnd fuel s'
         (setCapture i (firstn (length (y :: r) - length s') (y :: r)) c') final) =
  match snd (span isDigit r) with
  | [] => Matched (setCapture i (y :: r) c)
  | _ :: _ => Failed
  end.
Proof.
  intros Hlen Hy. unfold RPlus. rewrite exec_seq, exec_char, Hy.
  rewrite exec_star_class by exact Hlen. rewrite greedy_deepest.
  - rewrite exec_end. destruct (snd (span isDigit r)); [|reflexivity].
    now rewrite Nat.sub_0_r, firstn_all.
  - rewrite exec_end. intros E pre u' -> Hpre. rewrite exec_end.
    rewrite (span_snd_app isDigit pre u' Hpre) in E.
    destruct u' as [|x u']; [discriminate|reflexivity].
Qed.

Lemma exec_rbrpCount fuel u c :
  (length u < fuel)%nat ->
  exec rbrpCount fuel u c final =
  match span isDigit u with
  | (ds, []) => Matched (match ds with [] => c | _ => setCapture 2 ds c end)
  | (_, _ :: _) => Failed
  end.
Proof.
  intros Hlen. rewrite exec_seq. unfold ROpt. rewrite exec_alt, exec_group.
  destruct u as [|y r].
  - unfold RPlus. rewrite exec_seq, exec_char, exec_empty, exec_end. reflexivity.
  - cbn [length] in Hlen. destruct (isDigit y) eqn:Hy.
    + rewrite exec_digits_end by (lia || exact Hy).
      cbn [span]. rewrite Hy.
      pose proof (span_app_eq isDigit r) as E.
      destruct (span isDigit r) as [a b]. cbn [fst snd] in *.
      destruct b as [|z b]; [|now rewrite exec_empty, exec_end].
      rewrite app_nil_r in E. now subst a.
    + unfold RPlus. rewrite exec_seq, exec_char, Hy, exec_empty, exec_end.
      now rewrite (span_none isDigit y r Hy).
Qed.

Lemma exec_rbrpTail fuel u c :
  (length u < fuel)%nat ->
  exec rbrpTail fuel u c final =
  exec rbrpCount fuel (snd (span isWhiteSpace u)) c final.
Proof.
  intros Hlen. rewrite exec_seq, exec_star_class by exact Hlen.
  apply greedy_deepest. intros E pre u' -> Hpre.
  pose proof (app_length_le pre u') as Hle.
  rewrite (span_snd_app _ pre u' Hpre) in E.
  destruct u' as [|x u']; [exact E|].
  destruct (isWhiteSpace x) eqn:Hx; [|now rewrite span_none in E].
  rewrite exec_rbrpCount by lia. rewrite span_none; [reflexivity|].
  unfold isDigit, isWhiteSpace in *. lia.
Qed.

(** [regexMatch rbrpRegex] is [match_rbrp]. *)
Lemma rbrp_refines exp : regexMatch rbrpRegex exp = outcomeOf (match_rbrp exp).
Proof.
  unfold regexMatch, rbrpRegex. rewrite exec_seq, exec_char.
  destruct exp as [|r [|t rest]]; [reflexivity| |].
  - unfold isChar. destruct (r =? 0x72)%N; reflexivity.
  - unfold match_rbrp, isChar.
    destruct (r =? 0x72)%N; [|reflexivity]. rewrite exec_seq, exec_group, exec_char.
    destruct ((t =? 0x62) || (t =? 0x70))%N; [|reflexivity].
    cbn [andb length].
    replace (S (length rest) - length rest)%nat with 1%nat by lia.
    cbn [firstn setCapture List.filter].
    rewrite exec_rbrpTail by lia.
    pose proof (span_snd_length isWhiteSpace rest) as Hle.
    rewrite exec_rbrpCount by lia.
    destruct (span isDigit (snd (span isWhiteSpace rest))) as [ds [|z b]];
      [|reflexivity].
    now destruct ds.
Qed.

(** The tail of [wwRegex] after the count. *)
Lemma exec_wwTail3 fuel u c :
  (length u < fuel)%nat ->
  exec wwTail3 fuel u c final =
  match snd (span isDigit u) with
  | [] => Matched (match u with
                   | [] => c
                   | _ => setCapture 2 u (clearCaptures [2%nat] c)
                   end)
  | _ :: _ => Failed
  end.
Proof.
  intros Hlen. rewrite exec_seq.
  now apply (exec_star_group_end 2 isDigit
               (fun s' c' => exec REnd fuel s' c' final)).
Qed.

Lemma exec_wwTail3_fails fuel x u c :
  (length (x :: u) < fuel)%nat -> isDigit x = false ->
  exec wwTail3 fuel (x :: u) c final = Failed.
Proof.
  intros Hlen Hx. rewrite exec_wwTail3 by exact Hlen.
  now rewrite (span_none isDigit x u Hx).
Qed.

Lemma exec_wwTail2 fuel u c :
  (length u < fuel)%nat ->
  exec wwTail2 fuel u c final =
  exec wwTail3 fuel (snd (span isWhiteSpace u)) c final.
Proof.
  intros Hlen. rewrite exec_seq, exec_star_class by exact Hlen.
  apply greedy_deepest. intros E pre u' -> Hpre.
  pose proof (app_length_le pre u') as Hle.
  rewrite (span_snd_app _ pre u' Hpre) in E.
  destruct u' as [|x u']; [exact E|].
  destruct (isWhiteSpace x) eqn:Hx; [|now rewrite span_none in E].
  apply exec_wwTail3_fails; [lia|]. unfold isDigit, isWhiteSpace in *. lia.
Qed.

Lemma exec_wwTail1 fuel u c :
  (length u < fuel)%nat ->
  exec wwTail1 fuel u c final = exec wwTail2 fuel (skipOne 0x61 u) c final.
Proof.
  intros Hlen. rewrite exec_seq. unfold ROpt. rewrite exec_alt, exec_char, exec_empty.
  destruct u as [|x u]; [reflexivity|]. cbn [skipOne].
  change (isChar 0x61 x) with (x =? 0x61)%N.
  destruct (N.eqb_spec x 0x61) as [->|]; [|reflexivity].
  destruct (exec wwTail2 fuel u c final) eqn:E; try reflexivity.
  rewrite exec_wwTail2 by exact Hlen. rewrite span_none by reflexivity.
  now apply exec_wwTail3_fails.
Qed.

Lemma exec_wwTail0 fuel u c :
  (length u < fuel)%nat ->
  exec wwTail0 fuel u c final =
  exec wwTail3 fuel
    (snd (span isWhiteSpace (skipOne 0x61 (snd (span isWhiteSpace u))))) c final.
Proof.
  intros Hlen. rewrite exec_seq, exec_star_class by exact Hlen.
  pose proof (span_snd_length isWhiteSpace u) as Hb.
  assert (Hclosed : forall u', (length u' <= length u)%nat ->
            exec wwTail1 fuel u' c final =
            exec wwTail3 fuel (snd (span isWhiteSpace (skipOne 0x61 u'))) c final).
  { intros u' Hu'. rewrite exec_wwTail1 by lia.
    pose proof (skipOne_length 0x61 u'). apply exec_wwTail2. lia. }
  rewrite greedy_deepest; [now apply Hclosed|].
  rewrite (Hclosed _ Hb). intros E pre u' -> Hpre.
  pose proof (app_length_le pre u') as Hle. rewrite Hclosed by exact Hle.
  rewrite (span_snd_app _ pre u' Hpre) in E.
  destruct u' as [|x u']; [exact E|].
  destruct (isWhiteSpace x) eqn:Hx; [|now rewrite span_none in E].
  (* a white-space head: [a?] and the second [\s*] reach the same place *)
  rewrite (skipOne_other 0x61 (x :: u'))
    by (intros ->; discriminate).
  pose proof (span_snd_head isWhiteSpace (x :: u')) as Hhead.
  pose proof (span_snd_length isWhiteSpace (x :: u')) as Hlen'.
  destruct (snd (span isWhiteSpace (x :: u'))) as [|z b] eqn:Eb.
  - exact E.
  - destruct (N.eqb_spec z 0x61) as [->|Hz].
    + apply exec_wwTail3_fails; [cbn [length] in *; lia|reflexivity].
    + rewrite (skipOne_other 0x61 (z :: b)) in E by exact Hz.
      now rewrite (span_none isWhiteSpace z b Hhead) in E.
Qed.

Lemma exec_wwCount fuel u c :
  (length u < fuel)%nat ->
  exec wwCount fuel u c final =
  match fst (span isDigit u) with
  | [] => Failed
  | d1 =>
    exec wwTail0 fuel (snd (span isDigit u)) (setCapture 1 d1 c) final
  end.
Proof.
  intros Hlen. rewrite exec_seq, exec_group. unfold RPlus at 1.
  rewrite exec_seq, exec_char.
  destruct u as [|y r]; [reflexivity|]. cbn [length] in Hlen.
  destruct (isDigit y) eqn:Hy; [|now rewrite (span_none isDigit y r Hy)].
  rewrite exec_star_class by lia.
  rewrite (span_fst_cons _ y r Hy), (span_snd_cons _ y r Hy).
  pose proof (span_snd_length isDigit r) as Hb.
  rewrite greedy_deepest.
  - pose proof (firstn_span isDigit (y :: r)) as Hf.
    rewrite (span_fst_cons _ y r Hy), (span_snd_cons _ y r Hy) in Hf.
    now rewrite Hf.
  - intros E pre u' -> Hpre.
    pose proof (app_length_le pre u') as Hle.
    rewrite (span_snd_app _ pre u' Hpre) in E.
    destruct u' as [|x u']; [exact E|].
    destruct (isDigit x) eqn:Hx; [|now rewrite span_none in E].
    (* a digit given back: the rest must end the input, and then the
       whole run did match *)
    rewrite exec_wwTail0 by lia.
    rewrite (span_none isWhiteSpace x u')
      by (unfold isDigit, isWhiteSpace in *; lia).
    cbn [snd]. rewrite (skipOne_other 0x61 (x :: u'))
      by (intros ->; discriminate).
    rewrite (span_none isWhiteSpace x u')
      by (unfold isDigit, isWhiteSpace in *; lia).
    cbn [snd]. rewrite exec_wwTail3 by lia.
    pose proof (span_snd_length isDigit (x :: u')) as Hlen'.
    destruct (snd (span isDigit (x :: u'))) as [|z b]; [|reflexivity].
    exfalso. rewrite exec_wwTail0 in E by (cbn [length]; lia).
    cbn [span snd skipOne] in E.
    rewrite exec_wwTail3 in E by (cbn [length]; lia).
    discriminate.
Qed.

Lemma exec_wwBody fuel u c :
  (length u < fuel)%nat ->
  exec wwBody fuel u c final =
  exec wwCount fuel (snd (span isWhiteSpace u)) c final.
Proof.
  intros Hlen. rewrite exec_seq, exec_star_class by exact Hlen.
  apply greedy_deepest. intros E pre u' -> Hpre.
  pose proof (app_length_le pre u') as Hle.
  rewrite (span_snd_app _ pre u' Hpre) in E.
  destruct u' as [|x u']; [exact E|].
  destruct (isWhiteSpace x) eqn:Hx; [|now rewrite span_none in E].
  rewrite exec_wwCount by lia. rewrite span_none; [reflexivity|].
  unfold isDigit, isWhiteSpace in *. lia.
Qed.

Lemma exec_ww_second fuel rest c :
  (length rest < fuel)%nat ->
  exec (ROpt (RChar (isChar 0x77))) fuel rest c
    (fun s' c' => exec wwBody fuel s' c' final) =
  exec wwBody fuel (skipOne 0x77 rest) c final.
Proof.
  intros Hlen. rewrite exec_opt, exec_char.
  destruct rest as [|x rest']; [reflexivity|]. cbn [skipOne].
  change (isChar 0x77 x) with (x =? 0x77)%N.
  destruct (N.eqb_spec x 0x77) as [->|]; [|reflexivity].
  cbn [length] in Hlen.
  destruct (exec wwBody fuel rest' c final) eqn:E; try reflexivity.
  rewrite exec_wwBody by (cbn [length]; lia).
  rewrite span_none by reflexivity. cbn [snd].
  rewrite exec_wwCount by (cbn [length]; lia).
  now rewrite span_none.
Qed.

(** [regexMatch wwRegex] is [match_ww]. *)
Lemma ww_refines exp : regexMatch wwRegex exp = outcomeOf (match_ww exp).
Proof.
  unfold regexMatch, wwRegex. rewrite !exec_seq, exec_char.
  destruct exp as [|w rest]; [reflexivity|]. unfold match_ww.
  change (isChar 0x77 w) with (w =? 0x77)%N.
  destruct (w =? 0x77)%N; [|reflexivity]. cbn [length].
  rewrite exec_ww_second by lia.
  pose proof (skipOne_length 0x77 rest) as H1.
  rewrite exec_wwBody by lia.
  pose proof (span_snd_length isWhiteSpace (skipOne 0x77 rest)) as H2.
  rewrite exec_wwCount by lia.
  pose proof (span_snd_length isDigit
                (snd (span isWhiteSpace (skipOne 0x77 rest)))) as H3.
  destruct (span isDigit (snd (span isWhiteSpace (skipOne 0x77 rest))))
    as [d1 rest2]. cbn [fst snd] in *.
  destruct d1 as [|c1 d1]; [reflexivity|].
  rewrite exec_wwTail0 by lia.
  pose proof (span_snd_length isWhiteSpace rest2) as H4.
  pose proof (skipOne_length 0x61 (snd (span isWhiteSpace rest2))) as H5.
  pose proof (span_snd_length isWhiteSpace
                (skipOne 0x61 (snd (span isWhiteSpace rest2)))) as H6.
  rewrite exec_wwTail3 by lia.
  pose proof (span_app_eq isDigit
    (snd (span isWhiteSpace (skipOne 0x61 (snd (span isWhiteSpace rest2)))))) as E.
  destruct (span isDigit
    (snd (span isWhiteSpace (skipOne 0x61 (snd (span isWhiteSpace rest2))))))
    as [d2 rest5]. cbn [fst snd] in *.
  destruct rest5 as [|z b]; [|reflexivity].
  rewrite app_nil_r in E. rewrite <- E. now destruct d2.
Qed.

(** ** The parser on its shorthand rules *)

Lemma trim_id s : Forall (fun c => isWhiteSpace c = false) s -> trim s = s.
Proof.
  intros H. unfold trim, trimStart, trimEnd.
  rewrite (span_space_id s H). cbn [snd].
  rewrite span_space_id by now apply Forall_rev.
  cbn [snd]. apply rev_involutive.
Qed.

Lemma app_not_nil {A} (a b : list A) : b <> [] -> a ++ b <> [].
Proof. destruct a; [now rewrite app_nil_l|discriminate]. Qed.

Lemma capture_1 g1 g2 : capture 1 (capturesOf (g1, g2)) = Some g1.
Proof. now destruct g2. Qed.

Lemma capture_2 g1 g2 : capture 2 (capturesOf (g1, g2)) = g2.
Proof. now destruct g2. Qed.

Ltac parse_split H :=
  unfold parseFullExp; cbv zeta;
  rewrite (split_search _ _ _ _ H); cbv beta iota;
  rewrite rbrp_refines, ww_refines.

Section ParserTheorems.

Variable Unified_Ideograph : N -> bool.
Variable inexact : jsstring -> Z -> jsstring.

Hypothesis ideograph_not_ascii :
  forall c, (c < 0x80)%N -> Unified_Ideograph c = false.

Local Abbreviation parseFullExp := (parseFullExp Unified_Ideograph inexact).
Local Abbreviation splitsAt := (splitsAt Unified_Ideograph).
Local Abbreviation beginsWithSplit := (beginsWithSplit Unified_Ideograph).
Local Abbreviation noSplitChar := (noSplitChar Unified_Ideograph).

(** C2 (as amended).  For every token [r], [b] or [p], optional digits [ds]
    (the count [N], 1 when absent), followed by nothing or by a descriptor
    that begins with a CJK ideograph or white space, and with [N + 1] a safe
    integer, [parseFullExp] returns the expression [<N+1>d%kl1] for [b]
    (bonus: keep the lowest) and [<N+1>d%kh1] for [p] (penalty: keep the
    highest), with the descriptor unchanged. *)
Theorem parse_bonus_penalty (t : N) (ds desc : jsstring) :
  (t = 0x62 \/ t = 0x70)%N ->
  allDigits ds ->
  desc = [] \/ beginsWithSplit desc = true ->
  countOr 1 ds + 1 <= MAX_SAFE_INTEGER ->
  parseFullExp (js "r" ++ [t] ++ ds ++ desc) =
  (decimal (countOr 1 ds + 1) ++ js "d%k"
   ++ (if (t =? 0x62)%N then js "l" else js "h") ++ js "1", desc).
Proof using ideograph_not_ascii.
  intros Ht Hds Hdesc Hmax.
  assert (Htok : asciiToken (js "r" ++ [t] ++ ds)).
  { js_eval. cbn [app]. constructor; [easy|]. constructor.
    - destruct Ht as [-> | ->]; easy.
    - now apply allDigits_ascii. }
  pose proof (splitsAt_ascii _ ideograph_not_ascii _ desc Htok Hdesc) as Hsplit.
  rewrite <- !app_assoc in Hsplit.
  parse_split Hsplit.
  rewrite (match_rbrp_digits t ds Ht Hds). cbn [outcomeOf].
  rewrite capture_1, capture_2.
  assert (H1 : parseInt10 (orDefault (match ds with [] => None | _ => Some ds end)
                             (js "1")) = Exact (countOr 1 ds)).
  { apply (parseInt10_default (js "1") ds); [easy|now repeat constructor|
      exact Hds|]. change (digitsValue (js "1")) with 1. lia. }
  rewrite H1. unfold numberAdd. rewrite (proj2 (Z.leb_le _ _) Hmax).
  cbn [numberToString].
  destruct Ht as [-> | ->]; js_eval; cbn [app];
    repeat (rewrite bool_decide_eq_false_2 by congruence); cbn [orb];
    rewrite ?bool_decide_eq_true_2 by reflexivity; reflexivity.
Qed.



Lemma parse_descriptor s tok rest :
  splitsAt s tok rest -> s <> js "sc" -> s <> js "SC" ->
  snd (parseFullExp s) = rest.
Proof using Type.
  intros H Hsc HSC. parse_split H.
  rewrite !bool_decide_eq_false_2 by assumption. cbn [orb].
  destruct (bool_decide (tok = js "d") || bool_decide (tok = js "r")
            || bool_decide (tok = js "rd")); [reflexivity|].
  destruct (bool_decide (tok = js "ra")); [reflexivity|].
  destruct (match_rbrp tok) as [[g1 g2]|]; [reflexivity|].
  destruct (match_ww tok) as [[g1 g2]|]; [reflexivity|].
  cbn [outcomeOf]. now destruct (startsWith tok (js "r")).
Qed.

Lemma parse_expression_nonempty s tok rest :
  splitsAt s tok rest -> tok <> [] -> fst (parseFullExp s) <> [].
Proof using Type.
  intros H Hne.
  pose proof (noSplitChar_no_space _ _ (proj1 (proj2 (proj2 H)))) as Hs.
  parse_split H.
  destruct (bool_decide (s = js "sc") || bool_decide (s = js "SC")); [easy|].
  destruct (bool_decide (tok = js "d") || bool_decide (tok = js "r")
            || bool_decide (tok = js "rd")) eqn:E1; [easy|].
  destruct (bool_decide (tok = js "ra")); [easy|].
  destruct (match_rbrp tok) as [[g1 g2]|]; cbn [outcomeOf].
  { cbn [fst]. apply app_not_nil. easy. }
  destruct (match_ww tok) as [[g1 g2]|]; cbn [outcomeOf].
  { cbn [fst]. apply app_not_nil. easy. }
  destruct (startsWith tok (js "r")) eqn:Er; [|exact Hne].
  cbn [fst]. destruct tok as [|r [|c tok]]; [easy| |].
  - exfalso. revert Er E1. js_eval. cbn [startsWith]. intros Er.
    assert (r = 0x72%N) as -> by lia.
    now rewrite (bool_decide_eq_true_2 ([0x72%N] = [0x72%N])), orb_true_r.
  - apply Forall_cons in Hs as [_ Hs]. change (sliceFrom (r :: c :: tok) 1) with (c :: tok).
    now rewrite (trim_id _ Hs).
Qed.

(** C4.  [parseFullExp] returns a pair for every input.  The input splits
    at its first CJK ideograph or white-space character into a token and a
    rest (the whole input and nothing when it has no such character), and when
    none of the shorthand rules applies the pair is the token, verbatim, and
    the rest. *)
Theorem parse_total_fallback (s : jsstring) :
  exists tok rest exp desc,
    splitsAt s tok rest /\
    parseFullExp s = (exp, desc) /\
    (noSplitChar s -> tok = s /\ rest = []) /\
    (noShorthand s tok -> exp = tok /\ desc = rest).
Proof using Type.
  destruct (splitsAt_total Unified_Ideograph s) as (tok & rest & H).
  exists tok, rest, (fst (parseFullExp s)), (snd (parseFullExp s)).
  split; [exact H|]. split; [apply surjective_pairing|]. split.
  - intros Hno. apply (splitsAt_unique _ _ _ _ _ _ H).
    now apply noSplitChar_splitsAt.
  - intros (Hsc & HSC & Hd & Hr & Hrd & Hra & Hbp & Hpool & Hstart).
    pose proof (noSplitChar_no_space _ _ (proj1 (proj2 (proj2 H)))) as Hs.
    parse_split H.
    rewrite !bool_decide_eq_false_2 by assumption. cbn [orb].
    destruct (match_rbrp tok) as [g|] eqn:Eb.
    { apply match_rbrp_r in Eb. congruence. }
    destruct (match_ww tok) as [g|] eqn:Ew.
    { exfalso. apply Hpool. exact (match_ww_sound tok g Hs Ew). }
    cbn [outcomeOf]. rewrite Hstart. now split.
Qed.

(** C5 (as amended).  The expression [parseFullExp] returns is empty exactly
    when the input is empty or begins with a CJK ideograph or a white-space
    character, and non-empty for every other input; the descriptor is empty
    when the input holds no CJK ideograph and no white space, the inputs [sc]
    and [SC] apart (their descriptor is [sc]). *)
Theorem parse_expression_empty (s : jsstring) :
  (fst (parseFullExp s) = [] <-> s = [] \/ beginsWithSplit s = true) /\
  (noSplitChar s -> s <> js "sc" -> s <> js "SC" -> snd (parseFullExp s) = []).
Proof using ideograph_not_ascii.
  destruct (splitsAt_total Unified_Ideograph s) as (tok & rest & H).
  assert (Hsc : tok = [] -> s <> js "sc" /\ s <> js "SC").
  { intros ->. destruct H as (-> & _ & _ & [-> | Hb]); [easy|].
    cbn [app]. split; intros ->; revert Hb; js_eval;
      unfold_split;
      match goal with
      | |- context [codePoints ?l] =>
        let v := eval vm_compute in (codePoints l) in
        change (codePoints l) with v
      end; cbv iota; rewrite ideograph_not_ascii by easy; easy. }
  split; [split|].
  - intros He. destruct tok as [|c tok].
    + destruct H as (-> & _ & _ & Hr). exact Hr.
    + now destruct (parse_expression_nonempty s _ rest H).
  - intros Hs.
    assert (tok = []) as ->.
    { destruct Hs as [-> | Hb].
      - destruct H as (E & _). now destruct tok.
      - assert (H0 : splitsAt s [] s)
          by (repeat split; [constructor|now right]).
        exact (proj1 (splitsAt_unique _ _ _ _ _ _ H H0)). }
    destruct (Hsc eq_refl) as [H1 H2]. parse_split H.
    rewrite !bool_decide_eq_false_2 by (js_eval; congruence). reflexivity.
  - intros Hno H1 H2. rewrite (parse_descriptor s tok rest H H1 H2).
    exact (proj2 (splitsAt_unique _ _ _ _ _ _ H (noSplitChar_splitsAt _ s Hno))).
Qed.

End ParserTheorems.

(** ** Worked examples of the parser *)

Lemma ideograph15_not_ascii c : (c < 0x80)%N -> ideograph15 c = false.
Proof. unfold ideograph15. lia. Qed.

Example match_examples :
  match_rbrp (js "rb2") = Some (js "b", Some (js "2")) /\
  match_rbrp (js "rp") = Some (js "p", None) /\
  match_rbrp (js "rb2x") = None /\
  match_rbrp (js "rd2") = None /\
  match_ww (js "ww4a9") = Some (js "4", Some (js "9")) /\
  match_ww (js "w12") = Some (js "12", None) /\
  match_ww (js "ww4a") = Some (js "4", None) /\
  match_ww (js "ww") = None /\
  match_ww (js "www4") = None /\
  match_ww (js "w4a9a") = None /\
  match_ww (js "w4b9") = None /\
  regexMatch rbrpRegex (js "rb 23") = Matched [(2%nat, js "23"); (1%nat, js "b")] /\
  regexMatch wwRegex (js "w 4 a 9") = Matched [(2%nat, js "9"); (1%nat, js "4")] /\
  regexMatch wwRegex (js "ww45") = Matched [(1%nat, js "45")] /\
  regexMatch wwRegex (js "ww4a9x") = Failed.
Proof. vm_compute. repeat split. Qed.

Example parse_shorthands :
  parse (js "d") = (js "d%", []) /\ parse (js "r") = (js "d%", []) /\
  parse (js "rd") = (js "d%", []) /\ parse (js "ra 侦察") = (js "d%", js " 侦察") /\
  parse (js "sc") = (js "d%", js "sc") /\ parse (js "SC") = (js "d%", js "sc") /\
  parse (js "rd20") = (js "d20", []) /\
  parse (js "d100 困难侦察") = (js "d100", js " 困难侦察").
Proof. vm_compute. repeat split. Qed.

(** C2, the claim as stated fails: for [rb2] the parser keeps the lowest of
    three dice ([3d%kl1]), not the highest, and for [rp] the highest of two
    ([2d%kh1]), not the lowest. *)
Lemma parse_bonus_keeps_lowest :
  parse (js "rb2 侦察") = (js "3d%kl1", js " 侦察") /\
  bonusPenaltyExpression_spec 0x62 2 = js "3d%kh1" /\
  bool_decide (parse (js "rb2 侦察")
               = (bonusPenaltyExpression_spec 0x62 2, js " 侦察")) = false /\
  parse (js "rp 侦察") = (js "2d%kh1", js " 侦察") /\
  bonusPenaltyExpression_spec 0x70 1 = js "2d%kl1" /\
  bool_decide (parse (js "rp 侦察")
               = (bonusPenaltyExpression_spec 0x70 1, js " 侦察")) = false.
Proof. vm_compute. repeat split. Qed.

Lemma parse_bonus_penalty_witness :
  parse (js "rb2 侦察") = (js "3d%kl1", js " 侦察") /\
  parse (js "rp 侦察") = (js "2d%kh1", js " 侦察").
Proof.
  split.
  - apply (parse_bonus_penalty ideograph15 noInexact ideograph15_not_ascii
             0x62 (js "2") (js " 侦察")).
    + left. reflexivity.
    + vm_compute. repeat constructor.
    + right. reflexivity.
    + vm_compute. discriminate.
  - apply (parse_bonus_penalty ideograph15 noInexact ideograph15_not_ascii
             0x70 [] (js " 侦察")).
    + right. reflexivity.
    + constructor.
    + right. reflexivity.
    + vm_compute. discriminate.
Defined.



Lemma split_3d6 :
  splitsAt ideograph15 (js "3d6 伤害") (js "3d6") (js " 伤害").
Proof.
  apply (splitsAt_ascii ideograph15 ideograph15_not_ascii (js "3d6") (js " 伤害")).
  - vm_compute. repeat constructor.
  - right. reflexivity.
Qed.

Lemma noShorthand_3d6 : noShorthand (js "3d6 伤害") (js "3d6").
Proof.
  js_eval. repeat split; try discriminate.
  - intros (t & ds & E & _). revert E. js_eval. discriminate.
  - intros (w & d1 & a & d2 & E & [-> | ->] & _); revert E; js_eval;
      discriminate.
Qed.

Lemma parse_total_fallback_witness :
  parse (js "3d6 伤害") = (js "3d6", js " 伤害").
Proof.
  destruct (parse_total_fallback ideograph15 noInexact (js "3d6 伤害"))
    as (tok & rest & exp & desc & Hs & Hp & _ & Hfb).
  destruct (splitsAt_unique _ _ _ _ _ _ Hs split_3d6) as [-> ->].
  destruct (Hfb noShorthand_3d6) as [-> ->]. exact Hp.
Defined.

(** C5, the claim as stated fails: the empty input and an input that begins
    with an ideograph give an empty expression, and [sc], which holds no
    split point, gets the descriptor [sc]. *)
Lemma parse_empty_expression :
  parse [] = ([], []) /\
  parse (js "侦察") = ([], js "侦察") /\
  search ideograph15 (js "sc") = -1 /\
  parse (js "sc") = (js "d%", js "sc").
Proof. vm_compute. repeat split. Qed.

Lemma parse_expression_empty_witness :
  fst (parse (js "侦察")) = [] /\
  bool_decide (fst (parse (js "d20")) = []) = false /\
  snd (parse (js "d20")) = [].
Proof.
  pose proof (parse_expression_empty ideograph15 noInexact
                ideograph15_not_ascii (js "侦察")) as [[_ H1] _].
  pose proof (parse_expression_empty ideograph15 noInexact
                ideograph15_not_ascii (js "d20")) as [[H2 _] H3].
  split; [|split].
  - apply H1. right. vm_compute. reflexivity.
  - apply bool_decide_eq_false_2. intros E.
    destruct (H2 E) as [E' | E']; revert E'; vm_compute; discriminate.
  - apply H3.
    + unfold noSplitChar.
      let v := eval vm_compute in (codePoints (js "d20")) in
      change (codePoints (js "d20")) with v.
      repeat (constructor; [vm_compute; reflexivity|]). constructor.
    + vm_compute. discriminate.
    + vm_compute. discriminate.
Defined.

(** ** The success decider *)

Lemma decideResult_level e roll :
  levelRule (baseValue e) (value e) roll (level (decideResult e roll)).
Proof.
  unfold decideResult.
  destruct (Z.eqb_spec roll 1) as [E1|E1]; [exact E1|].
  destruct ((baseValue e <? 50) && (roll >? 95)
            || (baseValue e >=? 50) && (roll =? 100)) eqn:Ew.
  - cbn. split; [exact E1|lia].
  - destruct (Z.leb_spec roll (value e)); cbn; repeat split; lia.
Qed.

Lemma levelRule_unique b v roll l l' :
  levelRule b v roll l -> levelRule b v roll l' -> l = l'.
Proof. destruct l, l'; cbn; intros; try reflexivity; lia. Qed.

Lemma decideResult_success e roll :
  success (decideResult e roll) = true <->
  level (decideResult e roll) = BEST \/
  level (decideResult e roll) = REGULAR_SUCCESS.
Proof.
  unfold decideResult.
  repeat match goal with |- context [if ?b then _ else _] => destruct b end;
    cbn; intuition congruence.
Qed.

(** The ordinary path of the older decider, after the special names: the
    bands do not look at the rating, and the comparison is made with the
    rating divided by the difficulty. *)
Lemma decideResult_v1_ordinary card desc roll r :
  isSpecialCheck (trim desc) = false ->
  decideResult_v1 (Some card) desc roll = Some r ->
  exists compared,
    resultDesc r =
    (if roll =? 1 then js "大成功"
     else if roll >? 95 then js "大失败"
     else compared) /\
    ((exists rating, rating <> 0 /\
        compared =
        compareDesc roll
          (Some (if includes (trim desc) (js "极难")
                    || includes (trim desc) (js "极限") then rating / 5
                 else if includes (trim desc) (js "困难") then rating / 2
                 else rating))) \/
     (exists text,
        compared =
        if includes (trim desc) (js "极难") || includes (trim desc) (js "极限")
           || includes (trim desc) (js "困难") then js "> NaN 失败"
        else js "> " ++ text ++ js " 失败")).
Proof.
  unfold isSpecialCheck, decideResult_v1. intros Hsp.
  destruct (trim desc) as [|c sk] eqn:Et; [discriminate|].
  apply orb_false_iff in Hsp as [Hsp H5]. apply orb_false_iff in Hsp as [Hsp H4].
  rewrite Hsp, H4, H5.
  destruct (orValue _ _) as [[rating|text]|]; [| |discriminate].
  - destruct (Z.eqb_spec rating 0) as [|Hne]; [discriminate|].
    intros [= <-]. cbn [resultDesc]. eexists. split; [reflexivity|].
    left. exists rating. split; [exact Hne|reflexivity].
  - intros [= <-]. cbn [resultDesc]. eexists. split; [reflexivity|].
    right. exists text. reflexivity.
Qed.

(** C1 (as amended).  The newer [decideResult] follows the rule for every
    card entry and every roll: its level is BEST exactly for roll 1, WORST
    exactly for a roll above 95 on a base value under 50 or a roll of 100 on a
    base value of 50 or more, and otherwise REGULAR_SUCCESS or FAIL as the
    roll is at most the value or above it; so an entry of 60 and a roll of 96
    give FAIL.  The older [decideResult] has no band that depends on the
    rating: for a skill looked up on the card, roll 1 is 大成功 and every
    roll above 95 is 大失败. *)
Theorem decideResult_bands :
  (forall e roll l,
     level (decideResult e roll) = l <->
     levelRule (baseValue e) (value e) roll l) /\
  (forall e roll,
     success (decideResult e roll) = true <->
     level (decideResult e roll) = BEST \/
     level (decideResult e roll) = REGULAR_SUCCESS) /\
  level (decideResult {| baseValue := 60; value := 60 |} 96) = FAIL /\
  (forall card desc roll r,
     isSpecialCheck (trim desc) = false ->
     decideResult_v1 (Some card) desc roll = Some r ->
     (roll = 1 -> resultDesc r = js "大成功") /\
     (roll > 95 -> resultDesc r = js "大失败")).
Proof.
  split; [|split; [|split]].
  - intros e roll l. split.
    + intros <-. apply decideResult_level.
    + intros H. exact (levelRule_unique _ _ _ _ _ (decideResult_level e roll) H).
  - exact decideResult_success.
  - reflexivity.
  - intros card desc roll r Hsp Hr.
    destruct (decideResult_v1_ordinary card desc roll r Hsp Hr) as (t & -> & _).
    split; intros H.
    + now rewrite (proj2 (Z.eqb_eq roll 1) H).
    + replace (roll =? 1) with false by lia. now replace (roll >? 95) with true by lia.
Qed.

(** C1, the claim as stated fails for the older [decideResult]: with a rating
    of 60 a roll of 96 is 大失败, the critical failure; the newer one gives FAIL
    there. *)
Lemma decideResult_v1_flat_band :
  option_map resultDesc (decideResult_v1 (Some exampleCard) (js " 侦察") 96)
  = Some (js "大失败") /\
  skills exampleCard !! js "侦察" = Some 60 /\
  level (decideResult {| baseValue := 60; value := 60 |} 96) = FAIL.
Proof. vm_compute. repeat split. Qed.

Lemma decideResult_bands_witness :
  level (decideResult {| baseValue := 40; value := 40 |} 96) = WORST /\
  level (decideResult {| baseValue := 60; value := 60 |} 100) = WORST /\
  level (decideResult {| baseValue := 60; value := 60 |} 60) = REGULAR_SUCCESS /\
  option_map resultDesc (decideResult_v1 (Some exampleCard) (js "图书馆") 1)
  = Some (js "大成功").
Proof.
  destruct decideResult_bands as (Hrule & _ & _ & Hold).
  split; [|split; [|split]].
  - apply Hrule. cbn. lia.
  - apply Hrule. cbn. lia.
  - apply Hrule. cbn. lia.
  - destruct (decideResult_v1 (Some exampleCard) (js "图书馆") 1) as [r|] eqn:E;
      [|revert E; vm_compute; discriminate].
    cbn [option_map]. f_equal.
    apply (Hold exampleCard (js "图书馆") 1 r); [vm_compute|exact E|]; reflexivity.
Defined.

(** C7 (as amended).  For the names 理智, sc and SC, 幸运 and 灵感 the older
    [decideResult] looks up no skill: it compares the roll with [basic.san],
    [basic.luck] and [props.智力], success when the roll is at most the value
    and failure otherwise, for every roll; a roll of 1 and a roll above 95
    get no band of their own. *)
Theorem decideResult_v1_special (card : ICard) (desc : jsstring) (roll : Z) :
  let name := trim desc in
  let seen x :=
    decideResult_v1 (Some card) desc roll =
    Some {| resultDesc := compareDesc roll x; skill := name;
            cardName := basic_name card |} in
  (name = js "理智" \/ name = js "sc" \/ name = js "SC" ->
   seen (Some (basic_san card))) /\
  (name = js "幸运" -> seen (Some (basic_luck card))) /\
  (name = js "灵感" -> seen (props card !! js "智力")).
Proof.
  cbv zeta. unfold decideResult_v1.
  split; [|split].
  - intros H.
    assert (Hb : bool_decide (trim desc = js "理智")
                 || bool_decide (trim desc = js "sc")
                 || bool_decide (trim desc = js "SC") = true).
    { destruct H as [H|[H|H]]; rewrite (bool_decide_eq_true_2 _ H);
        now rewrite ?orb_true_r. }
    rewrite Hb. destruct (trim desc); [|reflexivity].
    destruct H as [H|[H|H]]; revert H; js_eval; discriminate.
  - intros H. rewrite H. vm_compute (js "幸运").
    rewrite !bool_decide_eq_false_2 by (js_eval; discriminate).
    rewrite bool_decide_eq_true_2 by reflexivity. reflexivity.
  - intros H. rewrite H. vm_compute (js "灵感").
    rewrite !bool_decide_eq_false_2 by (js_eval; discriminate).
    rewrite bool_decide_eq_true_2 by reflexivity. reflexivity.
Qed.

(** C7, the claim as stated fails: the special checks have no critical
    bands.  A luck check (luck 50) with roll 1 is an ordinary success, a
    sanity check (san 99) with roll 96 succeeds, where a skill check gives
    大成功 and 大失败. *)
Lemma special_check_no_critical :
  option_map resultDesc (decideResult_v1 (Some exampleCard) (js "幸运") 1)
  = Some (js "≤ 50 成功") /\
  option_map resultDesc (decideResult_v1 (Some exampleCard) (js "理智") 96)
  = Some (js "≤ 99 成功") /\
  option_map resultDesc (decideResult_v1 (Some exampleCard) (js "侦察") 1)
  = Some (js "大成功") /\
  option_map resultDesc (decideResult_v1 (Some exampleCard) (js "侦察") 96)
  = Some (js "大失败").
Proof. vm_compute. repeat split. Qed.

Lemma decideResult_v1_special_witness :
  decideResult_v1 (Some exampleCard) (js " sc ") 100 =
  Some {| resultDesc := js "> 99 失败"; skill := js "sc";
          cardName := js "调查员" |} /\
  decideResult_v1 (Some exampleCard) (js "灵感") 70 =
  Some {| resultDesc := js "≤ 70 成功"; skill := js "灵感";
          cardName := js "调查员" |}.
Proof.
  split.
  - apply (proj1 (decideResult_v1_special exampleCard (js " sc ") 100)).
    right. left. reflexivity.
  - apply (proj2 (proj2 (decideResult_v1_special exampleCard (js "灵感") 70))).
    reflexivity.
Defined.

(** ** The opposed-roll cache *)

Lemma lru_remove_In {V} k (c : LRUCache V) e : In e (lru_remove k c) -> In e c.
Proof. unfold lru_remove. intros H. now apply filter_In in H. Qed.

Lemma lru_peek_In {V} k (c : LRUCache V) v : lru_peek k c = Some v -> In (k, v) c.
Proof.
  unfold lru_peek. destruct (find _ c) as [[k' v']|] eqn:E; [|discriminate].
  intros [= <-]. apply find_some in E as [Hin Hk].
  apply bool_decide_eq_true_1 in Hk. cbn in Hk. now subst k'.
Qed.

Lemma lru_get_In {V} k (c : LRUCache V) e :
  In e (snd (lru_get k c)) -> In e c.
Proof.
  unfold lru_get. destruct (lru_peek k c) as [v|] eqn:E; cbn [snd]; [|easy].
  intros [<-|H]; [now apply lru_peek_In|now apply lru_remove_In in H].
Qed.

Lemma In_firstn {A} n (l : list A) e : In e (firstn n l) -> In e l.
Proof.
  revert l. induction n as [|n IH]; intros [|a l]; cbn; try easy.
  intros [->|H]; [now left|right; now apply IH].
Qed.

Lemma lru_set_In {V} max k (v : V) c e :
  In e (lru_set max k v c) -> e = (k, v) \/ In e c.
Proof.
  unfold lru_set. intros H. apply In_firstn in H.
  destruct H as [<-|H]; [now left|right; now apply lru_remove_In in H].
Qed.

Lemma lru_set_size {V} max k (v : V) c : (length (lru_set max k v c) <= max)%nat.
Proof. unfold lru_set. rewrite length_firstn. lia. Qed.

Ltac unfold_tryRollDice := unfold tryRollDice.
Ltac unfold_run := cbn [run].
Ltac unfold_handlers :=
  unfold step, handleGuildMessage, handleGuildReactions, handleDirectMessage,
    afterPost, idle.

Section HandlerFacts.

Variable Card : Type.
Variable getCard : jsstring -> jsstring -> option Card.
Variable createDiceRoll : jsstring -> DiceRollContext Card -> option Roller.
Variable applyToCard : Roller -> option bool.
Variable findChannel : jsstring -> jsstring -> bool.
Variable findUser : jsstring -> jsstring -> option jsstring.

Local Abbreviation tryRollDice := (tryRollDice Card getCard createDiceRoll applyToCard).
Local Abbreviation handleGuildMessage :=
  (handleGuildMessage Card getCard createDiceRoll applyToCard findChannel findUser).
Local Abbreviation handleGuildReactions :=
  (handleGuildReactions Card getCard createDiceRoll applyToCard findChannel findUser).
Local Abbreviation handleDirectMessage :=
  (handleDirectMessage Card getCard createDiceRoll applyToCard findUser).
Local Abbreviation step :=
  (step Card getCard createDiceRoll applyToCard findChannel findUser).
Local Abbreviation run :=
  (run Card getCard createDiceRoll applyToCard findChannel findUser).

(** [tryRollDice] writes nothing, and looks up the replied-to id only. *)
Lemma tryRollDice_cache cache fullExp userId channelId username replyMsgId :
  (forall e,
     In e (tryRollDice cache fullExp userId channelId username replyMsgId).1.2 ->
     In e cache) /\
  (forall k,
     In k (tryRollDice cache fullExp userId channelId username replyMsgId).2 ->
     truthy replyMsgId = Some k).
Proof.
  unfold_tryRollDice.
  destruct (truthy replyMsgId) as [k0|] eqn:Ek.
  - pose proof (lru_get_In k0 cache) as Hget.
    destruct (lru_get k0 cache) as [v c']. cbn [snd] in Hget.
    destruct (createDiceRoll _ _) as [roller|]; [|cbn; split; [auto|]].
    + destruct (match truthy channelId with
                | Some ch => getCard ch userId | None => None end);
        [destruct (applyToCard roller)|]; cbn; (split; [auto|]);
        intros k [<-|[]]; reflexivity.
    + intros k [<-|[]]; reflexivity.
  - destruct (createDiceRoll _ _) as [roller|]; [|cbn; split; [auto|easy]].
    destruct (match truthy channelId with
              | Some ch => getCard ch userId | None => None end);
      [destruct (applyToCard roller)|]; cbn; (split; [auto|easy]).
Qed.

Lemma truthy_None_lookups cache fullExp userId channelId username :
  (tryRollDice cache fullExp userId channelId username None).2 = [].
Proof.
  pose proof (proj2 (tryRollDice_cache cache fullExp userId channelId username None)) as H.
  destruct ((tryRollDice cache fullExp userId channelId username None).2) as [|k l];
    [reflexivity|]. discriminate (H k (or_introl eq_refl)).
Qed.

(** What a run of a handler leaves in the cache was there before. *)
Lemma step_cache cache ev e :
  In e (cacheAfter (step cache ev)) ->
  In e cache \/
  exists id r, ev = Posted (Standard r) (Some id) /\ e = (id, r) /\
               eligibleForOpposedRoll r = true.
Proof.
  destruct ev as [bot msg|eventId channelId guildId userId cacheMsg
                 |selfNick msg srcGuildId|roll replyMsg]; unfold_handlers.
  - destruct (content msg) as [c|]; [|now left].
    destruct (trim c) as [|c0 t]; [now left|].
    match goal with |- context [tryRollDice ?a ?b ?c ?d ?e ?f] =>
      pose proof (proj1 (tryRollDice_cache a b c d e f)) as Hc;
      destruct (tryRollDice a b c d e f) as [[roll cache'] looked] end.
    cbn [fst snd] in Hc. intros H. left. apply Hc. revert H.
    destruct roll as [[r|out]|]; repeat (match goal with
      |- context [if ?b then _ else _] => destruct b
      | |- context [match findUser ?a ?b with _ => _ end] => destruct (findUser a b)
      end); cbn; auto.
  - destruct cacheMsg as [entry|]; [|now left]. cbn [snd].
    destruct (instruction entry) as [| |i] eqn:Ei; [|now left|].
    + cbn [instruction]. destruct (detectInstruction _) as [[|c i]|]; [now left| |now left].
      match goal with |- context [tryRollDice ?a ?b ?c ?d ?e ?f] =>
        pose proof (proj1 (tryRollDice_cache a b c d e f)) as Hc;
        destruct (tryRollDice a b c d e f) as [[roll cache'] looked] end.
      cbn [fst snd] in Hc. intros H. left. apply Hc. revert H.
      destruct roll; [destruct (findChannel channelId guildId)|]; cbn; auto.
    + rewrite Ei. destruct i as [|c i]; [now left|].
      match goal with |- context [tryRollDice ?a ?b ?c ?d ?e ?f] =>
        pose proof (proj1 (tryRollDice_cache a b c d e f)) as Hc;
        destruct (tryRollDice a b c d e f) as [[roll cache'] looked] end.
      cbn [fst snd] in Hc. intros H. left. apply Hc. revert H.
      destruct roll; [destruct (findChannel channelId guildId)|]; cbn; auto.
  - destruct (content msg) as [c|];
      [|destruct (findUser (author_id msg) srcGuildId); now left].
    destruct (if startsWithMarker (trim c) then trim (sliceFrom (trim c) 1) else [])
      as [|c0 t]; [destruct (findUser (author_id msg) srcGuildId); now left|].
    destruct (findUser (author_id msg) srcGuildId) as [persona|]; [|now left].
    match goal with |- context [tryRollDice ?a ?b ?c ?d ?e ?f] =>
      pose proof (proj1 (tryRollDice_cache a b c d e f)) as Hc;
      destruct (tryRollDice a b c d e f) as [[roll cache'] looked] end.
    cbn [fst snd] in Hc. intros H. left. apply Hc. revert H.
    destruct roll; cbn; auto.
  - cbn [cacheAfter]. destruct replyMsg as [id|]; [|now left].
    destruct roll as [r|out]; [|now left].
    destruct (eligibleForOpposedRoll r) eqn:Er; [|now left].
    intros H. apply lru_set_In in H as [->|H]; [right|now left].
    now exists id, r.
Qed.


Lemma step_lookups cache ev k :
  In k (lookups (step cache ev)) -> repliedTo ev = Some k.
Proof.
  destruct ev as [bot msg|eventId channelId guildId userId cacheMsg
                 |selfNick msg srcGuildId|roll replyMsg]; unfold_handlers;
    cbn [repliedTo].
  - destruct (content msg) as [c|]; [|easy].
    destruct (trim c) as [|c0 t]; [easy|].
    match goal with |- context [tryRollDice ?a ?b ?c ?d ?e ?f] =>
      pose proof (proj2 (tryRollDice_cache a b c d e f)) as Hl;
      destruct (tryRollDice a b c d e f) as [[roll cache'] looked] end.
    cbn [fst snd] in Hl. intros H. apply Hl. revert H.
    destruct roll as [[r|out]|]; repeat (match goal with
      |- context [if ?b then _ else _] => destruct b
      | |- context [match findUser ?a ?b with _ => _ end] => destruct (findUser a b)
      end); cbn; auto.
  - destruct cacheMsg as [entry|]; [|easy]. cbn [snd].
    destruct (instruction entry) as [| |i] eqn:Ei; [|easy|].
    + cbn [instruction]. destruct (detectInstruction _) as [[|c i]|]; [easy| |easy].
      match goal with |- context [tryRollDice ?a ?b ?c ?d ?e ?f] =>
        pose proof (truthy_None_lookups a b c d e) as Hl;
        destruct (tryRollDice a b c d e f) as [[roll cache'] looked] end.
      cbn [snd] in Hl. subst looked.
      destruct roll; [destruct (findChannel channelId guildId)|]; cbn; easy.
    + rewrite Ei. destruct i as [|c i]; [easy|].
      match goal with |- context [tryRollDice ?a ?b ?c ?d ?e ?f] =>
        pose proof (truthy_None_lookups a b c d e) as Hl;
        destruct (tryRollDice a b c d e f) as [[roll cache'] looked] end.
      cbn [snd] in Hl. subst looked.
      destruct roll; [destruct (findChannel channelId guildId)|]; cbn; easy.
  - destruct (content msg) as [c|];
      [|destruct (findUser (author_id msg) srcGuildId); easy].
    destruct (if startsWithMarker (trim c) then trim (sliceFrom (trim c) 1) else [])
      as [|c0 t]; [destruct (findUser (author_id msg) srcGuildId); easy|].
    destruct (findUser (author_id msg) srcGuildId) as [persona|] eqn:Eu; [|easy].
    match goal with |- context [tryRollDice ?a ?b ?c ?d ?e ?f] =>
      pose proof (truthy_None_lookups a b c d e) as Hl;
      destruct (tryRollDice a b c d e f) as [[roll cache'] looked] end.
    cbn [snd] in Hl. subst looked.
    destruct roll; cbn; easy.
  - easy.
Qed.

Lemma step_eligible cache ev :
  allEligible cache -> allEligible (cacheAfter (step cache ev)).
Proof.
  unfold allEligible. rewrite !List.Forall_forall. intros Hc e He.
  apply step_cache in He as [He|(id & r & _ & -> & Hr)]; [now apply Hc|exact Hr].
Qed.

Lemma run_eligible evs : forall cache,
  allEligible cache -> allEligible (run cache evs).
Proof.
  induction evs as [|ev evs IH]; intros cache Hc; [exact Hc|].
  unfold_run. apply IH. now apply step_eligible.
Qed.

(** C8.  Every handler step keeps the cache to records flagged
    [eligibleForOpposedRoll]: an entry present after a step was present
    before, or the step is the return of a post with a reply message for an
    eligible [StandardDiceRoll], stored under the reply's id; the only key a
    step looks up is the replied-to message id of the guild message it
    handles; and every cache reached from the empty one holds eligible
    records only. *)
Theorem opposed_cache_invariant
  (cache : LRUCache StandardDiceRoll) (ev : Event) (evs : list Event) :
  (forall e, In e (cacheAfter (step cache ev)) ->
     In e cache \/
     exists id r, ev = Posted (Standard r) (Some id) /\ e = (id, r) /\
                  eligibleForOpposedRoll r = true) /\
  (forall k, In k (lookups (step cache ev)) -> repliedTo ev = Some k) /\
  (allEligible cache -> allEligible (cacheAfter (step cache ev))) /\
  allEligible (run [] evs).
Proof.
  split; [|split; [|split]].
  - apply step_cache.
  - apply step_lookups.
  - apply step_eligible.
  - apply run_eligible. constructor.
Qed.

(** The newer handler hands every non-empty text to [tryRollDice]. *)
Lemma handleGuildMessage_rolls bot cache msg c :
  content msg = Some c -> trim c <> [] ->
  rolled (handleGuildMessage bot cache msg) = Some (commandBody bot (trim c)).
Proof.
  intros Hc Hne. unfold_handlers. rewrite Hc.
  destruct (trim c) as [|c0 t]; [contradiction|].
  destruct (tryRollDice _ _ _ _ _ _) as [[roll cache'] looked].
  destruct roll as [[r|out]|]; repeat (match goal with
    |- context [if ?b then _ else _] => destruct b
    | |- context [match findUser ?a ?b with _ => _ end] => destruct (findUser a b)
    end); reflexivity.
Qed.

(** C3, on the failing input: a guild message [hello], with no mention and no
    marker.  The older handler returns before [tryRollDice]; the newer one
    calls [tryRollDice] with [hello]. *)
Theorem guild_message_without_prefix
  (bot : option jsstring) (cache : LRUCache StandardDiceRoll) :
  startsWith (js "hello") (mention bot) = false /\
  startsWithMarker (js "hello") = false /\
  handleGuildMessage_v1 bot (exampleMessage "hello" None) = None /\
  rolled (handleGuildMessage bot cache (exampleMessage "hello" None))
  = Some (js "hello").
Proof.
  assert (Hm : forall tl, startsWith (js "hello") (mention bot ++ tl) = false)
    by (intros tl; unfold mention; js_eval; reflexivity).
  split; [|split; [reflexivity|split]].
  - rewrite <- (app_nil_r (mention bot)). apply Hm.
  - unfold handleGuildMessage_v1. cbn [content exampleMessage].
    change (trim (js "hello")) with (js "hello").
    rewrite (Hm (js " ")). reflexivity.
  - rewrite (handleGuildMessage_rolls bot cache _ (js "hello"));
      [|reflexivity|vm_compute; discriminate].
    change (trim (js "hello")) with (js "hello").
    unfold commandBody. rewrite <- (app_nil_r (mention bot)), (Hm []).
    reflexivity.
Qed.

End HandlerFacts.

Lemma startsWith_app s p q : startsWith s (p ++ q) = true -> startsWith s p = true.
Proof.
  revert s. induction p as [|a p IH]; intros [|b s]; cbn; try easy.
  intros H. apply andb_true_iff in H as [-> H]. now rewrite (IH s H).
Qed.

(** The older handler returns before [tryRollDice] unless the trimmed text
    starts with the mention or with a marker. *)
Lemma handleGuildMessage_v1_gate bot msg c :
  content msg = Some c ->
  startsWith (trim c) (mention bot) = false ->
  startsWithMarker (trim c) = false ->
  handleGuildMessage_v1 bot msg = None.
Proof.
  intros Hc Hm Hd. unfold handleGuildMessage_v1. rewrite Hc, Hd.
  destruct (startsWith (trim c) (mention bot ++ js " ")) eqn:E.
  - apply startsWith_app in E. congruence.
  - now destruct (trim c).
Qed.

(** ** The keyword scanner *)

Lemma startsWith_prefix s p :
  startsWith s p = true <-> exists post, s = p ++ post.
Proof.
  revert s. induction p as [|a p IH]; intros s.
  - split; [intros _; now exists s|now destruct s].
  - destruct s as [|b s]; cbn [startsWith].
    + split; [discriminate|intros [post H]; discriminate].
    + rewrite andb_true_iff, N.eqb_eq, IH. split.
      * intros [-> [post ->]]. now exists post.
      * intros [post [= -> ->]]. split; [reflexivity|now exists post].
Qed.

Lemma occursAt_0 m s : occursAt m s 0 <-> startsWith s m = true.
Proof.
  rewrite startsWith_prefix. split.
  - intros (pre & post & -> & Hl). destruct pre; [|discriminate]. now exists post.
  - intros [post ->]. now exists [], post.
Qed.

Lemma occursAt_S m c s j : occursAt m (c :: s) (S j) <-> occursAt m s j.
Proof.
  split.
  - intros (pre & post & E & Hl). destruct pre as [|c' pre]; [discriminate|].
    injection E as -> ->. injection Hl as Hl. now exists pre, post.
  - intros (pre & post & -> & Hl). exists (c :: pre), post. cbn. now rewrite Hl.
Qed.

Lemma occursAt_nil m j : occursAt m [] j -> m = [] /\ j = 0%nat.
Proof.
  intros (pre & post & E & Hl). symmetry in E.
  apply app_eq_nil in E as [-> E]. apply app_eq_nil in E as [-> _]. now subst j.
Qed.

Lemma firstAlt_Some alts s m :
  firstAlt alts s = Some m -> In m alts /\ startsWith s m = true.
Proof.
  induction alts as [|a alts IH]; cbn; [discriminate|].
  destruct (startsWith s a) eqn:E.
  - intros [= <-]. auto.
  - intros H. destruct (IH H). auto.
Qed.

Lemma firstAlt_None alts s m :
  firstAlt alts s = None -> In m alts -> startsWith s m = false.
Proof.
  induction alts as [|a alts IH]; cbn; [easy|].
  destruct (startsWith s a) eqn:E; [discriminate|].
  intros H [<-|Hin]; auto.
Qed.

(** [execAlts] returns the leftmost match. *)
Lemma execAlts_Some alts s m :
  execAlts alts s = Some m -> firstOccurrence alts s m.
Proof.
  induction s as [|c s IH]; cbn [execAlts].
  - destruct (firstAlt alts []) as [m'|] eqn:E; [|discriminate].
    intros [= <-]. apply firstAlt_Some in E as [Hin Hs]. split; [exact Hin|].
    exists 0%nat. split; [now apply occursAt_0|intros; lia].
  - destruct (firstAlt alts (c :: s)) as [m'|] eqn:E.
    + intros [= <-]. apply firstAlt_Some in E as [Hin Hs]. split; [exact Hin|].
      exists 0%nat. split; [now apply occursAt_0|intros; lia].
    + intros H. destruct (IH H) as (Hin & i & Hocc & Hmin). split; [exact Hin|].
      exists (S i). split; [now apply occursAt_S|].
      intros m' [|j] Hin' Hocc'.
      * apply occursAt_0 in Hocc'.
        rewrite (firstAlt_None _ _ _ E Hin') in Hocc'. discriminate.
      * apply occursAt_S in Hocc'. specialize (Hmin m' j Hin' Hocc'). lia.
Qed.

Lemma execAlts_None alts s m :
  execAlts alts s = None -> In m alts -> ~ contains m s.
Proof.
  induction s as [|c s IH]; cbn [execAlts].
  - destruct (firstAlt alts []) eqn:E; [discriminate|]. intros _ Hin [j Hocc].
    apply occursAt_nil in Hocc as [-> ->].
    discriminate (firstAlt_None _ _ _ E Hin).
  - destruct (firstAlt alts (c :: s)) eqn:E; [discriminate|].
    intros H Hin [[|j] Hocc].
    + apply occursAt_0 in Hocc. rewrite (firstAlt_None _ _ _ E Hin) in Hocc.
      discriminate.
    + apply occursAt_S in Hocc. apply (IH H Hin). now exists j.
Qed.

(** Element [0] of the global match is the leftmost match. *)
Lemma matchAll_head alts s :
  firstAlt alts [] = None ->
  head (matchAll alts s) = execAlts alts s.
Proof.
  intros Hnil. unfold matchAll.
  induction s as [|c s IH]; cbn [matchAllFrom execAlts].
  - now rewrite Hnil.
  - destruct (firstAlt alts (c :: s)); [reflexivity|exact IH].
Qed.

(** Two alternatives of a prefix-free list that occur at the same place are
    the same. *)
Lemma prefixFree_same alts a b text i :
  prefixFree alts = true -> In a alts -> In b alts ->
  occursAt a text i -> occursAt b text i -> a = b.
Proof.
  unfold prefixFree. rewrite forallb_forall. intros Hpf Ha Hb.
  intros (pre & post & -> & Hl) (pre' & post' & E & Hl').
  assert (pre' = pre /\ a ++ post = b ++ post') as [-> E'].
  { subst i. clear -E Hl'. revert pre' E Hl'.
    induction pre as [|c pre IH]; intros [|c' pre'] E Hl'; cbn in *;
      try discriminate.
    - auto.
    - injection E as -> E. injection Hl' as Hl'.
      destruct (IH pre' E Hl') as [-> ->]. auto. }
  assert (startsWith b a = true \/ startsWith a b = true) as [H|H].
  { clear -E'. revert b E'. induction a as [|x a IH]; intros b E'; [left; now destruct b|].
    destruct b as [|y b]; [now right|]. injection E' as -> E'. cbn [startsWith].
    rewrite N.eqb_refl. cbn. exact (IH b E'). }
  - pose proof (proj2 (proj1 (andb_true_iff _ _) (Hpf a Ha))) as Hall.
    rewrite forallb_forall in Hall. specialize (Hall b Hb). rewrite H in Hall.
    now apply bool_decide_eq_true_1 in Hall.
  - pose proof (proj2 (proj1 (andb_true_iff _ _) (Hpf b Hb))) as Hall.
    rewrite forallb_forall in Hall. specialize (Hall a Ha). rewrite H in Hall.
    symmetry. now apply bool_decide_eq_true_1 in Hall.
Qed.

Lemma firstOccurrence_unique alts text m m' :
  prefixFree alts = true ->
  firstOccurrence alts text m -> firstOccurrence alts text m' -> m = m'.
Proof.
  intros Hpf (Hin & i & Hocc & Hmin) (Hin' & i' & Hocc' & Hmin').
  assert (i = i') as <-.
  { specialize (Hmin m' i' Hin' Hocc'). specialize (Hmin' m i Hin Hocc). lia. }
  exact (prefixFree_same alts m m' text i Hpf Hin Hin' Hocc Hocc').
Qed.

Lemma instRegex_prefixFree : prefixFree instRegex = true.
Proof. vm_compute. reflexivity. Qed.

Lemma difficultyRegex_prefixFree : prefixFree difficultyRegex = true.
Proof. vm_compute. reflexivity. Qed.

(** C10.  [detectInstruction] returns [null] exactly when the text contains
    none of the keywords of [instRegex].  Otherwise it returns the difficulty
    followed by the skill, where the skill is the keyword with the leftmost
    occurrence in the text, and the difficulty is the qualifier (困难, 极难 or
    极限) with the leftmost occurrence wherever that is in the text, or the
    empty string when the text contains no qualifier. *)
Theorem detectInstruction_spec (text : jsstring) :
  (detectInstruction text = None <->
   forall kw, In kw instRegex -> ~ contains kw text) /\
  (forall r, detectInstruction text = Some r ->
   exists difficulty skill,
     r = difficulty ++ skill /\
     firstOccurrence instRegex text skill /\
     (forall skill', firstOccurrence instRegex text skill' -> skill' = skill) /\
     (firstOccurrence difficultyRegex text difficulty \/
      difficulty = [] /\
      forall q, In q difficultyRegex -> ~ contains q text)).
Proof.
  unfold detectInstruction.
  pose proof (matchAll_head instRegex text eq_refl) as Hh.
  destruct (matchAll instRegex text) as [|skill rest]; cbn [head] in Hh.
  - split.
    + split; [intros _ kw Hin|reflexivity].
      now apply (execAlts_None instRegex).
    + discriminate.
  - symmetry in Hh. apply execAlts_Some in Hh. split.
    + split; [discriminate|]. intros Hno. exfalso.
      destruct Hh as (Hin & i & Hocc & _). apply (Hno skill Hin). now exists i.
    + intros r [= <-].
      exists (match execAlts difficultyRegex text with Some d => d | None => [] end),
        skill.
      split; [reflexivity|]. split; [exact Hh|]. split.
      * intros skill' H'.
        exact (firstOccurrence_unique _ _ _ _ instRegex_prefixFree H' Hh).
      * destruct (execAlts difficultyRegex text) as [d|] eqn:Ed.
        -- left. now apply execAlts_Some.
        -- right. split; [reflexivity|]. intros q Hq.
           now apply (execAlts_None difficultyRegex).
Qed.

Example detectInstruction_examples :
  detectInstruction (js "过个侦察吧，困难的") = Some (js "困难侦察") /\
  detectInstruction (js "极难 请投力量和敏捷") = Some (js "极难力量") /\
  detectInstruction (js "来个sc") = Some (js "sc") /\
  detectInstruction (js "hello") = None.
Proof. vm_compute. repeat split. Qed.

(** ** A worked run of the handlers *)

Lemma opposed_cache_invariant_witness :
  awaiting (exampleStep [] (exampleGuildMessage ".d% 侦察" None))
  = Some (Standard exampleRoll) /\
  exampleRun [] [exampleGuildMessage ".d% 侦察" None;
                 Posted (Standard exampleRoll) (Some (js "r1"))]
  = [(js "r1", exampleRoll)] /\
  lookups (exampleStep [(js "r1", exampleRoll)]
             (exampleGuildMessage ".d% 侦察" (Some (js "r1"))))
  = [js "r1"] /\
  allEligible
    (exampleRun [] [exampleGuildMessage ".d% 侦察" None;
                    Posted (Standard exampleRoll) (Some (js "r1"))]).
Proof.
  split; [vm_compute; reflexivity|].
  split; [vm_compute; reflexivity|].
  split; [vm_compute; reflexivity|].
  exact (proj2 (proj2 (proj2
    (opposed_cache_invariant unit (fun _ _ => None) exampleCreateDiceRoll
       (fun _ => Some false) (fun _ _ => true) (fun _ _ => Some (js "user"))
       [] (exampleGuildMessage ".d% 侦察" None)
       [exampleGuildMessage ".d% 侦察" None;
        Posted (Standard exampleRoll) (Some (js "r1"))])))).
Defined.

(** ** Replacement over literal alternatives *)

Lemma Some_eq_inv {A} (a b : A) : Some a = Some b -> a = b.
Proof. congruence. Qed.

Lemma startsWith_nil s : startsWith s [] = true.
Proof. destruct s; reflexivity. Qed.

Lemma startsWith_length s p : startsWith s p = true -> (length p <= length s)%nat.
Proof.
  intros H. apply startsWith_prefix in H as [post ->]. rewrite length_app. lia.
Qed.

Lemma replaceAllFrom_skip alts f pre s :
  replaceAllFrom alts f (length pre) (pre ++ s) = replaceAllFrom alts f 0 s.
Proof. induction pre as [|c pre IH]; [reflexivity|exact IH]. Qed.

(** A match at the head is replaced, and the scan resumes behind it: the
    replacement itself is not read again. *)
Lemma replaceAll_match alts f m s :
  m <> [] -> firstAlt alts (m ++ s) = Some m ->
  replaceAll alts f (m ++ s) = f m ++ replaceAll alts f s.
Proof.
  destruct m as [|c m]; [easy|]. intros _ H. unfold replaceAll.
  cbn [app replaceAllFrom]. cbn [app] in H. rewrite H.
  cbn [length]. rewrite Nat.sub_1_r. cbn [Nat.pred].
  now rewrite replaceAllFrom_skip.
Qed.

Lemma replaceAll_copy alts f c s :
  firstAlt alts (c :: s) = None ->
  replaceAll alts f (c :: s) = c :: replaceAll alts f s.
Proof. intros H. unfold replaceAll. cbn [replaceAllFrom]. now rewrite H. Qed.

Lemma replaceAllFrom_length alts f :
  (forall m, In m alts -> m <> [] /\ (length (f m) <= length m)%nat) ->
  forall s k,
    (length (replaceAllFrom alts f k s) + Nat.min k (length s) <= length s)%nat.
Proof.
  intros Hf. induction s as [|c s IH]; intros k; [cbn; lia|].
  destruct k as [|k]; cbn [replaceAllFrom].
  - destruct (firstAlt alts (c :: s)) as [m|] eqn:E.
    + apply firstAlt_Some in E as [Hin Hst]. apply startsWith_length in Hst.
      destruct (Hf m Hin) as [Hne Hle]. specialize (IH (length m - 1)%nat).
      rewrite length_app. cbn [length] in *.
      destruct m as [|a m]; [easy|]. cbn [length] in *. lia.
    + specialize (IH 0%nat). cbn [length] in *. lia.
  - specialize (IH k). cbn [length]. lia.
Qed.

(** Where an alternative occurs and every replacement is shorter than what
    it replaces, the result is shorter than the text. *)
Lemma replaceAll_shrinks alts f s m :
  (forall m, In m alts -> (length (f m) < length m)%nat) ->
  execAlts alts s = Some m ->
  (length (replaceAll alts f s) < length s)%nat.
Proof.
  intros Hf. unfold replaceAll.
  induction s as [|c s IH]; cbn [execAlts replaceAllFrom].
  - destruct (firstAlt alts []) as [m'|] eqn:E; [|discriminate].
    apply firstAlt_Some in E as [Hin Hst]. specialize (Hf m' Hin).
    destruct m'; [cbn in Hf; lia|discriminate].
  - destruct (firstAlt alts (c :: s)) as [m'|] eqn:E.
    + intros _. apply firstAlt_Some in E as [Hin Hst].
      apply startsWith_length in Hst. pose proof (Hf m' Hin) as Hlt.
      assert (Hall : forall m, In m alts ->
                m <> [] /\ (length (f m) <= length m)%nat).
      { intros m0 H0. specialize (Hf m0 H0). split; [|lia].
        intros ->. cbn in Hf. lia. }
      pose proof (replaceAllFrom_length alts f Hall s (length m' - 1)%nat) as Hl.
      rewrite length_app. cbn [length] in *. lia.
    + intros H. specialize (IH H). cbn [length]. lia.
Qed.

Lemma replaceAll_none alts f s :
  execAlts alts s = None -> replaceAll alts f s = s.
Proof.
  unfold replaceAll. induction s as [|c s IH]; cbn [execAlts replaceAllFrom];
    [reflexivity|].
  destruct (firstAlt alts (c :: s)); [discriminate|].
  intros H. now rewrite (IH H).
Qed.

Lemma execAlts_contains alts s :
  execAlts alts s = None <-> forall m, In m alts -> ~ contains m s.
Proof.
  split.
  - intros H m. now apply execAlts_None.
  - intros H. destruct (execAlts alts s) as [m|] eqn:E; [|reflexivity].
    apply execAlts_Some in E as [Hin (i & Hocc & _)].
    exfalso. apply (H m Hin). now exists i.
Qed.

Lemma includes_none alts s :
  (forall q, In q alts -> includes s q = false) -> execAlts alts s = None.
Proof.
  induction s as [|c s IH]; intros H; cbn [execAlts].
  - destruct (firstAlt alts []) as [m|] eqn:E; [|reflexivity].
    apply firstAlt_Some in E as [Hin Hst]. specialize (H m Hin).
    cbn [includes] in H. rewrite Hst in H. discriminate.
  - destruct (firstAlt alts (c :: s)) as [m|] eqn:E.
    + apply firstAlt_Some in E as [Hin Hst]. specialize (H m Hin).
      cbn [includes] in H. rewrite Hst in H. discriminate.
    + apply IH. intros q Hq. specialize (H q Hq). cbn [includes] in H.
      now apply orb_false_iff in H as [_ H].
Qed.

(** ** [unescapeHTML] *)

Local Abbreviation entities := (List.map js ["&lt;"; "&gt;"; "&amp;"]%string).
Local Abbreviation entityChar :=
  (fun matches : jsstring =>
     if bool_decide (matches = js "&lt;") then js "<"
     else if bool_decide (matches = js "&gt;") then js ">"
     else if bool_decide (matches = js "&amp;") then js "&"
     else []).

Lemma unescapeHTML_replaceAll str :
  unescapeHTML str = replaceAll entities entityChar str.
Proof. reflexivity. Qed.

Lemma entityChar_length m :
  In m entities -> (length (entityChar m) = 1 /\ 4 <= length m)%nat.
Proof.
  intros [<-|[<-|[<-|[]]]]; vm_compute; split; (reflexivity || lia).
Qed.

(** X1.  [unescapeHTML] decodes in one pass from left to right: an entity
    [&lt;], [&gt;] or [&amp;] at the head becomes [<], [>] or [&] and the
    decoding goes on behind the entity, so a decoded [&] is never read again
    as the start of an entity; a code unit other than [&] is copied. *)
Theorem unescapeHTML_single_pass (s : jsstring) :
  unescapeHTML (js "&lt;" ++ s) = js "<" ++ unescapeHTML s /\
  unescapeHTML (js "&gt;" ++ s) = js ">" ++ unescapeHTML s /\
  unescapeHTML (js "&amp;" ++ s) = js "&" ++ unescapeHTML s /\
  forall c, (c =? 0x26)%N = false -> unescapeHTML (c :: s) = c :: unescapeHTML s.
Proof.
  rewrite !unescapeHTML_replaceAll.
  assert (Hm : forall m, In m entities ->
            replaceAll entities entityChar (m ++ s)
            = entityChar m ++ replaceAll entities entityChar s).
  { intros m Hin. apply replaceAll_match.
    - destruct Hin as [<-|[<-|[<-|[]]]]; discriminate.
    - destruct Hin as [<-|[<-|[<-|[]]]]; cbn [List.map]; js_eval; cbn;
        now rewrite startsWith_nil. }
  split; [|split; [|split]].
  - apply (Hm (js "&lt;")). now left.
  - apply (Hm (js "&gt;")). right. now left.
  - apply (Hm (js "&amp;")). right. right. now left.
  - intros c Hc. apply replaceAll_copy. cbn [List.map]. js_eval.
    cbn [firstAlt startsWith].
    rewrite N.eqb_sym in Hc. now rewrite Hc.
Qed.

(** X2.  [unescapeHTML] never makes a text longer, and it returns the text
    unchanged exactly when none of [&lt;], [&gt;], [&amp;] occurs in it. *)
Theorem unescapeHTML_fixed (s : jsstring) :
  (length (unescapeHTML s) <= length s)%nat /\
  (unescapeHTML s = s <->
   ~ contains (js "&lt;") s /\ ~ contains (js "&gt;") s /\ ~ contains (js "&amp;") s).
Proof.
  rewrite unescapeHTML_replaceAll. split.
  - assert (Hall : forall m, In m entities ->
              m <> [] /\ (length (entityChar m) <= length m)%nat).
    { intros m Hin. destruct (entityChar_length m Hin) as [H1 H4].
      split; [|lia]. intros ->. cbn in H4. lia. }
    pose proof (replaceAllFrom_length entities entityChar Hall s 0%nat) as H.
    unfold replaceAll. lia.
  - split.
    + intros Hfix. destruct (execAlts entities s) as [m|] eqn:E.
      * exfalso. apply (replaceAll_shrinks entities entityChar) in E.
        -- rewrite Hfix in E. lia.
        -- intros m0 H0. destruct (entityChar_length m0 H0). lia.
      * apply execAlts_contains with (m := js "&lt;") in E as H1; [|now left].
        apply execAlts_contains with (m := js "&gt;") in E as H2; [|right; now left].
        apply execAlts_contains with (m := js "&amp;") in E as H3;
          [|right; right; now left].
        tauto.
    + intros (H1 & H2 & H3). apply replaceAll_none. apply execAlts_contains.
      intros m [<-|[<-|[<-|[]]]]; assumption.
Qed.

Lemma unescapeHTML_nonempty s : s <> [] -> unescapeHTML s <> [].
Proof.
  rewrite unescapeHTML_replaceAll. destruct s as [|c s]; [easy|]. intros _.
  unfold replaceAll. cbn [replaceAllFrom].
  destruct (firstAlt entities (c :: s)) as [m|] eqn:E; [|discriminate].
  apply firstAlt_Some in E as [Hin _].
  destruct (entityChar_length m Hin) as [H1 _].
  intros E0. apply (f_equal (@length _)) in E0. rewrite length_app in E0.
  cbn [length] in E0. lia.
Qed.

(** ** The skill aliases *)

Lemma lineObject_fold (line0 : list jsstring) l : forall acc a,
  fold_left (fun obj str => objectAssign obj {[ str := line0 ]}) l acc !! a
  = if decide (a ∈ l) then Some line0 else acc !! a.
Proof.
  induction l as [|x l IH]; intros acc a; cbn [fold_left].
  - destruct (decide (a ∈ [])) as [H|]; [|reflexivity]. now apply elem_of_nil in H.
  - rewrite IH. unfold objectAssign.
    destruct (decide (a ∈ l)) as [Hl|Hl];
      destruct (decide (a ∈ x :: l)) as [Hx|Hx]; try reflexivity.
    + exfalso. apply Hx. now right.
    + apply elem_of_cons in Hx as [->|Hx]; [|contradiction].
      apply lookup_union_Some_l, lookup_singleton_eq.
    + rewrite lookup_union_r; [reflexivity|].
      apply lookup_singleton_ne. intros ->. apply Hx. now left.
Qed.

Lemma lineObject_lookup line a :
  lineObject line !! a = if decide (a ∈ line) then Some line else None.
Proof. unfold lineObject. rewrite lineObject_fold. now rewrite lookup_empty. Qed.

(** What the merged object holds under a name is a line that lists it, or
    what was there before. *)
Lemma aliasTable_sound t : forall acc a line,
  fold_left objectAssign (List.map lineObject t) acc !! a = Some line ->
  In line t /\ In a line \/ acc !! a = Some line.
Proof.
  induction t as [|l t IH]; intros acc a line; cbn [List.map fold_left];
    [now right|].
  intros H. apply IH in H as [[Hin Ha]|H]; [left; split; [now right|exact Ha]|].
  unfold objectAssign in H. apply lookup_union_Some_raw in H as [H|[_ H]];
    [|now right].
  rewrite lineObject_lookup in H. destruct (decide (a ∈ l)) as [Hl|]; [|discriminate].
  injection H as <-. left. split; [now left|now apply list_elem_of_In].
Qed.

Lemma aliasTable_mono t : forall acc a,
  is_Some (acc !! a) ->
  is_Some (fold_left objectAssign (List.map lineObject t) acc !! a).
Proof.
  induction t as [|l t IH]; intros acc a H; cbn [List.map fold_left]; [exact H|].
  apply IH. unfold objectAssign. rewrite lookup_union_is_Some. now right.
Qed.

Lemma aliasTable_complete t : forall acc a line,
  In line t -> In a line ->
  is_Some (fold_left objectAssign (List.map lineObject t) acc !! a).
Proof.
  induction t as [|l t IH]; intros acc a line; cbn [List.map fold_left]; [easy|].
  intros [->|Hin] Ha; [|now apply (IH _ a line)].
  apply aliasTable_mono. unfold objectAssign. rewrite lookup_union_is_Some. left.
  rewrite lineObject_lookup. apply list_elem_of_In in Ha.
  destruct (decide (a ∈ line)); [now eexists|contradiction].
Qed.

Lemma linesDisjoint_unique t l l' a :
  linesDisjoint t = true -> In l t -> In l' t -> In a l -> In a l' -> l = l'.
Proof.
  unfold linesDisjoint. rewrite forallb_forall. intros H Hl Hl' Ha Ha'.
  specialize (H l Hl). rewrite forallb_forall in H. specialize (H l' Hl').
  rewrite forallb_forall in H. specialize (H a Ha).
  assert (E : existsb (fun b => bool_decide (a = b)) l' = true).
  { apply existsb_exists. exists a. split; [exact Ha'|now apply bool_decide_eq_true]. }
  rewrite E in H. cbn in H. now apply bool_decide_eq_true in H.
Qed.

Lemma skillAlias_disjoint : linesDisjoint skillAlias = true.
Proof. vm_compute. reflexivity. Qed.

(** X3.  [skillAliasMap] has an own entry exactly for the names listed in
    [skillAlias], and the entry of a name is the line that lists it; so every
    name of the line found under one name leads to that same line. *)
Theorem skillAliasMap_lookup :
  (forall a line,
     skillAliasMap !! a = Some line <-> In line skillAlias /\ In a line) /\
  (forall a b line,
     skillAliasMap !! a = Some line -> In b line -> skillAliasMap !! b = Some line).
Proof.
  assert (H1 : forall a line,
            skillAliasMap !! a = Some line <-> In line skillAlias /\ In a line).
  { intros a line. unfold skillAliasMap. split.
    - intros H. apply aliasTable_sound in H as [H|H]; [exact H|].
      now rewrite lookup_empty in H.
    - intros [Hin Ha].
      destruct (aliasTable_complete skillAlias ∅ a line Hin Ha) as [line' E].
      rewrite E. f_equal.
      apply aliasTable_sound in E as [[Hin' Ha']|E]; [|now rewrite lookup_empty in E].
      exact (linesDisjoint_unique _ _ _ a skillAlias_disjoint Hin' Hin Ha' Ha). }
  split; [exact H1|].
  intros a b line H Hb. apply H1. apply H1 in H as [Hin _]. now split.
Qed.

(** ** The shorthands of the parser *)

Lemma match_rbrp_sound tok g :
  Forall (fun c => isWhiteSpace c = false) tok ->
  match_rbrp tok = Some g -> isBonusPenaltyToken tok.
Proof.
  intros Hs. destruct tok as [|r [|t rest]]; [discriminate|discriminate|].
  cbn [match_rbrp].
  destruct ((r =? 0x72) && ((t =? 0x62) || (t =? 0x70)))%N eqn:E; [|discriminate].
  apply Forall_cons in Hs as [_ Hs]. apply Forall_cons in Hs as [_ Hs].
  rewrite (span_space_id rest Hs). cbn [snd].
  pose proof (span_app_eq isDigit rest) as Eapp.
  pose proof (span_fst_Forall isDigit rest) as Hd.
  destruct (span isDigit rest) as [ds rest2]. cbn [fst snd] in Eapp, Hd.
  destruct rest2; [|discriminate]. intros _. rewrite app_nil_r in Eapp. subst ds.
  exists t, rest. split; [|split; [lia|exact Hd]].
  js_eval. cbn [app]. f_equal. lia.
Qed.

Section ParserShorthands.

Variable Unified_Ideograph : N -> bool.
Variable inexact : jsstring -> Z -> jsstring.

Hypothesis ideograph_not_ascii :
  forall c, (c < 0x80)%N -> Unified_Ideograph c = false.

Local Abbreviation parseFullExp := (parseFullExp Unified_Ideograph inexact).
Local Abbreviation splitsAt := (splitsAt Unified_Ideograph).
Local Abbreviation beginsWithSplit := (beginsWithSplit Unified_Ideograph).

(** X4.  The tokens [d], [r], [rd] and [ra], alone or followed by a
    descriptor that begins with a CJK ideograph or white space, stand for the
    percentile die: [parseFullExp] returns [d%] and the descriptor
    unchanged. *)
Theorem parse_default_die (tok desc : jsstring) :
  tok = js "d" \/ tok = js "r" \/ tok = js "rd" \/ tok = js "ra" ->
  desc = [] \/ beginsWithSplit desc = true ->
  parseFullExp (tok ++ desc) = (js "d%", desc).
Proof using ideograph_not_ascii.
  intros Htok Hdesc.
  assert (Ha : asciiToken tok).
  { destruct Htok as [-> | [-> | [-> | ->]]]; js_eval; now repeat constructor. }
  pose proof (splitsAt_ascii _ ideograph_not_ascii _ desc Ha Hdesc) as Hsplit.
  parse_split Hsplit.
  assert (Hsc : forall x, x = js "sc" \/ x = js "SC" ->
            bool_decide (tok ++ desc = x) = false).
  { intros x Hx. apply bool_decide_eq_false_2.
    destruct Htok as [-> | [-> | [-> | ->]]]; destruct Hx as [->| ->]; js_eval;
      discriminate. }
  rewrite !Hsc by auto. cbn [orb].
  destruct Htok as [-> | [-> | [-> | ->]]]; js_eval;
    repeat (rewrite bool_decide_eq_false_2 by discriminate);
    rewrite ?bool_decide_eq_true_2 by reflexivity; cbn [orb];
    rewrite ?orb_true_r; reflexivity.
Qed.

(** X5.  A token [r] followed by a non-empty run [x] of ASCII characters
    without white space, other than the shorthands [rd], [ra] and the
    bonus/penalty tokens, loses its [r]: [parseFullExp] returns [x] as the
    expression ([rd20] rolls [d20]) and the descriptor unchanged. *)
Theorem parse_r_prefix (x desc : jsstring) :
  asciiToken x ->
  x <> [] -> x <> js "d" -> x <> js "a" ->
  ~ isBonusPenaltyToken (js "r" ++ x) ->
  desc = [] \/ beginsWithSplit desc = true ->
  parseFullExp (js "r" ++ x ++ desc) = (x, desc).
Proof using ideograph_not_ascii.
  intros Hx Hne Hd Ha Hbp Hdesc.
  assert (Htok : asciiToken (js "r" ++ x)).
  { js_eval. cbn [app]. constructor; [easy|exact Hx]. }
  assert (Hs : Forall (fun c => isWhiteSpace c = false) x).
  { revert Hx. apply List.Forall_impl. now intros c [_ H]. }
  pose proof (splitsAt_ascii _ ideograph_not_ascii _ desc Htok Hdesc) as Hsplit.
  rewrite <- app_assoc in Hsplit.
  parse_split Hsplit. revert Hbp Hd Ha. js_eval. cbn [app]. intros Hbp Hd Ha.
  repeat (rewrite bool_decide_eq_false_2 by congruence). cbn [orb].
  destruct (match_rbrp (0x72%N :: x)) as [g|] eqn:Eb.
  { exfalso. apply Hbp. apply (match_rbrp_sound _ g); [|exact Eb].
    constructor; [reflexivity|exact Hs]. }
  cbn [outcomeOf match_ww N.eqb Pos.eqb startsWith andb].
  rewrite startsWith_nil. change (sliceFrom (0x72%N :: x) 1) with x.
  now rewrite (trim_id x Hs).
Qed.

Lemma reaction_expression_splits (instruction : jsstring) :
  splitsAt (js "d% " ++ instruction) (js "d%") (js " " ++ instruction).
Proof using ideograph_not_ascii.
  assert (Ha : asciiToken (js "d%")) by (js_eval; now repeat constructor).
  assert (Hb : beginsWithSplit (js " " ++ instruction) = true).
  { js_eval. cbn [app]. unfold_split.
    destruct instruction as [|d s]; cbn [codePoints];
      change (isHighSurrogate 32) with false; cbn [andb];
      change (isWhiteSpace 32) with true; apply orb_true_r. }
  exact (splitsAt_ascii _ ideograph_not_ascii _ _ Ha (or_intror Hb)).
Qed.

(** X6.  The expression a reaction rolls, [d% ] followed by the detected
    instruction, always parses to the percentile die [d%] with the
    instruction, after one space, as its descriptor. *)
Theorem parse_reaction_expression (instruction : jsstring) :
  parseFullExp (js "d% " ++ instruction) = (js "d%", js " " ++ instruction).
Proof using ideograph_not_ascii.
  pose proof (reaction_expression_splits instruction) as Hsplit.
  parse_split Hsplit. js_eval. cbn [app].
  repeat (rewrite bool_decide_eq_false_2 by discriminate). reflexivity.
Qed.

End ParserShorthands.

Lemma parse_default_die_witness :
  parse (js "ra 侦察") = (js "d%", js " 侦察") /\
  parse (js "rd") = (js "d%", []).
Proof.
  split.
  - apply (parse_default_die ideograph15 noInexact ideograph15_not_ascii
             (js "ra") (js " 侦察")).
    + right. right. right. reflexivity.
    + right. reflexivity.
  - apply (parse_default_die ideograph15 noInexact ideograph15_not_ascii
             (js "rd") []).
    + right. right. left. reflexivity.
    + left. reflexivity.
Defined.

Lemma parse_r_prefix_witness :
  parse (js "rd20") = (js "d20", []) /\
  parse (js "r3d6 伤害") = (js "3d6", js " 伤害").
Proof.
  split.
  - apply (parse_r_prefix ideograph15 noInexact ideograph15_not_ascii
             (js "d20") []).
    + vm_compute. repeat constructor.
    + discriminate.
    + discriminate.
    + discriminate.
    + intros (t & ds & E & [-> | ->] & _); revert E; js_eval; discriminate.
    + left. reflexivity.
  - apply (parse_r_prefix ideograph15 noInexact ideograph15_not_ascii
             (js "3d6") (js " 伤害")).
    + vm_compute. repeat constructor.
    + discriminate.
    + discriminate.
    + discriminate.
    + intros (t & ds & E & [-> | ->] & _); revert E; js_eval; discriminate.
    + right. reflexivity.
Defined.

Lemma parse_reaction_expression_witness :
  parse (js "d% 困难侦察") = (js "d%", js " 困难侦察").
Proof.
  exact (parse_reaction_expression ideograph15 noInexact ideograph15_not_ascii
           (js "困难侦察")).
Defined.

(** ** The text of a decision and its success *)

Lemma endsWith_app_r x y p :
  (length p <= length y)%nat -> endsWith (x ++ y) p = endsWith y p.
Proof.
  unfold endsWith. rewrite rev_app_distr. intros H.
  rewrite <- (length_rev p), <- (length_rev y) in H.
  generalize dependent (rev y). generalize (rev x). generalize (rev p).
  clear. induction l as [|a p IH]; intros rx ry H.
  - now rewrite !startsWith_nil.
  - destruct ry as [|b ry]; [cbn in H; lia|]. cbn [app startsWith].
    rewrite IH; [reflexivity|cbn in H; lia].
Qed.

Lemma endsWith_space x : endsWith (x ++ js " ") (js "成功") = false.
Proof. unfold endsWith. rewrite rev_app_distr. js_eval. reflexivity. Qed.

Lemma endsWith_success_app a b :
  endsWith (a ++ b ++ js " 成功") (js "成功") = true.
Proof.
  unfold endsWith. rewrite !rev_app_distr. js_eval. cbn [rev app startsWith].
  rewrite ?N.eqb_refl. cbn [andb]. rewrite ?startsWith_nil. reflexivity.
Qed.

Lemma endsWith_failure_app a b :
  endsWith (a ++ b ++ js " 失败") (js "成功") = false.
Proof. unfold endsWith. rewrite !rev_app_distr. js_eval. reflexivity. Qed.

Lemma compareDesc_endsWith roll x :
  endsWith (compareDesc roll x) (js "成功") = leNumber roll x.
Proof.
  unfold compareDesc. destruct (leNumber roll x);
    [apply endsWith_success_app|apply endsWith_failure_app].
Qed.

Lemma compareDesc_length roll x : (2 <= length (compareDesc roll x))%nat.
Proof.
  unfold compareDesc. destruct (leNumber roll x); rewrite !length_app;
    js_eval; cbn [length]; lia.
Qed.

Lemma resultDesc_length card desc roll r :
  decideResult_v1 card desc roll = Some r -> (2 <= length (resultDesc r))%nat.
Proof.
  unfold decideResult_v1. destruct (trim desc) as [|c0 t0]; [discriminate|].
  destruct card as [card|]; [|discriminate].
  destruct (bool_decide _ || bool_decide _ || bool_decide _).
  { intros [= <-]. apply compareDesc_length. }
  destruct (bool_decide _).
  { intros [= <-]. apply compareDesc_length. }
  destruct (bool_decide _).
  { intros [= <-]. apply compareDesc_length. }
  destruct (orValue _ _) as [[target|text]|]; [| |discriminate].
  - destruct (target =? 0); [discriminate|]. intros [= <-]. cbn [resultDesc].
    destruct (roll =? 1); [vm_compute; lia|].
    destruct (roll >? 95); [vm_compute; lia|]. apply compareDesc_length.
  - intros [= <-]. cbn [resultDesc].
    destruct (roll =? 1); [vm_compute; lia|].
    destruct (roll >? 95); [vm_compute; lia|].
    match goal with
    | |- context [if ?b then js "> NaN 失败" else _] => destruct b
    end; [vm_compute; lia|].
    cbn [length]. lia.
Qed.

Lemma endsWith_NaN : endsWith (js "> NaN 失败") (js "成功") = false.
Proof. vm_compute. reflexivity. Qed.

(** X7.  The text the newer [decideResult] returns ends in 成功 exactly when
    its [success] flag is set, and in 失败 exactly when it is not: the test
    the older [tryRollDice] made on the text agrees with the flag. *)
Theorem decideResult_desc_agrees (cardEntry : ICocCardEntry) (roll : Z) :
  endsWith (desc (decideResult cardEntry roll)) (js "成功")
  = success (decideResult cardEntry roll) /\
  endsWith (desc (decideResult cardEntry roll)) (js "失败")
  = negb (success (decideResult cardEntry roll)).
Proof.
  unfold decideResult.
  destruct (roll =? 1); [split; reflexivity|].
  destruct ((baseValue cardEntry <? 50) && (roll >? 95)
            || (baseValue cardEntry >=? 50) && (roll =? 100));
    [split; reflexivity|].
  destruct (roll <=? value cardEntry); cbn [desc success negb]; unfold endsWith;
    rewrite !rev_app_distr; js_eval; cbn [rev app startsWith];
    rewrite ?N.eqb_refl; cbn [andb]; rewrite ?startsWith_nil; split; reflexivity.
Qed.

(** X8.  For rolls of a percentile die (1 to 100), the newer [decideResult]
    is monotone: a success stays a success when the roll gets lower and the
    value of the entry gets higher, the base value being the same. *)
Theorem decideResult_monotone (e e' : ICocCardEntry) (roll roll' : Z) :
  baseValue e' = baseValue e ->
  value e <= value e' ->
  1 <= roll' <= roll ->
  roll <= 100 ->
  success (decideResult e roll) = true ->
  success (decideResult e' roll') = true.
Proof.
  intros Hb Hv Hr Hmax. unfold decideResult. rewrite Hb.
  destruct (Z.eqb_spec roll 1) as [->|H1].
  - intros _. replace roll' with 1 by lia. reflexivity.
  - destruct (Z.eqb_spec roll' 1) as [|H1']; [reflexivity|].
    destruct ((baseValue e <? 50) && (roll >? 95)
              || (baseValue e >=? 50) && (roll =? 100)) eqn:Ew; [discriminate|].
    destruct (Z.leb_spec roll (value e)) as [Hle|]; [|discriminate]. intros _.
    assert ((baseValue e <? 50) && (roll' >? 95)
            || (baseValue e >=? 50) && (roll' =? 100) = false) as -> by lia.
    destruct (Z.leb_spec roll' (value e')); [reflexivity|lia].
Qed.

Lemma decideResult_monotone_witness :
  success (decideResult {| baseValue := 60; value := 80 |} 30) = true.
Proof.
  apply (decideResult_monotone {| baseValue := 60; value := 60 |}
           {| baseValue := 60; value := 80 |} 50 30).
  - reflexivity.
  - vm_compute. discriminate.
  - split; vm_compute; discriminate.
  - vm_compute. discriminate.
  - reflexivity.
Defined.

(** ** Difficulty qualifiers in the older decider *)

(** White space in front of a text that holds none is all [trim] removes. *)
Lemma trim_pad pad s :
  Forall (fun c => isWhiteSpace c = true) pad ->
  Forall (fun c => isWhiteSpace c = false) s ->
  trim (pad ++ s) = s.
Proof.
  intros Hp Hs. rewrite <- (trim_id s Hs) at 2. unfold trim. f_equal.
  unfold trimStart. rewrite (span_snd_app _ pad s Hp).
  now rewrite (span_space_id s Hs).
Qed.

Section Difficulty.

Variable card : ICard.
Variable name : jsstring.
Variable pad : jsstring.

(** A descriptor: white space, a qualifier or none, and a skill name without
    white space that holds no qualifier of its own. *)
Hypothesis pad_space : Forall (fun c => isWhiteSpace c = true) pad.
Hypothesis name_no_space : Forall (fun c => isWhiteSpace c = false) name.
Hypothesis name_not_empty : name <> [].
Hypothesis name_plain :
  forall q, In q difficultyRegex -> includes name q = false.

Lemma qualified_trim q :
  trim (pad ++ qualifierText q ++ name) = qualifierText q ++ name.
Proof using pad_space name_no_space.
  apply trim_pad; [exact pad_space|]. apply Forall_app. split; [|exact name_no_space].
  destruct q as [[]|]; cbn [qualifierText]; js_eval; now repeat constructor.
Qed.

Lemma qualified_flags q :
  includes (qualifierText q ++ name) (js "困难")
  = match q with Some Hard => true | _ => false end /\
  includes (qualifierText q ++ name) (js "极难")
  || includes (qualifierText q ++ name) (js "极限")
  = match q with Some Extreme | Some Limit => true | _ => false end.
Proof using name_plain.
  pose proof (name_plain (js "困难") ltac:(now left)) as H1.
  pose proof (name_plain (js "极难") ltac:(right; now left)) as H2.
  pose proof (name_plain (js "极限") ltac:(right; right; now left)) as H3.
  revert H1 H2 H3. destruct q as [[]|]; cbn [qualifierText]; js_eval; cbn [app];
    intros H1 H2 H3; cbn [includes startsWith N.eqb Pos.eqb andb orb];
    rewrite ?startsWith_nil, ?H1, ?H2, ?H3; cbn [andb orb];
    rewrite ?H1, ?H2, ?H3, ?andb_false_r; split; reflexivity.
Qed.

Lemma qualified_skill q :
  replaceAll difficultyRegex (fun _ => []) (qualifierText q ++ name) = name.
Proof using name_plain.
  assert (Hn : replaceAll difficultyRegex (fun _ => []) name = name)
    by (apply replaceAll_none, includes_none, name_plain).
  destruct q as [q|]; [|exact Hn].
  rewrite replaceAll_match; [now rewrite Hn|now destruct q|].
  unfold difficultyRegex. cbn [List.map].
  destruct q; cbn [qualifierText]; js_eval;
    cbn [app firstAlt startsWith N.eqb Pos.eqb andb];
    rewrite ?startsWith_nil; reflexivity.
Qed.

(** A name with a qualifier in front is none of the names checked apart. *)
Lemma qualified_ordinary q :
  (q = None -> isSpecialCheck name = false) ->
  isSpecialCheck (qualifierText q ++ name) = false.
Proof using Type.
  destruct q as [q|]; [intros _|intros H; now apply H]. unfold isSpecialCheck.
  destruct q; cbn [qualifierText]; js_eval; cbn [app];
    repeat (rewrite bool_decide_eq_false_2 by discriminate); reflexivity.
Qed.

(** The key the older decider looks up for [name], and the value it finds:
    [card.props[key] || card.skills[key]]. *)
Local Abbreviation key := (if bool_decide (name = js "侦查") then js "侦察" else name).
Local Abbreviation rating :=
  (orValue (propertyRead (props card) key) (propertyRead (skills card) key)).

Lemma qualified_decide q roll :
  (q = None -> isSpecialCheck name = false) ->
  decideResult_v1 (Some card) (pad ++ qualifierText q ++ name) roll
  = match rating with
    | None => None
    | Some (NumberValue target) =>
      if target =? 0 then None
      else Some {| resultDesc :=
                     if roll =? 1 then js "大成功"
                     else if roll >? 95 then js "大失败"
                     else compareDesc roll (Some (target / difficultyDivisor q));
                   skill := key; cardName := basic_name card |}
    | Some (MemberValue text) =>
      Some {| resultDesc :=
                if roll =? 1 then js "大成功"
                else if roll >? 95 then js "大失败"
                else
                  match q with
                  | Some _ => js "> NaN 失败"
                  | None => js "> " ++ text ++ js " 失败"
                  end;
              skill := key; cardName := basic_name card |}
    end.
Proof using All.
  intros Hq. unfold decideResult_v1. rewrite qualified_trim.
  pose proof (qualified_ordinary q Hq) as Ho. unfold isSpecialCheck in Ho.
  apply orb_false_iff in Ho as [Ho H5]. apply orb_false_iff in Ho as [Ho H4].
  destruct (qualifierText q ++ name) as [|c0 t0] eqn:Eq.
  { destruct q as [[]|]; [discriminate Eq..|]. now destruct name_not_empty. }
  rewrite Ho, H4, H5. rewrite <- Eq.
  destruct (qualified_flags q) as [-> ->]. rewrite qualified_skill.
  destruct rating as [[target|text]|]; [| |reflexivity].
  - destruct (target =? 0); [reflexivity|]. f_equal. f_equal.
    destruct q as [[]|]; cbn [difficultyDivisor]; rewrite ?Z.div_1_r; reflexivity.
  - f_equal. f_equal. destruct q as [[]|]; reflexivity.
Qed.

(** When the text of an ordinary decision ends in 成功. *)
Lemma rating_succeeds roll target d :
  endsWith
    (if roll =? 1 then js "大成功"
     else if roll >? 95 then js "大失败"
     else compareDesc roll (Some (target / d)))
    (js "成功")
  = (roll =? 1) || negb (roll >? 95) && (roll <=? target / d).
Proof.
  destruct (roll =? 1); [reflexivity|]. destruct (roll >? 95); [reflexivity|].
  apply compareDesc_endsWith.
Qed.

Lemma member_succeeds roll (q : option qualifier) text :
  endsWith
    (if roll =? 1 then js "大成功"
     else if roll >? 95 then js "大失败"
     else
       match q with
       | Some _ => js "> NaN 失败"
       | None => js "> " ++ text ++ js " 失败"
       end)
    (js "成功")
  = (roll =? 1).
Proof.
  destruct (roll =? 1); [reflexivity|]. destruct (roll >? 95); [reflexivity|].
  destruct q; [apply endsWith_NaN|apply endsWith_failure_app].
Qed.

(** X9.  An ordinary check of the older decider, on a descriptor made of
    white space, a qualifier or none, and a plain skill name that is not one
    of the names checked apart.  The name (侦察 for 侦查) is read on [props]
    and, when that gives nothing or 0, on [skills]; a read finds the own
    rating, or else the member the object inherits from [Object.prototype]
    under such names as [constructor] and [toString].  The decision text ends
    in 成功 exactly when the value read is a non-zero rating and the roll is
    1, or at most 95 and at most the rating divided by 5 for 极难 and 极限, by
    2 for 困难, by 1 without qualifier, rounded down; or the value is an
    inherited member and the roll is 1. *)
Theorem qualified_check (q : option qualifier) (roll : Z) :
  isSpecialCheck name = false ->
  endsWithSuccess
    (decideResult_v1 (Some card) (pad ++ qualifierText q ++ name) roll) = true <->
  exists value,
    orValue
      (propertyRead (props card)
         (if bool_decide (name = js "侦查") then js "侦察" else name))
      (propertyRead (skills card)
         (if bool_decide (name = js "侦查") then js "侦察" else name))
    = Some value /\
    match value with
    | NumberValue target =>
      target <> 0 /\
      (roll = 1 \/ roll <= 95 /\ roll <= target / difficultyDivisor q)
    | MemberValue _ => roll = 1
    end.
Proof using All.
  intros Ho. rewrite qualified_decide by (intros _; exact Ho).
  destruct rating as [[target|text]|].
  - destruct (Z.eqb_spec target 0) as [->|Hne].
    { cbn [endsWithSuccess]. split; [discriminate|].
      intros (v & E & H). apply Some_eq_inv in E. subst v. now destruct H. }
    cbn [endsWithSuccess resultDesc]. rewrite rating_succeeds. split.
    + intros H. exists (NumberValue target). split; [reflexivity|].
      split; [exact Hne|]. lia.
    + intros (v & E & H). apply Some_eq_inv in E. subst v. lia.
  - cbn [endsWithSuccess resultDesc]. rewrite member_succeeds. split.
    + intros H. exists (MemberValue text). split; [reflexivity|]. lia.
    + intros (v & E & H). apply Some_eq_inv in E. subst v. lia.
  - cbn [endsWithSuccess]. split; [discriminate|]. now intros (v & H & _).
Qed.

(** X10.  For a roll of at least 1, the older decider orders the
    difficulties of an ordinary check: a check that succeeds as 极难 succeeds
    as 困难, one that succeeds as 困难 succeeds without qualifier, and 极限
    decides as 极难. *)
Theorem difficulty_ordering (roll : Z) :
  isSpecialCheck name = false ->
  1 <= roll ->
  let succeeds q :=
    endsWithSuccess
      (decideResult_v1 (Some card) (pad ++ qualifierText q ++ name) roll) in
  (succeeds (Some Extreme) = true -> succeeds (Some Hard) = true) /\
  (succeeds (Some Hard) = true -> succeeds None = true) /\
  succeeds (Some Limit) = succeeds (Some Extreme).
Proof using All.
  intros Ho Hroll. cbv beta zeta. rewrite !qualified_decide by (intros _; exact Ho).
  destruct rating as [[target|text]|]; [| |now repeat split].
  - destruct (target =? 0); [now repeat split|].
    cbn [endsWithSuccess resultDesc difficultyDivisor].
    destruct (roll =? 1); [now repeat split|].
    destruct (roll >? 95); [now repeat split|].
    rewrite !compareDesc_endsWith. cbn [leNumber].
    repeat split; intros H; Z.to_euclidean_division_equations; lia.
  - cbn [endsWithSuccess resultDesc].
    destruct (roll =? 1); [now repeat split|].
    destruct (roll >? 95); [now repeat split|].
    rewrite endsWith_NaN, endsWith_failure_app. now repeat split.
Qed.

(** X26.  A qualifier in front of a name always leads to the ordinary
    lookup, also for the names 理智, sc, SC, 幸运 and 灵感 that are checked
    apart when they stand alone: the sanity, the luck and the 智力 of the
    card are not consulted, and the older decider returns [null] exactly when
    the read of the name itself, on [props] and then on [skills], gives
    nothing or 0: the name is no own key with a non-zero rating and no member
    inherited from [Object.prototype]. *)
Theorem qualified_name_lookup (q : qualifier) (roll : Z) :
  decideResult_v1 (Some card) (pad ++ qualifierText (Some q) ++ name) roll = None <->
  orValue
    (propertyRead (props card)
       (if bool_decide (name = js "侦查") then js "侦察" else name))
    (propertyRead (skills card)
       (if bool_decide (name = js "侦查") then js "侦察" else name))
  = None \/
  orValue
    (propertyRead (props card)
       (if bool_decide (name = js "侦查") then js "侦察" else name))
    (propertyRead (skills card)
       (if bool_decide (name = js "侦查") then js "侦察" else name))
  = Some (NumberValue 0).
Proof using All.
  rewrite qualified_decide by discriminate.
  destruct rating as [[target|text]|].
  - destruct (Z.eqb_spec target 0) as [->|Hne].
    + split; [now right|reflexivity].
    + split; [discriminate|]. intros [H|H]; [discriminate|].
      apply Some_eq_inv in H. injection H as H. contradiction.
  - split; [discriminate|]. intros [H|H]; discriminate.
  - split; [now left|reflexivity].
Qed.

End Difficulty.

Lemma plain_name_3 :
  Forall (fun c => isWhiteSpace c = true) (js " ") /\
  Forall (fun c => isWhiteSpace c = false) (js "侦察") /\
  (forall q, In q difficultyRegex -> includes (js "侦察") q = false) /\
  isSpecialCheck (js "侦察") = false.
Proof.
  split; [vm_compute; repeat constructor|].
  split; [vm_compute; repeat constructor|].
  split; [|vm_compute; reflexivity].
  intros q [<-|[<-|[<-|[]]]]; vm_compute; reflexivity.
Qed.

Lemma plain_name_sanity :
  Forall (fun c => isWhiteSpace c = false) (js "理智") /\
  (forall q, In q difficultyRegex -> includes (js "理智") q = false).
Proof.
  split; [vm_compute; repeat constructor|].
  intros q [<-|[<-|[<-|[]]]]; vm_compute; reflexivity.
Qed.

Lemma plain_name_constructor :
  Forall (fun c => isWhiteSpace c = false) (js "constructor") /\
  (forall q, In q difficultyRegex -> includes (js "constructor") q = false) /\
  isSpecialCheck (js "constructor") = false.
Proof.
  split; [vm_compute; repeat constructor|].
  split; [|vm_compute; reflexivity].
  intros q [<-|[<-|[<-|[]]]]; vm_compute; reflexivity.
Qed.

Lemma plain_name_toString :
  Forall (fun c => isWhiteSpace c = false) (js "toString") /\
  (forall q, In q difficultyRegex -> includes (js "toString") q = false).
Proof.
  split; [vm_compute; repeat constructor|].
  intros q [<-|[<-|[<-|[]]]]; vm_compute; reflexivity.
Qed.

Lemma qualified_check_witness :
  endsWithSuccess (decideResult_v1 (Some exampleCard) (js " 困难侦察") 30) = true /\
  endsWithSuccess (decideResult_v1 (Some exampleCard) (js " 困难侦察") 31) = false /\
  endsWithSuccess (decideResult_v1 (Some exampleCard) (js " constructor") 1) = true.
Proof.
  destruct plain_name_3 as (Hp & Hs & Hq & Ho).
  destruct plain_name_constructor as (Hs' & Hq' & Ho').
  pose proof (fun roll =>
                qualified_check exampleCard (js "侦察") (js " ") Hp Hs
                  ltac:(discriminate) Hq (Some Hard) roll Ho) as H.
  pose proof (qualified_check exampleCard (js "constructor") (js " ") Hp Hs'
                ltac:(discriminate) Hq' None 1 Ho') as H'.
  split; [|split].
  - apply (H 30). exists (NumberValue 60). split; [vm_compute; reflexivity|].
    split; [discriminate|]. right. split; vm_compute; discriminate.
  - destruct (endsWithSuccess
                (decideResult_v1 (Some exampleCard) (js " 困难侦察") 31)) eqn:E;
      [|reflexivity].
    apply (H 31) in E as (v & Hv & Hr). exfalso.
    assert (Ev : v = NumberValue 60) by (revert Hv; vm_compute; congruence).
    subst v. destruct Hr as [_ [Hr|[_ Hr]]]; [discriminate Hr|].
    revert Hr. vm_compute. intros Hr. now apply Hr.
  - apply H'.
    exists (MemberValue (js "function Object() { [native code] }")).
    split; vm_compute; reflexivity.
Defined.

Lemma difficulty_ordering_witness :
  endsWithSuccess (decideResult_v1 (Some exampleCard) (js " 极难侦察") 12) = true /\
  endsWithSuccess (decideResult_v1 (Some exampleCard) (js " 困难侦察") 12) = true /\
  endsWithSuccess (decideResult_v1 (Some exampleCard) (js " 侦察") 12) = true.
Proof.
  destruct plain_name_3 as (Hp & Hs & Hq & Ho).
  destruct (difficulty_ordering exampleCard (js "侦察") (js " ") Hp Hs
              ltac:(discriminate) Hq 12 Ho ltac:(vm_compute; discriminate))
    as (H1 & H2 & _).
  assert (E : endsWithSuccess
                (decideResult_v1 (Some exampleCard) (js " 极难侦察") 12) = true)
    by (vm_compute; reflexivity).
  split; [exact E|]. split; [exact (H1 E)|exact (H2 (H1 E))].
Defined.

Lemma qualified_name_lookup_witness :
  decideResult_v1 (Some exampleCard) (js " 困难理智") 50 = None /\
  option_map resultDesc (decideResult_v1 (Some exampleCard) (js " 理智") 50)
  = Some (js "≤ 99 成功") /\
  bool_decide
    (decideResult_v1 (Some exampleCard) (js " 困难toString") 50 = None) = false /\
  option_map resultDesc
    (decideResult_v1 (Some exampleCard) (js " 困难toString") 50)
  = Some (js "> NaN 失败").
Proof.
  destruct plain_name_3 as (Hp & _). destruct plain_name_sanity as (Hs & Hq).
  destruct plain_name_toString as (Hs' & Hq').
  split; [|split; [vm_compute; reflexivity|split; [|vm_compute; reflexivity]]].
  - apply (qualified_name_lookup exampleCard (js "理智") (js " ") Hp Hs
             ltac:(discriminate) Hq Hard 50).
    left. vm_compute. reflexivity.
  - apply bool_decide_eq_false_2. intros E.
    apply (qualified_name_lookup exampleCard (js "toString") (js " ") Hp Hs'
             ltac:(discriminate) Hq' Hard 50) in E.
    revert E. vm_compute. intros [E|E]; discriminate E.
Defined.

(** ** The handlers of the older generation *)

(** X11.  The older [handleGuildMessage] reaches [tryRollDice] only for a
    command: the trimmed text starts with the mention of the bot and a space,
    or with one of the markers [.] and [。]; and the expression it hands over
    is never empty. *)
Theorem guild_message_v1_command
  (bot : option jsstring) (msg : IMessage) (fullExp : jsstring) :
  handleGuildMessage_v1 bot msg = Some fullExp ->
  fullExp <> [] /\
  exists c,
    content msg = Some c /\
    (startsWith (trim c) (mention bot ++ js " ") = true \/
     startsWithMarker (trim c) = true).
Proof.
  unfold handleGuildMessage_v1. destruct (content msg) as [c|]; [|discriminate].
  destruct (trim c) as [|c0 t0] eqn:Et; [discriminate|]. rewrite <- Et.
  destruct (startsWith (trim c) (mention bot ++ js " ")) eqn:Em.
  - destruct (trim (removeFirst _ _)) as [|c1 t1]; [discriminate|].
    intros H. apply Some_eq_inv in H. subst fullExp.
    split; [now apply unescapeHTML_nonempty|]. exists c. split; [reflexivity|now left].
  - destruct (startsWithMarker (trim c)) eqn:Ed; [|discriminate].
    destruct (trim (sliceFrom _ _)) as [|c1 t1]; [discriminate|].
    intros H. apply Some_eq_inv in H. subst fullExp.
    split; [now apply unescapeHTML_nonempty|]. exists c. split; [reflexivity|now right].
Qed.

Lemma guild_message_v1_command_witness :
  exists c,
    content (exampleMessage ".d100 &lt;侦察&gt;" None) = Some c /\
    (startsWith (trim c) (mention (Some (js "bot")) ++ js " ") = true \/
     startsWithMarker (trim c) = true).
Proof.
  apply (guild_message_v1_command (Some (js "bot"))
           (exampleMessage ".d100 &lt;侦察&gt;" None) (js "d100 <侦察>")).
  vm_compute. reflexivity.
Defined.

Lemma reply_truthy x rest :
  truthy (Some (x ++ js " 🎲 " ++ rest)) = Some (x ++ js " 🎲 " ++ rest).
Proof. destruct x; [js_eval|]; reflexivity. Qed.

Ltac unfold_handleDirectMessage_v1 := unfold handleDirectMessage_v1.
Ltac unfold_handlers_v1 :=
  unfold tryRollDice_v1, handleGuildMessage_v1_sends, handleDirectMessage_v1,
    handleGuildReactions_v1, sendDiceMessage.

Section HandlerFacts_v1.

Variable Unified_Ideograph : N -> bool.
Variable inexact : jsstring -> Z -> jsstring.
Variable getCard : jsstring -> jsstring -> option ICard.
Variable findGuildUser :
  jsstring -> jsstring -> option (option jsstring * option jsstring).
Variable postMessage :
  jsstring -> jsstring -> jsstring -> option (jsstring * jsstring).
Variable DiceRoll : jsstring -> option (Z * jsstring).

(** The roll and the reaction handler with the dice library left open. *)
Local Abbreviation tryRollDiceWith_v1 :=
  (tryRollDice_v1 Unified_Ideograph inexact getCard findGuildUser).
Local Abbreviation handleGuildReactionsWith_v1 :=
  (handleGuildReactions_v1 Unified_Ideograph inexact getCard findGuildUser
     postMessage).

Local Abbreviation parseFullExp := (parseFullExp Unified_Ideograph inexact).
Local Abbreviation resolveNickname := (resolveNickname findGuildUser).
Local Abbreviation tryRollDice_v1 :=
  (tryRollDice_v1 Unified_Ideograph inexact getCard findGuildUser DiceRoll).
Local Abbreviation sendDiceMessage := (sendDiceMessage postMessage).
Local Abbreviation handleGuildMessage_v1_sends :=
  (handleGuildMessage_v1_sends Unified_Ideograph inexact getCard findGuildUser
     postMessage DiceRoll).
Local Abbreviation handleDirectMessage_v1 :=
  (handleDirectMessage_v1 Unified_Ideograph inexact getCard findGuildUser DiceRoll).
Local Abbreviation handleGuildReactions_v1 :=
  (handleGuildReactions_v1 Unified_Ideograph inexact getCard findGuildUser
     postMessage DiceRoll).

(** [tryRollDice] of the older generation in terms of the parsed pair. *)
Lemma tryRollDice_v1_shape fullExp userId nickname channelId guildId :
  tryRollDice_v1 fullExp userId nickname channelId guildId
  = match DiceRoll (fst (parseFullExp fullExp)) with
    | None => (None, [])
    | Some (total, output) =>
      let result :=
        match truthy channelId with
        | Some channelId =>
          decideResult_v1 (getCard channelId userId)
            (snd (parseFullExp fullExp)) total
        | None => None
        end in
      (Some (orDefault (resolveNickname userId nickname guildId) userId
             ++ js " 🎲 " ++ snd (parseFullExp fullExp) ++ js " " ++ output
             ++ js " " ++ match result with Some r => resultDesc r | None => [] end),
       match result, channelId with
       | Some r, Some channelId =>
         if endsWithSuccess result then
           [SendToChannel channelId (cardName r) (skill r)]
         else []
       | _, _ => []
       end)
    end.
Proof.
  unfold_handlers_v1.
  destruct (parseFullExp fullExp) as [exp desc]. cbn [fst snd].
  destruct (DiceRoll exp) as [[total output]|]; reflexivity.
Qed.

(** The three ways [tryRollDice] of the older generation ends. *)
Lemma tryRollDice_v1_cases fullExp userId nickname channelId guildId :
  DiceRoll (fst (parseFullExp fullExp)) = None /\
  tryRollDice_v1 fullExp userId nickname channelId guildId = (None, []) \/
  exists text,
    DiceRoll (fst (parseFullExp fullExp)) <> None /\
    truthy (Some text) = Some text /\
    (tryRollDice_v1 fullExp userId nickname channelId guildId = (Some text, []) /\
     endsWith text (js "成功") = false \/
     exists ch r,
       channelId = Some ch /\ truthy channelId = Some ch /\
       tryRollDice_v1 fullExp userId nickname channelId guildId
       = (Some text, [SendToChannel ch (cardName r) (skill r)]) /\
       endsWith text (js "成功") = true).
Proof.
  rewrite tryRollDice_v1_shape.
  destruct (DiceRoll _) as [[total output]|]; [right|left; now split].
  cbv zeta.
  destruct (truthy channelId) as [ch|] eqn:Ech.
  2:{ eexists. split; [discriminate|]. split; [apply reply_truthy|].
      left. split; [reflexivity|].
      rewrite app_nil_r, !app_assoc. apply endsWith_space. }
  assert (Hch : channelId = Some ch) by (now destruct channelId as [[|]|]).
  subst channelId.
  destruct (decideResult_v1 _ _ _) as [r|] eqn:Er.
  2:{ eexists. split; [discriminate|]. split; [apply reply_truthy|].
      left. split; [reflexivity|].
      rewrite app_nil_r, !app_assoc. apply endsWith_space. }
  cbn [endsWithSuccess]. apply resultDesc_length in Er.
  assert (E : forall x, endsWith (x ++ resultDesc r) (js "成功")
                        = endsWith (resultDesc r) (js "成功")).
  { intros x. apply endsWith_app_r. change (length (js "成功")) with 2%nat. lia. }
  eexists. split; [discriminate|]. split; [apply reply_truthy|].
  destruct (endsWith (resultDesc r) (js "成功")) eqn:Es.
  - right. exists ch, r. split; [reflexivity|]. split; [reflexivity|].
    split; [reflexivity|]. now rewrite !app_assoc, E.
  - left. split; [reflexivity|]. now rewrite !app_assoc, E.
Qed.

(** X12.  [tryRollDice] of the older generation returns [null] exactly when
    the dice library rejects the parsed expression; otherwise it sends a
    [card/test] message to the clients exactly when the reply it returns ends
    in 成功, at most one, and none for a roll without channel. *)
Theorem tryRollDice_v1_reply
  (fullExp userId : jsstring) (nickname channelId guildId : option jsstring) :
  (fst (tryRollDice_v1 fullExp userId nickname channelId guildId) = None <->
   DiceRoll (fst (parseFullExp fullExp)) = None) /\
  (forall text,
     fst (tryRollDice_v1 fullExp userId nickname channelId guildId) = Some text ->
     (snd (tryRollDice_v1 fullExp userId nickname channelId guildId) = [] <->
      endsWith text (js "成功") = false)) /\
  (truthy channelId = None ->
   snd (tryRollDice_v1 fullExp userId nickname channelId guildId) = []) /\
  (length (snd (tryRollDice_v1 fullExp userId nickname channelId guildId)) <= 1)%nat.
Proof.
  destruct (tryRollDice_v1_cases fullExp userId nickname channelId guildId)
    as [[Hd ->]|(text & Hd & _ & [[-> He]|(ch & r & -> & Hch & -> & He)])];
    cbn [fst snd length].
  - repeat split; try easy. lia.
  - split; [split; [discriminate|contradiction]|].
    split; [|split; [reflexivity|lia]].
    intros t H. apply Some_eq_inv in H. subst t. now split.
  - split; [split; [discriminate|contradiction]|].
    split; [|split; [congruence|lia]].
    intros t H. apply Some_eq_inv in H. subst t. rewrite He. now split.
Qed.

(** X13.  What the older [handleGuildMessage] sends: nothing, exactly when
    the text is not a command or its expression is one the dice library
    rejects; otherwise one reply posted to the channel of the message, in
    answer to it; before it one [card/test] message to the clients of that
    channel when, and only when, the reply ends in 成功; and after it, when
    and only when the post resolves, the record of the reply for the clients
    of the channel: the id and the timestamp of the response, the id and the
    name of the bot (empty when unknown) and the reply as the content. *)
Theorem guild_message_v1_sends_shape (bot botName : option jsstring) (msg : IMessage) :
  let posted text :=
    PostMessage (channel_id msg) text (msg_id msg) ::
    match postMessage (channel_id msg) text (msg_id msg) with
    | Some (id, timestamp) =>
      [PushToClients (channel_id msg) id (orDefault bot []) (orDefault botName [])
         text timestamp]
    | None => []
    end in
  (handleGuildMessage_v1_sends bot botName msg = [] <->
   handleGuildMessage_v1 bot msg = None \/
   exists fullExp,
     handleGuildMessage_v1 bot msg = Some fullExp /\
     DiceRoll (fst (parseFullExp fullExp)) = None) /\
  (handleGuildMessage_v1_sends bot botName msg = [] \/
   (exists text,
      handleGuildMessage_v1_sends bot botName msg = posted text /\
      endsWith text (js "成功") = false) \/
   (exists text name skill,
      handleGuildMessage_v1_sends bot botName msg
      = SendToChannel (channel_id msg) name skill :: posted text /\
      endsWith text (js "成功") = true)).
Proof.
  cbv zeta.
  assert (H : handleGuildMessage_v1_sends bot botName msg
              = match handleGuildMessage_v1 bot msg with
                | None => []
                | Some fullExp =>
                  let '(reply, notified) :=
                    tryRollDice_v1 fullExp (author_id msg)
                      (orOption (member_nick msg) (author_username msg))
                      (Some (channel_id msg)) None in
                  notified ++
                  match truthy reply with
                  | Some reply =>
                    sendDiceMessage bot botName (channel_id msg) reply (msg_id msg)
                  | None => []
                  end
                end) by reflexivity.
  rewrite H. clear H.
  destruct (handleGuildMessage_v1 bot msg) as [fullExp|].
  2:{ split; [split; [now left|reflexivity]|now left]. }
  destruct (tryRollDice_v1_cases fullExp (author_id msg)
              (orOption (member_nick msg) (author_username msg))
              (Some (channel_id msg)) None)
    as [[Hd ->]|(text & Hd & Ht & [[-> He]|(ch & r & Hch & _ & -> & He)])].
  - split; [|now left]. split; [intros _|reflexivity].
    right. exists fullExp. now split.
  - rewrite Ht. cbn [app]. split.
    + split; [discriminate|]. intros [H|(f & H & Hd')]; [discriminate|].
      apply Some_eq_inv in H. subst f. contradiction.
    + right. left. exists text. now split.
  - apply Some_eq_inv in Hch. subst ch. rewrite Ht. cbn [app]. split.
    + split; [discriminate|]. intros [H|(f & H & Hd')]; [discriminate|].
      apply Some_eq_inv in H. subst f. contradiction.
    + right. right. exists text, (cardName r), (skill r). now split.
Qed.

(** X14.  What the older [handleDirectMessage] sends: direct messages only,
    to the guild of the message and in answer to it, never more than one; and
    none at all exactly when the text is a command whose expression the dice
    library rejects, so that such a message is left without any reply. *)
Theorem direct_message_v1_replies (selfNick : jsstring) (msg : IMessage) :
  (forall m, In m (handleDirectMessage_v1 selfNick msg) ->
     exists text, m = PostDirectMessage (guild_id msg) text (msg_id msg)) /\
  (length (handleDirectMessage_v1 selfNick msg) <= 1)%nat /\
  (handleDirectMessage_v1 selfNick msg = [] <->
   exists c,
     content msg = Some c /\
     startsWithMarker (trim c) = true /\
     trim (sliceFrom (trim c) 1) <> [] /\
     DiceRoll (fst (parseFullExp (unescapeHTML (trim (sliceFrom (trim c) 1)))))
     = None).
Proof.
  unfold_handleDirectMessage_v1. cbv zeta.
  assert (Hone : forall text : jsstring,
            (forall m, In m [PostDirectMessage (guild_id msg) text (msg_id msg)] ->
               exists text, m = PostDirectMessage (guild_id msg) text (msg_id msg)) /\
            (length [PostDirectMessage (guild_id msg) text (msg_id msg)] <= 1)%nat).
  { intros text. split; [|cbn [length]; lia]. intros m [<-|[]]. now eexists. }
  destruct (content msg) as [c|].
  2:{ destruct (Hone (selfNick ++ js "在的说")) as [H1 H2].
      split; [exact H1|]. split; [exact H2|]. split; [discriminate|].
      now intros (c & H & _). }
  destruct (trim c) as [|c0 t0] eqn:Et.
  { destruct (Hone (selfNick ++ js "在的说")) as [H1 H2].
    split; [exact H1|]. split; [exact H2|]. split; [discriminate|].
    intros (c' & H & Hm & _). apply Some_eq_inv in H. subst c'.
    now rewrite Et in Hm. }
  rewrite <- Et.
  destruct (startsWithMarker (trim c)) eqn:Em.
  2:{ destruct (Hone (selfNick ++ js "在的说")) as [H1 H2].
      split; [exact H1|]. split; [exact H2|]. split; [discriminate|].
      intros (c' & H & Hm & _). apply Some_eq_inv in H. subst c'. congruence. }
  destruct (trim (sliceFrom (trim c) 1)) as [|c1 t1] eqn:Es.
  { destruct (Hone (selfNick ++ js "在的说")) as [H1 H2].
    split; [exact H1|]. split; [exact H2|]. split; [discriminate|].
    intros (c' & H & _ & Hne & _). apply Some_eq_inv in H. subst c'. congruence. }
  destruct (tryRollDice_v1_cases (unescapeHTML (c1 :: t1)) (author_id msg)
              (author_username msg) None None)
    as [[Hd ->]|(text & Hd & Ht & [[-> He]|(ch & r & Hch & _)])];
    [| |discriminate Hch].
  - cbn [app truthy]. split; [easy|]. split; [cbn [length]; lia|].
    split; [|reflexivity]. intros _. exists c. rewrite Es.
    repeat split; [exact Em|discriminate|exact Hd].
  - rewrite Ht. cbn [app]. destruct (Hone text) as [H1 H2].
    split; [exact H1|]. split; [exact H2|]. split; [discriminate|].
    intros (c' & H & _ & _ & Hd'). apply Some_eq_inv in H. subst c'.
    rewrite Es in Hd'. contradiction.
Qed.

Hypothesis ideograph_not_ascii :
  forall c, (c < 0x80)%N -> Unified_Ideograph c = false.



End HandlerFacts_v1.

(** A worked run of the older [handleGuildMessage]: a check of the name
    [constructor], which the card does not hold and [props] inherits; the
    post resolves and the reply is recorded for the clients. *)
Example guild_message_v1_run :
  handleGuildMessage_v1_sends ideograph15 noInexact
    (fun _ _ => Some exampleCard) (fun _ _ => None)
    (fun _ _ _ => Some (js "r1", js "t1")) exampleDiceRoll
    (Some (js "bot")) None (exampleMessage ".d% constructor" None)
  = [PostMessage (js "c1")
       (js "user 🎲  constructor d%: [42] = 42 > function Object() { [native code] } 失败")
       (js "m1");
     PushToClients (js "c1") (js "r1") (js "bot") []
       (js "user 🎲  constructor d%: [42] = 42 > function Object() { [native code] } 失败")
       (js "t1")].
Proof. vm_compute. reflexivity. Qed.


(** ** The message cache and the first reaction to a message *)

Lemma split_no_sep sep s :
  Forall (fun c => (c =? sep)%N = false) s -> split sep s = [s].
Proof.
  induction 1 as [|c s Hc _ IH]; [reflexivity|]. cbn [split]. now rewrite Hc, IH.
Qed.

Lemma split_app sep a b :
  Forall (fun c => (c =? sep)%N = false) a ->
  split sep (a ++ sep :: b) = a :: split sep b.
Proof.
  induction 1 as [|c a Hc _ IH]; cbn [app split].
  - now rewrite N.eqb_refl.
  - now rewrite Hc, IH.
Qed.

Lemma matchAllFrom_In alts : forall s skip m,
  In m (matchAllFrom alts skip s) -> In m alts.
Proof.
  induction s as [|c s IH]; intros skip m; cbn [matchAllFrom]; [easy|].
  destruct skip as [|k]; [|apply IH].
  destruct (firstAlt alts (c :: s)) as [m'|] eqn:E; [|apply IH].
  intros [<-|H]; [now apply firstAlt_Some in E|now apply IH in H].
Qed.

(** An instruction [detectInstruction] returns is never the empty string. *)
Lemma detectInstruction_nonempty t i : detectInstruction t = Some i -> i <> [].
Proof.
  unfold detectInstruction. destruct (matchAll instRegex t) as [|kw l] eqn:E;
    [discriminate|].
  intros H. apply Some_eq_inv in H. subst i. apply app_not_nil.
  assert (Hin : In kw instRegex).
  { apply (matchAllFrom_In instRegex t 0%nat). unfold matchAll in E. rewrite E.
    now left. }
  assert (Hall : forallb (fun a => negb (bool_decide (a = []))) instRegex = true)
    by (vm_compute; reflexivity).
  rewrite forallb_forall in Hall. specialize (Hall kw Hin).
  intros ->. discriminate Hall.
Qed.

Lemma instRegex_plain : forallb plainKeyword instRegex = true.
Proof. vm_compute. reflexivity. Qed.

(** X25.  An instruction [detectInstruction] returns is a qualifier or
    none followed by a keyword of [instRegex], and that keyword is a plain
    name for the older decider: not empty, without white space, and holding
    none of 困难, 极难, 极限 inside. *)
Theorem detected_instruction_shape (text i : jsstring) :
  detectInstruction text = Some i ->
  exists q kw,
    i = qualifierText q ++ kw /\
    In kw instRegex /\
    kw <> [] /\
    Forall (fun c => isWhiteSpace c = false) kw /\
    (forall q', In q' difficultyRegex -> includes kw q' = false).
Proof.
  unfold detectInstruction. destruct (matchAll instRegex text) as [|kw l] eqn:E;
    [discriminate|].
  intros H. apply Some_eq_inv in H. subst i.
  assert (Hin : In kw instRegex).
  { apply (matchAllFrom_In instRegex text 0%nat). unfold matchAll in E.
    rewrite E. now left. }
  pose proof instRegex_plain as Hall. rewrite forallb_forall in Hall.
  specialize (Hall kw Hin). unfold plainKeyword in Hall.
  apply andb_true_iff in Hall as [Hall Hq]. apply andb_true_iff in Hall as [Hne Hs].
  assert (Hd : exists q,
            match execAlts difficultyRegex text with Some d => d | None => [] end
            = qualifierText q).
  { destruct (execAlts difficultyRegex text) as [d|] eqn:Ed; [|now exists None].
    apply execAlts_Some in Ed as [[<-|[<-|[<-|[]]]] _];
      [now exists (Some Hard)|now exists (Some Extreme)|now exists (Some Limit)]. }
  destruct Hd as [q ->]. exists q, kw. split; [reflexivity|]. split; [exact Hin|].
  split; [|split].
  - intros ->. discriminate Hne.
  - rewrite forallb_forall in Hs. apply List.Forall_forall. intros c Hc.
    specialize (Hs c Hc). now destruct (isWhiteSpace c).
  - rewrite forallb_forall in Hq. intros q' Hq'. specialize (Hq q' Hq').
    now destruct (includes kw q').
Qed.

Lemma detected_instruction_shape_witness :
  exists q kw,
    js "困难侦察" = qualifierText q ++ kw /\
    In kw instRegex /\
    kw <> [] /\
    Forall (fun c => isWhiteSpace c = false) kw /\
    (forall q', In q' difficultyRegex -> includes kw q' = false).
Proof.
  apply (detected_instruction_shape (js "过个侦察吧，困难的") (js "困难侦察")).
  vm_compute. reflexivity.
Defined.

(** X16.  For ids that hold no [-], the key [channelId-msgId] splits back
    into the two ids, and [fetchMethod] asks for that message of that
    channel; the entry it returns holds the trimmed content, marked as not
    yet scanned when that text is non-empty and as without instruction when
    the message has no content or only white space. *)
Theorem fetch_key_round_trip
  (message : jsstring -> option jsstring -> option (option jsstring))
  (channelId msgId : jsstring) :
  Forall (fun c => (c =? 0x2D)%N = false) channelId ->
  Forall (fun c => (c =? 0x2D)%N = false) msgId ->
  split 0x2D (cacheKey channelId msgId) = [channelId; msgId] /\
  fetchMethod message (cacheKey channelId msgId)
  = match message channelId (Some msgId) with
    | None => None
    | Some content =>
      Some {| text := option_map trim content;
              instruction :=
                match content with
                | Some c => if bool_decide (trim c = []) then NoInstruction
                            else Unparsed
                | None => NoInstruction
                end |}
    end.
Proof.
  intros Hc Hm.
  assert (E : split 0x2D (cacheKey channelId msgId) = [channelId; msgId]).
  { unfold cacheKey. js_eval. cbn [app].
    now rewrite (split_app _ _ _ Hc), (split_no_sep _ _ Hm). }
  split; [exact E|]. unfold fetchMethod. rewrite E. cbn [nth nth_error].
  destruct (message channelId (Some msgId)) as [[c|]|]; [|reflexivity..].
  cbn [option_map truthy]. now destruct (trim c).
Qed.

Lemma fetch_key_round_trip_witness :
  split 0x2D (cacheKey (js "c1") (js "m1")) = [js "c1"; js "m1"] /\
  fetchMethod (fun _ _ => Some (Some (js " 过个侦察 "))) (cacheKey (js "c1") (js "m1"))
  = Some {| text := Some (js "过个侦察"); instruction := Unparsed |}.
Proof.
  destruct (fetch_key_round_trip (fun _ _ => Some (Some (js " 过个侦察 ")))
              (js "c1") (js "m1")) as [H1 H2].
  - vm_compute. repeat constructor.
  - vm_compute. repeat constructor.
  - split; [exact H1|]. rewrite H2. vm_compute. reflexivity.
Defined.

(** ** Runs of the newer handlers *)

Lemma lru_peek_remove_length {V} k (c : LRUCache V) v :
  lru_peek k c = Some v -> (length (lru_remove k c) < length c)%nat.
Proof.
  unfold lru_peek, lru_remove.
  induction c as [|[k' v'] c IH]; cbn [find List.filter fst]; [discriminate|].
  destruct (bool_decide (k' = k)) eqn:E; cbn [negb length].
  - intros _. pose proof (filter_length_le (fun e => negb (bool_decide (e.1 = k))) c).
    lia.
  - intros H. specialize (IH H). lia.
Qed.

Lemma lru_remove_keys {V} k (c : LRUCache V) :
  ~ In k (List.map fst (lru_remove k c)) /\
  (NoDup (List.map fst c) -> NoDup (List.map fst (lru_remove k c))).
Proof.
  unfold lru_remove.
  induction c as [|[k' v'] c [IH1 IH2]]; cbn [List.filter List.map fst].
  - split; [easy|auto].
  - destruct (bool_decide (k' = k)) eqn:E; cbn [negb List.map fst].
    + split; [exact IH1|]. intros H. apply NoDup_cons_1_2 in H. auto.
    + apply bool_decide_eq_false in E. split.
      * intros [H|H]; [contradiction|]. now apply IH1.
      * intros H. pose proof (NoDup_cons_1_1 _ _ H) as Hn.
        apply NoDup_cons_1_2 in H. apply NoDup_cons_2; [|auto].
        rewrite list_elem_of_In. intros Hin. apply Hn. rewrite list_elem_of_In.
        apply in_map_iff in Hin as (e & He & Hin). apply in_map_iff.
        exists e. split; [exact He|]. now apply filter_In in Hin.
Qed.

Lemma lru_remove_absent {V} k (c : LRUCache V) :
  ~ In k (List.map fst c) -> lru_remove k c = c.
Proof.
  unfold lru_remove.
  induction c as [|[k' v'] c IH]; cbn [List.filter List.map fst]; [reflexivity|].
  intros H. destruct (bool_decide (k' = k)) eqn:E; cbn [negb].
  - apply bool_decide_eq_true in E. exfalso. apply H. now left.
  - rewrite IH; [reflexivity|]. intros Hin. apply H. now right.
Qed.

Lemma firstn_keys {V} n (c : LRUCache V) k :
  In k (List.map fst (firstn n c)) -> In k (List.map fst c).
Proof.
  intros H. apply in_map_iff in H as (e & He & Hin). apply in_map_iff.
  exists e. split; [exact He|]. now apply In_firstn in Hin.
Qed.

(** A key just set is found again, and finding it leaves the cache as it is. *)
Lemma lru_get_set {V} max k (v : V) c :
  (0 < max)%nat ->
  lru_get k (lru_set max k v c) = (Some v, lru_set max k v c).
Proof.
  intros Hmax. destruct max as [|n]; [lia|]. unfold lru_set, lru_get, lru_peek.
  cbn [firstn find fst]. rewrite bool_decide_eq_true_2 by reflexivity.
  cbn [option_map snd]. f_equal. f_equal.
  change (lru_remove k ((k, v) :: firstn n (lru_remove k c)))
    with (List.filter (fun e => negb (bool_decide (fst e = k)))
            ((k, v) :: firstn n (lru_remove k c))).
  cbn [List.filter fst]. rewrite bool_decide_eq_true_2 by reflexivity. cbn [negb].
  apply lru_remove_absent. intros H. apply firstn_keys in H.
  now apply (proj1 (lru_remove_keys k c)).
Qed.

Lemma lru_get_wellFormed {V} k (c : LRUCache V) :
  wellFormed c -> wellFormed (snd (lru_get k c)).
Proof.
  unfold lru_get, wellFormed. destruct (lru_peek k c) as [v|] eqn:E; cbn [snd];
    [|easy].
  intros [Hl Hn]. apply lru_peek_remove_length in E. split; [cbn [length]; lia|].
  cbn [List.map fst]. apply NoDup_cons_2.
  - rewrite list_elem_of_In. apply lru_remove_keys.
  - now apply lru_remove_keys.
Qed.

Lemma NoDup_firstn {A} n (l : list A) : NoDup l -> NoDup (firstn n l).
Proof.
  revert l. induction n as [|n IH]; intros [|a l] H; cbn [firstn];
    try constructor.
  - rewrite list_elem_of_In. intros Hin. apply In_firstn in Hin.
    apply NoDup_cons_1_1 in H. apply H. now rewrite list_elem_of_In.
  - apply IH. now apply NoDup_cons_1_2 in H.
Qed.

Lemma lru_set_wellFormed {V} k (v : V) c :
  wellFormed c -> wellFormed (lru_set opposedRollCacheMax k v c).
Proof.
  intros [_ Hn]. split; [apply lru_set_size|]. unfold lru_set.
  rewrite <- firstn_map. apply NoDup_firstn. cbn [List.map fst].
  apply NoDup_cons_2.
  - rewrite list_elem_of_In. apply lru_remove_keys.
  - now apply lru_remove_keys.
Qed.

Section HandlerRuns.

Variable Card : Type.
Variable getCard : jsstring -> jsstring -> option Card.
Variable createDiceRoll : jsstring -> DiceRollContext Card -> option Roller.
Variable applyToCard : Roller -> option bool.
Variable findChannel : jsstring -> jsstring -> bool.
Variable findUser : jsstring -> jsstring -> option jsstring.

Local Abbreviation tryRollDiceWith := (tryRollDice Card getCard).
Local Abbreviation tryRollDice := (tryRollDiceWith createDiceRoll applyToCard).
Local Abbreviation handleGuildMessage :=
  (handleGuildMessage Card getCard createDiceRoll applyToCard findChannel findUser).
Local Abbreviation handleGuildReactions :=
  (handleGuildReactions Card getCard createDiceRoll applyToCard findChannel findUser).
Local Abbreviation handleDirectMessageWith := (handleDirectMessage Card).
Local Abbreviation handleDirectMessage :=
  (handleDirectMessageWith getCard createDiceRoll applyToCard findUser).
Local Abbreviation step :=
  (step Card getCard createDiceRoll applyToCard findChannel findUser).
Local Abbreviation run :=
  (run Card getCard createDiceRoll applyToCard findChannel findUser).

(** The cache [tryRollDice] leaves is the one the lookup of the replied-to
    id leaves, or the given one without such an id. *)
Lemma tryRollDice_cacheAfter cache fullExp userId channelId username replyMsgId :
  (tryRollDice cache fullExp userId channelId username replyMsgId).1.2
  = match truthy replyMsgId with
    | Some k => snd (lru_get k cache)
    | None => cache
    end /\
  (tryRollDice cache fullExp userId channelId username replyMsgId).2
  = match truthy replyMsgId with
    | Some k => [k]
    | None => []
    end.
Proof.
  unfold_tryRollDice.
  destruct (truthy replyMsgId) as [k0|]; [destruct (lru_get k0 cache) as [v c']|];
    (destruct (createDiceRoll _ _) as [roller|]; [|now split]);
    (destruct (match truthy channelId with
               | Some ch => getCard ch userId | None => None end);
     [destruct (applyToCard roller)|]); now split.
Qed.

Lemma tryRollDice_wellFormed cache fullExp userId channelId username replyMsgId :
  wellFormed cache ->
  wellFormed (tryRollDice cache fullExp userId channelId username replyMsgId).1.2.
Proof.
  intros H. rewrite (proj1 (tryRollDice_cacheAfter _ _ _ _ _ _)).
  destruct (truthy replyMsgId); [now apply lru_get_wellFormed|exact H].
Qed.

Ltac destruct_sends :=
  repeat (match goal with
    | |- context [if ?b then _ else _] => destruct b
    | |- context [match findUser ?a ?b with _ => _ end] => destruct (findUser a b)
    end).

Lemma step_wellFormed cache ev :
  wellFormed cache -> wellFormed (cacheAfter (step cache ev)).
Proof.
  intros Hw.
  destruct ev as [bot msg|eventId channelId guildId userId cacheMsg
                 |selfNick msg srcGuildId|roll replyMsg]; unfold_handlers.
  - destruct (content msg) as [c|]; [|exact Hw].
    destruct (trim c) as [|c0 t]; [exact Hw|].
    match goal with |- context [tryRollDice ?a ?b ?c ?d ?e ?f] =>
      pose proof (tryRollDice_wellFormed a b c d e f Hw) as Hc;
      destruct (tryRollDice a b c d e f) as [[roll cache'] looked] end.
    cbn [fst snd] in Hc.
    destruct roll as [[r|out]|]; destruct_sends; exact Hc.
  - destruct cacheMsg as [entry|]; [|exact Hw]. cbn [snd].
    destruct (instruction entry) as [| |i] eqn:Ei; [|exact Hw|].
    + cbn [instruction]. destruct (detectInstruction _) as [[|c i]|];
        [exact Hw| |exact Hw].
      match goal with |- context [tryRollDice ?a ?b ?c ?d ?e ?f] =>
        pose proof (tryRollDice_wellFormed a b c d e f Hw) as Hc;
        destruct (tryRollDice a b c d e f) as [[roll cache'] looked] end.
      cbn [fst snd] in Hc.
      destruct roll; [destruct (findChannel channelId guildId)|]; exact Hc.
    + rewrite Ei. destruct i as [|c i]; [exact Hw|].
      match goal with |- context [tryRollDice ?a ?b ?c ?d ?e ?f] =>
        pose proof (tryRollDice_wellFormed a b c d e f Hw) as Hc;
        destruct (tryRollDice a b c d e f) as [[roll cache'] looked] end.
      cbn [fst snd] in Hc.
      destruct roll; [destruct (findChannel channelId guildId)|]; exact Hc.
  - destruct (content msg) as [c|];
      [|destruct (findUser (author_id msg) srcGuildId); exact Hw].
    destruct (if startsWithMarker (trim c) then trim (sliceFrom (trim c) 1) else [])
      as [|c0 t]; [destruct (findUser (author_id msg) srcGuildId); exact Hw|].
    destruct (findUser (author_id msg) srcGuildId) as [persona|]; [|exact Hw].
    match goal with |- context [tryRollDice ?a ?b ?c ?d ?e ?f] =>
      pose proof (tryRollDice_wellFormed a b c d e f Hw) as Hc;
      destruct (tryRollDice a b c d e f) as [[roll cache'] looked] end.
    cbn [fst snd] in Hc. destruct roll; exact Hc.
  - cbn [cacheAfter]. destruct replyMsg as [id|]; [|exact Hw].
    destruct roll as [r|out]; [|exact Hw].
    destruct (eligibleForOpposedRoll r); [|exact Hw].
    now apply lru_set_wellFormed.
Qed.

(** X17.  The keyword scan of a cached message is made once:
    [handleGuildReactions] returns the entry with its text unchanged and its
    instruction settled (never left unscanned); an entry that was settled is
    returned as it was; handling the returned entry again, for any reaction,
    returns it unchanged; and whenever the handler rolls, the expression is
    [d% ] followed by the instruction of the returned entry. *)
Theorem reaction_instruction_memoised
  (cache : LRUCache StandardDiceRoll) (eventId channelId guildId userId : jsstring)
  (entry : IMessageCache) :
  exists entry',
    fst (handleGuildReactions cache eventId channelId guildId userId (Some entry))
    = Some entry' /\
    text entry' = text entry /\
    (instruction entry' = Unparsed -> False) /\
    (instruction entry = Unparsed \/ entry' = entry) /\
    (forall cache2 eventId2 channelId2 guildId2 userId2,
       fst (handleGuildReactions cache2 eventId2 channelId2 guildId2 userId2
              (Some entry')) = Some entry') /\
    (forall fullExp,
       rolled (snd (handleGuildReactions cache eventId channelId guildId userId
                      (Some entry))) = Some fullExp ->
       exists i, instruction entry' = Parsed i /\ fullExp = js "d% " ++ i).
Proof.
  destruct entry as [t ins].
  assert (Hfix : forall t i cache2 eventId2 channelId2 guildId2 userId2,
            i <> Unparsed ->
            fst (handleGuildReactions cache2 eventId2 channelId2
                   guildId2 userId2 (Some {| text := t; instruction := i |}))
            = Some {| text := t; instruction := i |}).
  { intros t0 i c2 e2 ch2 g2 u2 Hi. unfold handleGuildReactions.
    cbn [instruction text]. destruct i as [| |[|c0 i]]; try easy.
    cbn [instruction text].
    match goal with |- context [tryRollDice ?a ?b ?c ?d ?e ?f] =>
      destruct (tryRollDice a b c d e f) as [[roll c'] looked] end.
    reflexivity. }
  unfold handleGuildReactions at 1 3. cbn [instruction text].
  destruct ins as [| |i].
  - destruct (detectInstruction (orDefault t [])) as [[|c i]|] eqn:Ed;
      cbn [instruction text].
    + eexists. split; [reflexivity|]. cbn [text instruction snd].
      split; [reflexivity|]. split; [discriminate|]. split; [now left|].
      split; [intros; now apply Hfix|]. intros f H. discriminate H.
    + match goal with |- context [tryRollDice ?a ?b ?c ?d ?e ?f] =>
        destruct (tryRollDice a b c d e f) as [[roll c'] looked] end.
      eexists. split; [reflexivity|]. cbn [text instruction snd].
      split; [reflexivity|]. split; [discriminate|]. split; [now left|].
      split; [intros; now apply Hfix|].
      intros fullExp H. exists (c :: i). split; [reflexivity|].
      destruct roll; [destruct (findChannel channelId guildId)|];
        cbn [rolled idle] in H; congruence.
    + eexists. split; [reflexivity|]. cbn [text instruction snd].
      split; [reflexivity|]. split; [discriminate|]. split; [now left|].
      split; [intros; now apply Hfix|]. intros f H. discriminate H.
  - eexists. split; [reflexivity|]. cbn [text instruction snd].
    split; [reflexivity|]. split; [discriminate|]. split; [now right|].
    split; [intros; now apply Hfix|]. intros f H. discriminate H.
  - destruct i as [|c i]; cbn [instruction text].
    + eexists. split; [reflexivity|]. cbn [text instruction snd].
      split; [reflexivity|]. split; [discriminate|]. split; [now right|].
      split; [intros; now apply Hfix|]. intros f H. discriminate H.
    + match goal with |- context [tryRollDice ?a ?b ?c ?d ?e ?f] =>
        destruct (tryRollDice a b c d e f) as [[roll c'] looked] end.
      eexists. split; [reflexivity|]. cbn [text instruction snd].
      split; [reflexivity|]. split; [discriminate|]. split; [now right|].
      split; [intros; now apply Hfix|].
      intros fullExp H. exists (c :: i). split; [reflexivity|].
      destruct roll; [destruct (findChannel channelId guildId)|];
        cbn [rolled idle] in H; congruence.
Qed.

(** X18.  The first reaction to a message, whose entry [fetchMethod] just
    built from the key of ids without [-]: [handleGuildReactions] rolls
    exactly when the trimmed content of the message holds a keyword, and the
    expression it rolls is [d% ] followed by what [detectInstruction] finds
    there; a message without content, or one the API does not return, is
    never rolled for. *)
Theorem reaction_on_fetched_message
  (message : jsstring -> option jsstring -> option (option jsstring))
  (cache : LRUCache StandardDiceRoll)
  (eventId channelId guildId userId msgId : jsstring) :
  Forall (fun c => (c =? 0x2D)%N = false) channelId ->
  Forall (fun c => (c =? 0x2D)%N = false) msgId ->
  rolled (snd (handleGuildReactions cache eventId channelId guildId userId
                 (fetchMethod message (cacheKey channelId msgId))))
  = match message channelId (Some msgId) with
    | Some (Some c) =>
      match detectInstruction (trim c) with
      | Some i => Some (js "d% " ++ i)
      | None => None
      end
    | _ => None
    end.
Proof.
  intros Hc Hm.
  unfold fetchMethod, cacheKey. js_eval. cbn [app].
  rewrite (split_app _ _ _ Hc), (split_no_sep _ _ Hm). cbn [nth nth_error].
  destruct (message channelId (Some msgId)) as [[c|]|]; [|reflexivity..].
  cbn [option_map truthy]. unfold handleGuildReactions.
  destruct (trim c) as [|c0 t0] eqn:Et; cbn [instruction text orDefault snd].
  { reflexivity. }
  destruct (detectInstruction (c0 :: t0)) as [i|] eqn:Ed; [|reflexivity].
  pose proof (detectInstruction_nonempty _ _ Ed) as Hne.
  destruct i as [|c1 i]; [contradiction|].
  match goal with |- context [tryRollDice ?a ?b ?c ?d ?e ?f] =>
    destruct (tryRollDice a b c d e f) as [[roll cache'] looked] end.
  destruct roll; [destruct (findChannel channelId guildId)|]; reflexivity.
Qed.


(** X24.  The newer [handleDirectMessage] rolls without channel, so it
    never reads a character card and never applies a roll to one: whatever
    the card store holds and whatever [applyToCard] would do, the run is the
    same. *)
Theorem direct_message_ignores_cards
  (getCard' : jsstring -> jsstring -> option Card)
  (applyToCard' : Roller -> option bool)
  (selfNick : jsstring) (cache : LRUCache StandardDiceRoll) (msg : IMessage)
  (srcGuildId : jsstring) :
  handleDirectMessageWith getCard' createDiceRoll applyToCard' findUser
    selfNick cache msg srcGuildId
  = handleDirectMessage selfNick cache msg srcGuildId.
Proof.
  unfold handleDirectMessage.
  destruct (content msg) as [c|]; [|reflexivity].
  destruct (if startsWithMarker (trim c) then trim (sliceFrom (trim c) 1) else [])
    as [|c0 t]; [reflexivity|].
  destruct (findUser (author_id msg) srcGuildId) as [persona|]; [|reflexivity].
  unfold tryRollDice. cbn [truthy].
  destruct (createDiceRoll _ _) as [roller|]; reflexivity.
Qed.

(** X20.  When a run of the newer [handleGuildMessage] awaits the post of a
    roll, which is the only way into the opposed-roll cache, that roll is not
    a hidden one, the channel of the message is known, and the one message
    the run sent is the output of that roll, to the channel, in answer to the
    message. *)
Theorem guild_message_awaits_visible_roll
  (bot : option jsstring) (cache : LRUCache StandardDiceRoll) (msg : IMessage)
  (roll : Roller) :
  awaiting (handleGuildMessage bot cache msg) = Some roll ->
  match roll with Standard r => hidden r = false | Other _ => True end /\
  findChannel (channel_id msg) (guild_id msg) = true /\
  sent (handleGuildMessage bot cache msg)
  = [ToChannel (rollerOutput roll) (msg_id msg)].
Proof.
  unfold handleGuildMessage, idle.
  destruct (content msg) as [c|]; [|discriminate].
  destruct (trim c) as [|c0 t]; [discriminate|].
  match goal with |- context [tryRollDice ?a ?b ?c ?d ?e ?f] =>
    destruct (tryRollDice a b c d e f) as [[roll0 cache'] looked] end.
  destruct roll0 as [[r|out]|]; [| |discriminate].
  - destruct (findChannel _ _); [|discriminate].
    destruct (hidden r) eqn:Eh.
    + destruct (findUser _ _); discriminate.
    + cbn [awaiting sent]. intros H. apply Some_eq_inv in H. subst roll.
      cbn [rollerOutput]. now rewrite Eh.
  - destruct (findChannel _ _); [|discriminate].
    cbn [awaiting sent]. intros H. apply Some_eq_inv in H. subst roll. easy.
Qed.

(** X21.  A hidden roll stays private: when [tryRollDice] returns a
    [StandardDiceRoll] flagged [hidden] for a guild message, the run awaits
    no post (so the roll never enters the opposed-roll cache), the only text
    sent to a channel is the notice with the name and the description of the
    roll, and the output goes to the author alone. *)
Theorem hidden_roll_stays_private
  (bot : option jsstring) (cache : LRUCache StandardDiceRoll) (msg : IMessage)
  (c : jsstring) (r : StandardDiceRoll) :
  content msg = Some c ->
  trim c <> [] ->
  (tryRollDice cache (commandBody bot (trim c)) (author_id msg)
     (Some (channel_id msg))
     (Some (orDefault (member_nick msg)
              (orDefault (author_username msg) (author_id msg))))
     (message_reference msg)).1.1
  = Some (Standard r) ->
  hidden r = true ->
  awaiting (handleGuildMessage bot cache msg) = None /\
  (forall t id, In (ToChannel t id) (sent (handleGuildMessage bot cache msg)) ->
     t = orDefault (member_nick msg)
           (orDefault (author_username msg) (author_id msg))
         ++ js " 在帷幕后面偷偷地 🎲 " ++ description r
         ++ js "，猜猜结果是什么") /\
  (forall t id, In (ToUser t id) (sent (handleGuildMessage bot cache msg)) ->
     t = output r /\ id = msg_id msg).
Proof.
  intros Hc Hne Hroll Hh. unfold handleGuildMessage, idle. rewrite Hc.
  destruct (trim c) as [|c0 t0]; [contradiction|].
  match goal with |- context [tryRollDice ?a ?b ?c ?d ?e ?f] =>
    destruct (tryRollDice a b c d e f) as [[roll0 cache'] looked] end.
  cbn [fst] in Hroll. subst roll0. rewrite Hh.
  destruct (findChannel _ _); [destruct (findUser _ _)|]; cbn [awaiting sent];
    (split; [reflexivity|]); split; intros t id H; cbn [In] in H;
    repeat (destruct H as [H|H]; [inversion H; subst; auto|]); contradiction.
Qed.

(** X22.  A roll cached under the id of its posted reply is the
    [opposedRoll] of the next roll that replies to that id: [tryRollDice]
    looks up that id only, finds the cached roll, hands it to
    [createDiceRoll], and leaves the cache as it was. *)
Theorem opposed_roll_linkage
  (cache : LRUCache StandardDiceRoll) (r : StandardDiceRoll) (id : jsstring)
  (fullExp userId : jsstring) (channelId username : option jsstring) :
  eligibleForOpposedRoll r = true ->
  id <> [] ->
  tryRollDice (afterPost cache (Standard r) (Some id)) fullExp userId channelId
    username (Some id)
  = tryRollDiceWith
      (fun exp ctx =>
         createDiceRoll exp
           {| ctx_channelId := ctx_channelId _ ctx;
              ctx_username := ctx_username _ ctx;
              ctx_card := ctx_card _ ctx;
              ctx_decide := ctx_decide _ ctx;
              ctx_opposedRoll := Some r |})
      applyToCard (afterPost cache (Standard r) (Some id)) fullExp userId
      channelId username (Some id) /\
  (tryRollDice (afterPost cache (Standard r) (Some id)) fullExp userId channelId
     username (Some id)).1.2
  = afterPost cache (Standard r) (Some id) /\
  (tryRollDice (afterPost cache (Standard r) (Some id)) fullExp userId channelId
     username (Some id)).2
  = [id].
Proof.
  intros He Hid. destruct id as [|c id]; [contradiction|].
  unfold afterPost. rewrite He.
  unfold tryRollDice. cbn [truthy].
  rewrite lru_get_set by (unfold opposedRollCacheMax; lia).
  cbn [ctx_channelId ctx_username ctx_card ctx_decide].
  split; [reflexivity|].
  destruct (createDiceRoll _ _) as [roller|]; [|now split].
  destruct (match truthy channelId with
            | Some ch => getCard ch userId | None => None end);
    [destruct (applyToCard roller)|]; now split.
Qed.

(** X23.  Whatever events the handlers meet from an empty opposed-roll
    cache on, the cache never holds more than 50 rolls and never two under
    the same message id. *)
Theorem opposed_cache_bounded (evs : list Event) :
  (length (run [] evs) <= 50)%nat /\ NoDup (List.map fst (run [] evs)).
Proof.
  assert (H : forall cache, wellFormed cache -> wellFormed (run cache evs)).
  { induction evs as [|ev evs IH]; intros cache Hc; [exact Hc|].
    unfold_run. apply IH. now apply step_wellFormed. }
  apply (H []). split; [cbn; lia|constructor].
Qed.

End HandlerRuns.

Lemma reaction_on_fetched_message_witness :
  rolled (snd (handleGuildReactions unit (fun _ _ => None) exampleCreateDiceRoll
                 (fun _ => Some false) (fun _ _ => true)
                 (fun _ _ => Some (js "user")) []
                 (js "e1") (js "c1") (js "g1") (js "u1")
                 (fetchMethod (fun _ _ => Some (Some (js " 过个侦察吧 ")))
                    (cacheKey (js "c1") (js "m1")))))
  = Some (js "d% 侦察").
Proof.
  rewrite (reaction_on_fetched_message unit (fun _ _ => None)
             exampleCreateDiceRoll (fun _ => Some false) (fun _ _ => true)
             (fun _ _ => Some (js "user"))
             (fun _ _ => Some (Some (js " 过个侦察吧 "))) []
             (js "e1") (js "c1") (js "g1") (js "u1") (js "m1")).
  - vm_compute. reflexivity.
  - vm_compute. repeat constructor.
  - vm_compute. repeat constructor.
Defined.

Lemma guild_message_awaits_visible_roll_witness :
  sent (handleGuildMessage unit (fun _ _ => None) exampleCreateDiceRoll
          (fun _ => Some false) (fun _ _ => true) (fun _ _ => Some (js "user"))
          (Some (js "bot")) [] (exampleMessage ".d% 侦察" None))
  = [ToChannel (rollerOutput (Standard exampleRoll))
       (msg_id (exampleMessage ".d% 侦察" None))].
Proof.
  refine (proj2 (proj2
    (guild_message_awaits_visible_roll unit (fun _ _ => None)
       exampleCreateDiceRoll (fun _ => Some false) (fun _ _ => true)
       (fun _ _ => Some (js "user")) (Some (js "bot")) []
       (exampleMessage ".d% 侦察" None) (Standard exampleRoll) _))).
  vm_compute. reflexivity.
Defined.

Lemma hidden_roll_stays_private_witness :
  awaiting (handleGuildMessage unit (fun _ _ => None)
              (fun _ _ => Some (Standard exampleHiddenRoll)) (fun _ => Some false)
              (fun _ _ => true) (fun _ _ => Some (js "user")) (Some (js "bot")) []
              (exampleMessage ".rh 侦察" None))
  = None.
Proof.
  refine (proj1
    (hidden_roll_stays_private unit (fun _ _ => None)
       (fun _ _ => Some (Standard exampleHiddenRoll)) (fun _ => Some false)
       (fun _ _ => true) (fun _ _ => Some (js "user")) (Some (js "bot")) []
       (exampleMessage ".rh 侦察" None) (js ".rh 侦察") exampleHiddenRoll
       _ _ _ _)).
  - reflexivity.
  - vm_compute. discriminate.
  - vm_compute. reflexivity.
  - reflexivity.
Defined.

Lemma opposed_roll_linkage_witness :
  (tryRollDice unit (fun _ _ => None) exampleCreateDiceRoll (fun _ => Some false)
     (afterPost [] (Standard exampleRoll) (Some (js "r1")))
     (js "d% 侦察") (js "u1") None None (Some (js "r1"))).2
  = [js "r1"].
Proof.
  refine (proj2 (proj2
    (opposed_roll_linkage unit (fun _ _ => None) exampleCreateDiceRoll
       (fun _ => Some false) [] exampleRoll (js "r1") (js "d% 侦察") (js "u1")
       None None _ _))).
  - reflexivity.
  - vm_compute. discriminate.
Defined.
